(** * soft-and-dense: geometry, reference paths, projection, targets and losses

    A shallow embedding of [src/utils.py].  Python and NumPy floats are
    modelled by the real numbers of the Standard Library: arithmetic is
    exact, so rounding, overflow, underflow and NaN are outside the model.
    Where the source can leave the real numbers (a NumPy division by zero
    yields [nan] or [inf]) or raise, the model returns an explicit outcome
    of type [result].  [np.roots] is NumPy's and is a parameter. *)

From Stdlib Require Import Reals Lra Lia List ZArith Bool Arith RNsatz.
Import ListNotations.
Open Scope R_scope.

(** ** Outcomes of a call *)

Inductive exn : Type :=
| IndexError
| ZeroDivisionError
| ValueError
| TypeError.

(** [Ok a]: the call returns [a].  [Raise e]: the call raises [e].
    [NonFinite]: NumPy divided by zero, the value is [nan] or [inf]; the
    model follows the call no further.
    [OutOfFuel]: a [while] loop of the source was still running when the
    fuel given to the model ran out. *)
Inductive result (A : Type) : Type :=
| Ok (a : A)
| Raise (e : exn)
| NonFinite
| OutOfFuel.

Arguments Ok {A} a.
Arguments Raise {A} e.
Arguments NonFinite {A}.
Arguments OutOfFuel {A}.

Definition bind {A B : Type} (m : result A) (k : A -> result B) : result B :=
  match m with
  | Ok a => k a
  | Raise e => Raise e
  | NonFinite => NonFinite
  | OutOfFuel => OutOfFuel
  end.

Notation "x <- m ;; k" := (bind m (fun x => k))
  (at level 61, m at next level, right associativity).
Notation "' pat <- m ;; k" := (bind m (fun x => match x with pat => k end))
  (at level 61, pat pattern, m at next level, right associativity).

Fixpoint mapM {A B : Type} (f : A -> result B) (l : list A) : result (list B) :=
  match l with
  | [] => Ok []
  | a :: tl => b <- f a ;; bs <- mapM f tl ;; Ok (b :: bs)
  end.

Definition is_ok {A : Type} (m : result A) : bool :=
  match m with Ok _ => true | _ => false end.

(** ** Comparisons and divisions *)

Definition Rleb (x y : R) : bool := if Rle_dec x y then true else false.
Definition Rltb (x y : R) : bool := if Rlt_dec x y then true else false.
Definition Reqb (x y : R) : bool := if Req_dec_T x y then true else false.

(** Python [x / y] on Python numbers. *)
Definition py_div (x y : R) : result R :=
  if Req_dec_T y 0 then Raise ZeroDivisionError else Ok (x / y).

(** NumPy [x / y]: a zero divisor gives [nan] or [inf] and a warning. *)
Definition np_div (x y : R) : result R :=
  if Req_dec_T y 0 then NonFinite else Ok (x / y).

(** ** Python sequences *)

(** [l[i]] for a Python list or a NumPy array, negative [i] counting from
    the end. *)
Definition py_index {A : Type} (l : list A) (i : Z) : result A :=
  let n := Z.of_nat (length l) in
  let j := if (i <? 0)%Z then (i + n)%Z else i in
  if ((0 <=? j) && (j <? n))%Z
  then match nth_error l (Z.to_nat j) with
       | Some a => Ok a
       | None => Raise IndexError
       end
  else Raise IndexError.

(** [l[-k:]] for [k >= 1]: the last [k] elements, all of [l] when it is
    shorter. *)
Definition py_slice_last {A : Type} (k : nat) (l : list A) : list A :=
  skipn (length l - k) l.

(** [np.argmin]: the first index of the least element; [ValueError] on an
    empty array. *)
Fixpoint argmin_from (best_i : nat) (best : R) (i : nat) (l : list R) : nat :=
  match l with
  | [] => best_i
  | x :: tl =>
      if Rlt_dec x best
      then argmin_from i x (S i) tl
      else argmin_from best_i best (S i) tl
  end.

Definition np_argmin (l : list R) : result nat :=
  match l with
  | [] => Raise ValueError
  | x :: tl => Ok (argmin_from 0%nat x 1%nat tl)
  end.

Definition np_sum (l : list R) : R := fold_right Rplus 0 l.

(** ** Geometry primitives *)

#[warning="-notation-for-abbreviation"]
Notation point := (R * R)%type.

Definition vsub (p q : point) : point := (fst p - fst q, snd p - snd q).
Definition np_dot (u v : point) : R := fst u * fst v + snd u * snd v.
Definition np_square (x : R) : R := x * x.
Definition np_linalg_norm (v : point) : R := sqrt (fst v * fst v + snd v * snd v).

Definition get_unit_vector (point_a point_b : point) : result point :=
  let der_x := fst point_b - fst point_a in
  let der_y := snd point_b - snd point_a in
  scale <- py_div 1 (sqrt (der_x ^ 2 + der_y ^ 2)) ;;
  Ok (der_x * scale, der_y * scale).

Definition get_dis_p2p (p p_ : point) : R :=
  sqrt (np_square (fst p - fst p_) + np_square (snd p - snd p_)).

Definition get_dis_batch (points : list point) (point_label : point) : list R :=
  map (fun p => sqrt (np_square (fst p - fst point_label)
                      + np_square (snd p - snd point_label))) points.

(** ** Reference path constructor *)

(** One pass of the densify loop: every point but the last is followed by
    the midpoint to its successor. *)
Fixpoint densify_once (reference_path : list point) : list point :=
  match reference_path with
  | [] => []
  | a :: tl =>
      match tl with
      | [] => [a]
      | b :: _ => a :: ((fst a + fst b) / 2, (snd a + snd b) / 2) :: densify_once tl
      end
  end.

(** [while len(reference_path) < 9]; a pass on the empty path raises at
    [reference_path[-1]]. *)
Fixpoint densify (fuel : nat) (reference_path : list point) : result (list point) :=
  if (9 <=? length reference_path)%nat then Ok reference_path
  else match fuel with
       | O => OutOfFuel
       | S fuel' =>
           match reference_path with
           | [] => Raise IndexError
           | _ => densify fuel' (densify_once reference_path)
           end
       end.

(** The radius of the filter, lines 217-230. *)
Definition filter_radius (labels reference_path : list point)
    (closest_point_idx : nat) (future_frame_num : Z) : result R :=
  l_last <- py_index labels (-1) ;;
  l_half <- py_index labels (- future_frame_num / 2) ;;
  l_first <- py_index labels 0 ;;
  p_last <- py_index reference_path (-1) ;;
  p_closest <- py_index reference_path (Z.of_nat closest_point_idx) ;;
  p_first <- py_index reference_path 0 ;;
  Ok (Rmax
        (Rmin
           (Rmin (Rmax 15 (get_dis_p2p l_last l_half))
                 (get_dis_p2p l_last l_first))
           (Rmax (get_dis_p2p p_last p_closest)
                 (get_dis_p2p p_first p_closest)))
        3).

(** [while i < len(labels) and get_dis_p2p(labels[-1-i], c) <= R: i += 1].
    The loop runs at most [len(labels)] times, which is the fuel
    [trailing_count] gives it. *)
Fixpoint trailing_loop (fuel : nat) (i : nat) (labels : list point)
    (c : point) (radius : R) : nat :=
  match fuel with
  | O => i
  | S fuel' =>
      if (i <? length labels)%nat
      then match py_index labels (-1 - Z.of_nat i) with
           | Ok p =>
               if Rle_dec (get_dis_p2p p c) radius
               then trailing_loop fuel' (S i) labels c radius
               else i
           | _ => i
           end
      else i
  end.

Definition trailing_count (labels : list point) (c : point) (radius : R) : nat :=
  trailing_loop (length labels) 0%nat labels c radius.

(** The [try]/[except] around the trajectory direction: [None] is
    [has_traj = False]. *)
Definition traj_direction_of (labels : list point) (future_frame_num : Z)
    : option point :=
  match (a <- py_index labels (-1) ;;
         b <- py_index labels (- future_frame_num / 3) ;;
         get_unit_vector a b) with
  | Ok d => Some d
  | _ => None
  end.

(** The splice step, lines 256-291. *)
Definition splice (reference_path : list point) (closest_point_idx : nat)
    (traj_segment : list point) (traj_direction : option point)
    : result (list point) :=
  p_closest <- py_index reference_path (Z.of_nat closest_point_idx) ;;
  p_first <- py_index reference_path 0 ;;
  p_last <- py_index reference_path (-1) ;;
  let start_dist := np_linalg_norm (vsub p_closest p_first) in
  let end_dist := np_linalg_norm (vsub p_closest p_last) in
  match traj_direction with
  | None => Ok reference_path
  | Some traj_direction =>
      if Rleb start_dist 1e-7 && Rleb end_dist 1e-7 then Ok reference_path
      else if Rleb start_dist 1e-7 then
        end_direction <- get_unit_vector p_closest p_last ;;
        if Rltb 0 (np_dot traj_direction end_direction)
        then Ok traj_segment
        else Ok (traj_segment ++ skipn closest_point_idx reference_path)
      else if Rleb end_dist 1e-7 then
        start_direction <- get_unit_vector p_closest p_first ;;
        if Rltb 0 (np_dot traj_direction start_direction)
        then Ok traj_segment
        else Ok (firstn closest_point_idx reference_path ++ rev traj_segment)
      else
        start_direction <- get_unit_vector p_closest p_first ;;
        end_direction <- get_unit_vector p_closest p_last ;;
        let start_hypo := np_dot traj_direction start_direction in
        let end_hypo := np_dot traj_direction end_direction in
        if Rleb (start_hypo * end_hypo) 0
           && negb (Rleb (Rabs start_hypo) 1e-7 && Rleb (Rabs end_hypo) 1e-7)
        then
          if Rltb start_hypo end_hypo
          then Ok (firstn closest_point_idx reference_path ++ rev traj_segment)
          else Ok (traj_segment ++ skipn closest_point_idx reference_path)
        else Ok reference_path
  end.

Definition construct_reference_path (fuel : nat) (labels reference_path : list point)
    (point_label : point) (future_frame_num : Z) : result (list point) :=
  reference_path <- densify fuel reference_path ;;
  closest_point_idx <- np_argmin (get_dis_batch reference_path point_label) ;;
  closest_point <- py_index reference_path (Z.of_nat closest_point_idx) ;;
  let reference_path :=
    map (fun p => vsub p (vsub closest_point point_label)) reference_path in
  radius <- filter_radius labels reference_path closest_point_idx future_frame_num ;;
  let reference_path :=
    filter (fun p => Rleb (get_dis_p2p p point_label) radius) reference_path in
  closest_point_idx <- np_argmin (get_dis_batch reference_path point_label) ;;
  p_closest <- py_index reference_path (Z.of_nat closest_point_idx) ;;
  let i := trailing_count labels p_closest radius in
  let i := Nat.max 0 (i - 1) in
  let traj_segment := py_slice_last (S i) labels in
  splice reference_path closest_point_idx traj_segment
         (traj_direction_of labels future_frame_num).

(** ** Inverse projection on the quadratic path *)

Record coeff : Type := mk_coeff {
  a_2 : R; a_1 : R; a_0 : R;
  b_2 : R; b_1 : R; b_0 : R
}.

Record complex : Type := mk_complex { re : R; im : R }.

(** [float('inf')] as the start value of a running minimum. *)
Inductive ext : Type :=
| Fin (r : R)
| Inf.

Definition ext_ltb (x : R) (bound : ext) : bool :=
  match bound with
  | Inf => true
  | Fin b => Rltb x b
  end.

(** The point of the quadratic path at parameter [t]. *)
Definition path_point (c : coeff) (t : R) : point :=
  (a_2 c * t ^ 2 + a_1 c * t + a_0 c, b_2 c * t ^ 2 + b_1 c * t + b_0 c).

(** [dist] of the loop of [inv_proj]: the squared distance. *)
Definition sq_dist (p q : point) : R :=
  (fst p - fst q) ^ 2 + (snd p - snd q) ^ 2.

Fixpoint inv_proj_loop (p : point) (c : coeff) (roots : list R)
    (t_hat : option R) (min_dist : ext) : option R :=
  match roots with
  | [] => t_hat
  | root :: tl =>
      let dist := sq_dist p (path_point c root) in
      if ext_ltb dist min_dist
      then inv_proj_loop p c tl (Some root) (Fin dist)
      else inv_proj_loop p c tl t_hat min_dist
  end.

(** The coefficients [c_3], [c_2], [c_1], [c_0] that [inv_proj] passes to
    [solve_cubic]. *)
Definition cubic_c_3 (c : coeff) : R := 4 * a_2 c ^ 2 + 4 * b_2 c ^ 2.

Definition cubic_c_2 (c : coeff) : R := 6 * a_1 c * a_2 c + 6 * b_1 c * b_2 c.

Definition cubic_c_1 (p : point) (c : coeff) : R :=
  -4 * a_2 c * fst p + 2 * a_1 c ^ 2 + 4 * a_0 c * a_2 c
  - 4 * b_2 c * snd p + 2 * b_1 c ^ 2 + 4 * b_0 c * b_2 c.

Definition cubic_c_0 (p : point) (c : coeff) : R :=
  -2 * a_1 c * fst p + 2 * a_0 c * a_1 c - 2 * b_1 c * snd p + 2 * b_0 c * b_1 c.

Record mapping : Type := mk_mapping {
  labels : list point;
  quadratic_path : option coeff
}.

Section Projection.

(** [np.roots] is NumPy's: any function from the coefficient list to a
    list of complex numbers. *)
Variable np_roots : list R -> list complex.

(** A root that passes [np.isreal] has imaginary part 0, and [inv_proj]
    computes with it as with its real part, which is what is kept. *)
Definition solve_cubic (c_3 c_2 c_1 c_0 : R) (range : R * R) : list R :=
  map re
    (filter (fun root => Reqb (im root) 0
                         && (Rleb (fst range) (re root) && Rleb (re root) (snd range)))
            (np_roots [c_3; c_2; c_1; c_0])).

(** The candidates of [inv_proj] after [roots.extend([0.0, 1.0])]. *)
Definition inv_proj_candidates (p : point) (c : coeff) : list R :=
  solve_cubic (cubic_c_3 c) (cubic_c_2 c) (cubic_c_1 p c) (cubic_c_0 p c) (0, 1)
  ++ [0; 1].

(** [t_hat ** 2] on [None] raises [TypeError]. *)
Definition inv_proj (p : point) (c : coeff) : result (R * point) :=
  match inv_proj_loop p c (inv_proj_candidates p c) None Inf with
  | None => Raise TypeError
  | Some t_hat => Ok (t_hat, path_point c t_hat)
  end.

(** ** Goal scoring and loss *)

(** Distance of a goal to its projection on the fitted path, [0.0]
    when no path was fit. *)
Definition traj_dist_of (goal : point) (m : mapping) : result R :=
  match quadratic_path m with
  | Some c => '(_, point_hat) <- inv_proj goal c ;; Ok (get_dis_p2p goal point_hat)
  | None => Ok 0
  end.

(** [max(v, -1e9)] returns the NumPy scalar [v] unless [-1e9 > v], when
    it returns the Python float, and only that one raises when divided
    by a zero [T]. *)
Definition get_dense_goal_targets (dense_goals : list point) (m : mapping)
    (T K1 K2 thres : R) : result (list R) :=
  ground_truth_goal <- py_index (labels m) (-1) ;;
  mapM (fun goal =>
          let goal_dist := get_dis_p2p goal ground_truth_goal in
          if Rle_dec goal_dist thres then
            traj_dist <- traj_dist_of goal m ;;
            let v := -0.5 * K1 * goal_dist ^ 2 - 0.5 * K2 * traj_dist ^ 2 in
            if Rlt_dec v (-1e9) then py_div (-1e9) T else np_div v T
          else py_div (-1e9) T)
       dense_goals.

(** The loop of [get_sse_prep]; [i] is the index of the head of
    [goals]. *)
Fixpoint sse_loop (goals : list point) (i : nat) (scores : list R)
    (mp : mapping) (ground_truth_goal : point) (m eps : R)
    (mo_idx : option nat) (mo_score : ext) : result (option nat) :=
  match goals with
  | [] => Ok mo_idx
  | goal :: tl =>
      let goal_dist := get_dis_p2p goal ground_truth_goal in
      score <- py_index scores (Z.of_nat i) ;;
      let bound := match mo_score with Inf => m | Fin s => Rmin s m end in
      if Rlt_dec score bound then
        traj_dist <- traj_dist_of goal mp ;;
        let dist := goal_dist + traj_dist in
        if Rle_dec eps dist
        then sse_loop tl (S i) scores mp ground_truth_goal m eps (Some i) (Fin score)
        else sse_loop tl (S i) scores mp ground_truth_goal m eps mo_idx mo_score
      else sse_loop tl (S i) scores mp ground_truth_goal m eps mo_idx mo_score
  end.

Definition get_sse_prep (dense_goals : list point) (dense_goal_scores : list R)
    (mp : mapping) (m eps : R) : result (nat * option nat) :=
  ground_truth_goal <- py_index (labels mp) (-1) ;;
  target_energy_idx <- np_argmin (get_dis_batch dense_goals ground_truth_goal) ;;
  mo_idx <- sse_loop dense_goals 0%nat dense_goal_scores mp ground_truth_goal
                     m eps None Inf ;;
  Ok (target_energy_idx, mo_idx).

End Projection.

Definition square_square_energy_loss_from_prep (dense_goal_scores : list R)
    (target_energy_idx : nat) (mo_idx : option nat) (m : R) : result R :=
  target_energy <- py_index dense_goal_scores (Z.of_nat target_energy_idx) ;;
  let margin := m in
  let loss := target_energy ^ 2 in
  match mo_idx with
  | Some mo_idx =>
      mo_target_energy <- py_index dense_goal_scores (Z.of_nat mo_idx) ;;
      if Rlt_dec mo_target_energy m
      then Ok (loss + (margin - mo_target_energy) ^ 2)
      else Ok loss
  | None => Ok loss
  end.

Definition square_square_energy_loss (np_roots : list R -> list complex)
    (dense_goals : list point) (dense_goal_scores : list R) (mp : mapping)
    (m eps : R) : result R :=
  '(target_energy_idx, mo_idx) <-
     get_sse_prep np_roots dense_goals dense_goal_scores mp m eps ;;
  square_square_energy_loss_from_prep dense_goal_scores target_energy_idx mo_idx m.

(** ** Goal lattice generator *)

(** A Python number with its run-time type: [round] accepts an [int] as
    its second argument and raises [TypeError] on a [float]. *)
Inductive pynum : Type :=
| PyInt (z : Z)
| PyFloat (r : R).

Definition py_value (v : pynum) : R :=
  match v with
  | PyInt z => IZR z
  | PyFloat r => r
  end.

(** [round(x)]: the nearest integer, ties to the even one. *)
Definition py_round (x : R) : Z :=
  let f := Int_part x in
  let r := x - IZR f in
  if Rlt_dec r (1 / 2) then f
  else if Rlt_dec (1 / 2) r then (f + 1)%Z
  else if Z.even f then f else (f + 1)%Z.

(** [round(x, ndigits)]: the nearest multiple of [10 ** -ndigits], ties to
    the even one. *)
Definition py_round_ndigits (x : R) (ndigits : pynum) : result R :=
  match ndigits with
  | PyInt d => Ok (IZR (py_round (x * powerRZ 10 d)) / powerRZ 10 d)
  | PyFloat _ => Raise TypeError
  end.

(** A [dict] used as an ordered set of keys: the keys in the order of
    their first insertion.  Keys are compared by value. *)
Definition key_eqb (p q : point) : bool :=
  Reqb (fst p) (fst q) && Reqb (snd p) (snd q).

Definition grid_set (grid : list point) (key : point) : list point :=
  if existsb (key_eqb key) grid then grid else grid ++ [key].

Definition get_hash_point (decimal : pynum) (p : point) : result point :=
  x <- py_round_ndigits (fst p) decimal ;;
  y <- py_round_ndigits (snd p) decimal ;;
  Ok (x, y).

Fixpoint remove_repeated_loop (points : list point) (decimal : pynum)
    (grid : list point) : result (list point) :=
  match points with
  | [] => Ok grid
  | each :: tl =>
      key <- get_hash_point decimal each ;;
      remove_repeated_loop tl decimal (grid_set grid key)
  end.

Definition get_points_remove_repeated (points : list point) (decimal : pynum)
    : result (list point) :=
  remove_repeated_loop points decimal [].

(** [while j < y + neighbour_dis + eps: grid[(i, j)] = True; j += density] *)
Fixpoint neighbour_loop_j (fuel : nat) (i j bound density : R)
    (grid : list point) : result (list point) :=
  match fuel with
  | O => OutOfFuel
  | S fuel' =>
      if Rlt_dec j bound
      then neighbour_loop_j fuel' i (j + density) bound density (grid_set grid (i, j))
      else Ok grid
  end.

(** [while i < x + neighbour_dis + eps: j = y - neighbour_dis; ...; i += density] *)
Fixpoint neighbour_loop_i (fuel : nat) (i bound_i j0 bound_j density : R)
    (grid : list point) : result (list point) :=
  match fuel with
  | O => OutOfFuel
  | S fuel' =>
      if Rlt_dec i bound_i
      then grid <- neighbour_loop_j fuel' i j0 bound_j density grid ;;
           neighbour_loop_i fuel' (i + density) bound_i j0 bound_j density grid
      else Ok grid
  end.

Fixpoint neighbour_points_loop (fuel : nat) (points : list point)
    (neighbour_dis density : R) (grid : list point) : result (list point) :=
  match points with
  | [] => Ok grid
  | p :: tl =>
      let eps := 1e-5 in
      let x := py_round (fst p) in
      let y := py_round (snd p) in
      if ((-100 <=? x) && (x <=? 100) && ((-100 <=? y) && (y <=? 100)))%Z
      then grid <- neighbour_loop_i fuel (IZR x - neighbour_dis)
                     (IZR x + neighbour_dis + eps)
                     (IZR y - neighbour_dis)
                     (IZR y + neighbour_dis + eps) density grid ;;
           neighbour_points_loop fuel tl neighbour_dis density grid
      else neighbour_points_loop fuel tl neighbour_dis density grid
  end.

(** [density] is both the step of the lattice and the second argument of
    [round] in [get_points_remove_repeated]. *)
Definition get_neighbour_points_new (fuel : nat) (points : list point)
    (neighbour_dis : R) (density : pynum) : result (list point) :=
  grid <- neighbour_points_loop fuel points neighbour_dis (py_value density) [] ;;
  get_points_remove_repeated grid density.

(** ** Multi-modal goal selector: centroid refinement *)

(** Row [i] of [dist]: the distances of goal [i] to the six centroids. *)
Definition fde_dist_row (centroids : list point) (goal : point) : result (list R) :=
  mapM (fun k => c <- py_index centroids (Z.of_nat k) ;; Ok (get_dis_p2p goal c))
       (seq 0 6).

(** [np.min] of a row. *)
Definition np_min (row : list R) : R :=
  match row with
  | [] => 0
  | x :: tl => fold_left Rmin tl x
  end.

(** The goals selected by [idx] for centroid [k], each with its weight. *)
Fixpoint fde_weights (k : nat) (radius : R) (i : nat) (goals : list point)
    (dist : list (list R)) (scores : list R) : result (list (point * R)) :=
  match goals, dist with
  | goal :: goals', row :: dist' =>
      let d := nth k row 0 in
      if Rle_dec d radius then
        s <- py_index scores (Z.of_nat i) ;;
        let w := s * (np_min row + 1e-7) / (d ^ 2 + 1e-7) in
        rest <- fde_weights k radius (S i) goals' dist' scores ;;
        Ok ((goal, w) :: rest)
      else fde_weights k radius (S i) goals' dist' scores
  | _, _ => Ok []
  end.

(** The divisor of the update of a centroid: [np.sum(weights)]. *)
Definition fde_divisor (selected : list (point * R)) : R :=
  np_sum (map snd selected).

(** [np.sum(goals[idx] * weights[:, None], axis=0) / np.sum(weights)] *)
Definition fde_centroid (selected : list (point * R)) : result point :=
  let sx := np_sum (map (fun gw => fst (fst gw) * snd gw) selected) in
  let sy := np_sum (map (fun gw => snd (fst gw) * snd gw) selected) in
  x <- np_div sx (fde_divisor selected) ;;
  y <- np_div sy (fde_divisor selected) ;;
  Ok (x, y).

(** [centroids[k] = v] *)
Fixpoint np_setitem {A : Type} (l : list A) (k : nat) (v : A) : result (list A) :=
  match l, k with
  | [], _ => Raise IndexError
  | _ :: tl, O => Ok (v :: tl)
  | a :: tl, S k' => tl' <- np_setitem tl k' v ;; Ok (a :: tl')
  end.

(** The loop [for k in range(6)] of one pass; [dist] is the matrix
    computed at the start of the pass. *)
Fixpoint fde_update (ks : list nat) (radius : R) (goals : list point)
    (dist : list (list R)) (scores : list R) (centroids : list point)
    : result (list point) :=
  match ks with
  | [] => Ok centroids
  | k :: ks' =>
      selected <- fde_weights k radius 0%nat goals dist scores ;;
      c <- fde_centroid selected ;;
      centroids <- np_setitem centroids k c ;;
      fde_update ks' radius goals dist scores centroids
  end.

Definition fde_pass (scores : list R) (goals centroids : list point) (radius : R)
    : result (list point) :=
  dist <- mapM (fde_dist_row centroids) goals ;;
  fde_update (seq 0 6) radius goals dist scores centroids.

(** [for _ in range(L)] *)
Fixpoint get_optimal_targets_home_FDE (scores : list R) (goals centroids : list point)
    (L : nat) (radius : R) : result (list point) :=
  match L with
  | O => Ok centroids
  | S L' =>
      centroids <- fde_pass scores goals centroids radius ;;
      get_optimal_targets_home_FDE scores goals centroids L' radius
  end.

(** ** Rotation and the normalizer *)

Definition rotate (x y angle : R) : point :=
  (x * cos angle - y * sin angle, x * sin angle + y * cos angle).

(** [Normalizer.__init__] *)
Record Normalizer : Type := mk_Normalizer {
  norm_x : R;
  norm_y : R;
  norm_yaw : R;
  norm_origin : point
}.

Definition Normalizer_init (x y yaw : R) : Normalizer :=
  mk_Normalizer x y yaw (rotate (0 - x) (0 - y) yaw).

(** The body of the loop over [point_list]. *)
Definition Normalizer_point (self : Normalizer) (reverse : bool) (p : point) : point :=
  if reverse
  then rotate (fst p - fst (norm_origin self)) (snd p - snd (norm_origin self))
              (- norm_yaw self)
  else rotate (fst p - norm_x self) (snd p - norm_y self) (norm_yaw self).

(** The dtype of [np.array(points)]: an array of floats, or an array of
    integers, into which a float is written truncated towards zero. *)
Inductive np_dtype : Type :=
| np_float
| np_int.

Definition np_trunc (v : R) : Z :=
  if Rle_dec 0 v then Int_part v else (- Int_part (- v))%Z.

Definition np_store (dtype : np_dtype) (v : R) : R :=
  match dtype with
  | np_float => v
  | np_int => IZR (np_trunc v)
  end.

(** [np.array(points)], the argument of [Normalizer.__call__], with its
    shape: [Arr1 v] has shape (len v,), [Arr2 cols rows] has shape
    (len rows, cols) and [Arr3 n cols blocks] has shape (len blocks, n, cols);
    [ArrOther] is an array of no dimension or of more than three.  A row is
    the list of its entries. *)
Inductive point_array : Type :=
| Arr1 (v : list R)
| Arr2 (cols : nat) (rows : list (list R))
| Arr3 (n cols : nat) (blocks : list (list (list R)))
| ArrOther.

(** The data of an array fill its shape. *)
Definition point_array_wf (points : point_array) : Prop :=
  match points with
  | Arr1 _ => True
  | Arr2 cols rows => Forall (fun r : list R => length r = cols) rows
  | Arr3 n cols blocks =>
      Forall (fun b : list (list R) =>
                length b = n /\ Forall (fun r : list R => length r = cols) b) blocks
  | ArrOther => True
  end.

(** [assert 1 <= len(points.shape) <= 3 and 2 <= points.shape[-1] <= 3] *)
Definition Normalizer_shape_ok (points : point_array) : bool :=
  match points with
  | Arr1 v => ((2 <=? length v) && (length v <=? 3))%nat
  | Arr2 cols _ => ((2 <=? cols) && (cols <=? 3))%nat
  | Arr3 _ cols _ => ((2 <=? cols) && (cols <=? 3))%nat
  | ArrOther => false
  end.

(** [point[0], point[1] = rotate(...)] on a row: the right-hand side reads
    [point[0]] and [point[1]] before anything is written, and the entries
    after the second one stay. *)
Definition Normalizer_row (self : Normalizer) (reverse : bool) (dtype : np_dtype)
    (row : list R) : result (list R) :=
  match row with
  | x :: y :: rest =>
      let p := Normalizer_point self reverse (x, y) in
      Ok (np_store dtype (fst p) :: np_store dtype (snd p) :: rest)
  | _ => Raise IndexError
  end.

(** [Normalizer.__call__] on an array of dtype [dtype]; [None] is the
    [AssertionError] of the shape check.  An array of shape (3,) passes the
    check and is then iterated entry by entry, and [point[0]] on an entry
    raises [IndexError].  In three dimensions every block goes through the
    call again, as an array of two dimensions with the same last dimension,
    and is written back. *)
Definition Normalizer_call (self : Normalizer) (dtype : np_dtype) (points : point_array)
    (reverse : bool) : option (result point_array) :=
  if Normalizer_shape_ok points then
    Some match points with
         | Arr1 v =>
             if (length v =? 2)%nat
             then v' <- Normalizer_row self reverse dtype v ;; Ok (Arr1 v')
             else Raise IndexError
         | Arr2 cols rows =>
             rows' <- mapM (Normalizer_row self reverse dtype) rows ;;
             Ok (Arr2 cols rows')
         | Arr3 n cols blocks =>
             blocks' <- mapM (mapM (Normalizer_row self reverse dtype)) blocks ;;
             Ok (Arr3 n cols blocks')
         | ArrOther => Raise IndexError
         end
  else None.

(** ** Distance to a segment and to a polyline *)

(** [np.cross] of two vectors of the plane. *)
Definition np_cross (u v : point) : R := fst u * snd v - snd u * fst v.

(** The last division is by a length that is at least 1e-7. *)
Definition get_dis_segment2point (segment : point * point) (p : point) : R :=
  let point_a := fst segment in
  let point_b := snd segment in
  if Rlt_dec (get_dis_p2p point_a point_b) 1e-7 then get_dis_p2p p point_a
  else if Rlt_dec (np_dot (vsub p point_a) (vsub point_b point_a)) 0
       then get_dis_p2p p point_a
  else if Rlt_dec (np_dot (vsub p point_b) (vsub point_a point_b)) 0
       then get_dis_p2p p point_b
  else Rabs (np_cross (vsub point_b point_a) (vsub p point_a))
       / get_dis_p2p point_a point_b.

(** [for i in range(len(polyline) - 1): dis = min(dis, ...)] *)
Fixpoint polyline_loop (polyline : list point) (p : point) (dis : R) : R :=
  match polyline with
  | [] => dis
  | a :: tl =>
      match tl with
      | [] => dis
      | b :: _ => polyline_loop tl p (Rmin dis (get_dis_segment2point (a, b) p))
      end
  end.

Definition get_dis_polyline2point (polyline : list point) (p : point) : R :=
  polyline_loop polyline p 1e9.

(** ** One-hot targets *)

Definition get_dense_goal_targets_one_hot (dense_goals : list point) (m : mapping)
    : result (list R) :=
  ground_truth_goal <- py_index (labels m) (-1) ;;
  idx <- np_argmin (get_dis_batch dense_goals ground_truth_goal) ;;
  np_setitem (repeat 0 (length dense_goals)) idx 1.

(** ** The integer lattice generator *)

(** [range(lo, hi)] *)
Definition py_range (lo hi : Z) : list Z :=
  map (fun k => (lo + Z.of_nat k)%Z) (seq 0 (Z.to_nat (hi - lo))).

Definition cell_eqb (p q : Z * Z) : bool :=
  ((fst p =? fst q) && (snd p =? snd q))%Z.

(** [grid[key] = 1] on a [dict] of integer pairs, kept as the list of its
    keys in the order of their first insertion. *)
Definition cell_set (grid : list (Z * Z)) (key : Z * Z) : list (Z * Z) :=
  if existsb (cell_eqb key) grid then grid else grid ++ [key].

(** [topk_ids] and [mapping] are not used by the source. *)
Definition get_neighbour_points (points : list point) (neighbour_dis : Z)
    : list (Z * Z) :=
  fold_left
    (fun grid p =>
       let x := py_round (fst p) in
       let y := py_round (snd p) in
       fold_left
         (fun grid i =>
            fold_left (fun grid j => cell_set grid (x + i, y + j)%Z)
                      (py_range (- neighbour_dis) (neighbour_dis + 1)) grid)
         (py_range (- neighbour_dis) (neighbour_dis + 1)) grid)
    points [].

(** ** Quadratic path fitter *)

(** [get_dis_p2p(p1, cand) < 1e-7 or get_dis_p2p(cand, p3) < 1e-7] *)
Definition is_not_valid (p1 p3 cand : point) : bool :=
  Rltb (get_dis_p2p p1 cand) 1e-7 || Rltb (get_dis_p2p cand p3) 1e-7.

(** The [while] loop that looks for another middle point; [rest] is
    [reference_path[idx:]]. *)
Fixpoint middle_scan (rest : list point) (p1 p3 cand_p2 : point) (not_valid : bool)
    : point :=
  match rest with
  | [] => cand_p2
  | c :: tl =>
      if not_valid then middle_scan tl p1 p3 c (is_not_valid p1 p3 c) else cand_p2
  end.

(** The Lagrange coefficients of [transform]; every one is a NumPy division
    by [t**2 - t]. *)
Definition transform (p1 p2 p3 : point) (t : R) : result coeff :=
  a2 <- np_div (fst p1 * t - fst p1 + fst p2 - fst p3 * t) (t ^ 2 - t) ;;
  a1 <- np_div (- fst p1 * t ^ 2 + fst p1 - fst p2 + fst p3 * t ^ 2) (t ^ 2 - t) ;;
  a0 <- np_div (fst p1 * t ^ 2 - fst p1 * t) (t ^ 2 - t) ;;
  b2 <- np_div (snd p1 * t - snd p1 + snd p2 - snd p3 * t) (t ^ 2 - t) ;;
  b1 <- np_div (- snd p1 * t ^ 2 + snd p1 - snd p2 + snd p3 * t ^ 2) (t ^ 2 - t) ;;
  b0 <- np_div (snd p1 * t ^ 2 - snd p1 * t) (t ^ 2 - t) ;;
  Ok (mk_coeff a2 a1 a0 b2 b1 b0).

Section Fitter.

(** [np.roots] and [scipy.optimize.minimize] are the libraries':
    [minimize f x0 lo hi] is [res.x] for the objective [f], the start [x0]
    and the bounds [(lo, hi)]. *)
Variable np_roots : list R -> list complex.
Variable minimize : (R -> result R) -> R -> R -> R -> R.

(** The loop of [LSE] over the points of the reference path. *)
Fixpoint LSE_loss (reference_path : list point) (c : coeff) (loss : R) : result R :=
  match reference_path with
  | [] => Ok loss
  | p :: tl =>
      '(t_hat, _) <- inv_proj np_roots p c ;;
      LSE_loss tl c
        (loss + ((a_2 c * t_hat ^ 2 + a_1 c * t_hat + a_0 c - fst p) ^ 2
                 + (b_2 c * t_hat ^ 2 + b_1 c * t_hat + b_0 c - snd p) ^ 2))
  end.

Definition LSE (reference_path : list point) (p1 p2 p3 : point) (t eta : R) : result R :=
  c <- transform p1 p2 p3 t ;;
  loss <- LSE_loss reference_path c 0 ;;
  Ok (loss + eta * sqrt (a_2 c ^ 2 + a_1 c ^ 2 + a_0 c ^ 2
                         + b_2 c ^ 2 + b_1 c ^ 2 + b_0 c ^ 2)).

(** [None] is the [return None] of a path without a usable middle point.
    The empty path raises in [get_dis_batch], at [points[:, 0]]. *)
Definition construct_quadratic_path (reference_path : list point) (point_label : point)
    : result (option coeff) :=
  match reference_path with
  | [] => Raise IndexError
  | _ :: _ =>
      closest_point_idx <- np_argmin (get_dis_batch reference_path point_label) ;;
      p1 <- py_index reference_path 0 ;;
      p2 <- py_index reference_path (Z.of_nat closest_point_idx) ;;
      p3 <- py_index reference_path (-1) ;;
      p2 <- (if is_not_valid p1 p3 p2
             then cand_p2 <- py_index reference_path 0 ;;
                  Ok (middle_scan reference_path p1 p3 cand_p2
                        (is_not_valid p1 p3 cand_p2))
             else Ok p2) ;;
      if is_not_valid p1 p3 p2 then Ok None
      else
        let res_x := minimize (fun t => LSE reference_path p1 p2 p3 t 0.1)
                              0.5 1e-7 (1 - 1e-7) in
        c <- transform p1 p2 p3 res_x ;;
        Ok (Some c)
  end.

End Fitter.

(** ** Multi-modal goal selector: mode seeking and the whole selection *)

(** [dist < R] for the distances of all goals to [goal]. *)
Definition mr_mask (goals : list point) (goal : point) (radius : R) : list bool :=
  map (fun d => Rltb d radius) (get_dis_batch goals goal).

(** [scores[mask].sum()] *)
Definition masked_sum (scores : list R) (mask : list bool) : R :=
  np_sum (map fst (filter snd (combine scores mask))).

(** The loop [for goal in goals] of one round; the state is [None] before
    the first goal ([best_score = -inf]), then the best centre, its score
    and its mask. *)
Fixpoint mr_scan (cands goals : list point) (scores : list R) (radius : R)
    (best : option (point * R * list bool)) : option (point * R * list bool) :=
  match cands with
  | [] => best
  | goal :: tl =>
      let mask := mr_mask goals goal radius in
      let integral := masked_sum scores mask in
      let better := match best with
                    | None => true
                    | Some (_, best_score, _) => Rltb best_score integral
                    end in
      mr_scan tl goals scores radius
              (if better then Some (goal, integral, mask) else best)
  end.

(** [scores[filter_idx] = 0.0] *)
Definition mr_suppress (scores : list R) (mask : list bool) : list R :=
  map (fun sb : R * bool => if snd sb then 0 else fst sb) (combine scores mask).

(** The rounds [for i in range(6)].  With no goal the centre stays [None]:
    [ans_points[i] = None] stores [nan] in the row and [scores[None] = 0.0]
    is an assignment to the whole array, so nothing is raised and the centre
    is not a number.  A boolean mask of another length than [scores] raises
    [IndexError]. *)
Fixpoint mr_rounds (n : nat) (scores : list R) (goals : list point) (radius : R)
    : result (list point) :=
  match n with
  | O => Ok []
  | S n' =>
      match goals with
      | [] => NonFinite
      | _ :: _ =>
          if Nat.eqb (length scores) (length goals) then
            match mr_scan goals goals scores radius None with
            | None => NonFinite
            | Some (best_center, _, filter_idx) =>
                rest <- mr_rounds n' (mr_suppress scores filter_idx) goals radius ;;
                Ok (best_center :: rest)
            end
          else Raise IndexError
      end
  end.

Definition get_optimal_targets_home_MR (scores : list R) (goals : list point)
    (radius : R) : result (list point) :=
  mr_rounds 6 scores goals radius.

(** The defaults [R=2.0] of the mode seeking and [L=4, R=3.0] of the
    refinement. *)
Definition get_optimal_targets_home (scores : list R) (goals : list point)
    : result (list point) :=
  centroids <- get_optimal_targets_home_MR scores goals 2 ;;
  get_optimal_targets_home_FDE scores goals centroids 4 3.

(** [np.exp(-scores / T) / sum(np.exp(-scores / T))] *)
Definition softmax_probs (scores : list R) (T : R) : result (list R) :=
  exps <- mapM (fun s => e <- np_div (- s) T ;; Ok (exp e)) scores ;;
  mapM (fun e => np_div e (np_sum exps)) exps.

Definition select_goals_by_optimization (scores : list (list R))
    (goals : list (list point)) (mappings : list mapping) (T : R)
    : result (list (list point) * list R) :=
  ans_points <-
    mapM (fun i =>
            s <- py_index scores (Z.of_nat i) ;;
            probs <- softmax_probs s T ;;
            g <- py_index goals (Z.of_nat i) ;;
            get_optimal_targets_home probs g)
         (seq 0 (length scores)) ;;
  min_FDE <-
    mapM (fun i =>
            ans <- py_index ans_points (Z.of_nat i) ;;
            mp <- py_index mappings (Z.of_nat i) ;;
            ground_truth <- py_index (labels mp) (-1) ;;
            Ok (np_min (get_dis_batch ans ground_truth)))
         (seq 0 (length scores)) ;;
  Ok (ans_points, min_FDE).


(** ** Padded batches *)

(** [l[:n]], a negative [n] counting from the end. *)
Definition py_slice_to {A : Type} (n : Z) (l : list A) : list A :=
  if (0 <=? n)%Z then firstn (Z.to_nat n) l
  else firstn (Z.to_nat (Z.of_nat (length l) + n)) l.

(** [max] of a list of integers: [ValueError] on the empty list. *)
Definition py_max (l : list Z) : result Z :=
  match l with
  | [] => Raise ValueError
  | x :: tl => Ok (fold_left Z.max tl x)
  end.

Section Merge.

(** A tensor of shape [n, hidden_size] is the list of its [n] rows;
    [zero_row] is the row of [hidden_size] zeros. *)
Variable row : Type.
Variable zero_row : row.

(** The second loop of [merge_tensors]: [res[i][:tensor.shape[0]] = tensor]. *)
Fixpoint merge_loop (tensors : list (option (list row))) (res : list (list row))
    : list (list row) :=
  match tensors, res with
  | tensor :: tensors', r :: res' =>
      match tensor with
      | Some t => t ++ skipn (length t) r
      | None => r
      end :: merge_loop tensors' res'
  | _, _ => res
  end.

Definition merge_tensors (tensors : list (option (list row)))
    : result (list (list row) * list Z) :=
  let lengths :=
    map (fun tensor : option (list row) =>
           match tensor with
           | Some t => Z.of_nat (length t)
           | None => 0%Z
           end) tensors in
  max_length <- py_max lengths ;;
  let res := repeat (repeat zero_row (Z.to_nat max_length)) (length tensors) in
  Ok (merge_loop tensors res, lengths).

Definition de_merge_tensors (tensor : list (list row)) (lengths : list Z)
    : result (list (list row)) :=
  mapM (fun i : nat =>
          n <- py_index lengths (Z.of_nat i) ;;
          r <- py_index tensor (Z.of_nat i) ;;
          Ok (py_slice_to n r))
       (seq 0 (length lengths)).

End Merge.


(** ** Subdividing a polygon *)

Definition get_kth_point (point_a point_b : point) (ratio : R) : point :=
  (fst point_a * (1 - ratio) + fst point_b * ratio,
   snd point_a * (1 - ratio) + snd point_b * ratio).

(** The first loop of [get_subdivide_points], after its first point. *)
Fixpoint subdivide_sum (average_dis : R) (point_pre : point) (polygon : list point) : R :=
  match polygon with
  | [] => average_dis
  | point :: tl => subdivide_sum (average_dis + get_dis_p2p point point_pre) point tl
  end.

(** [average_dis /= len(polygon) - 1]: on a polygon of one point the
    integer [0] is divided by the integer [0]. *)
Definition subdivide_average (polygon : list point) : result R :=
  match polygon with
  | [] => Ok (0 / -1)
  | point :: tl =>
      match tl with
      | [] => Raise ZeroDivisionError
      | _ => Ok (subdivide_sum 0 point tl / INR (length polygon - 1))
      end
  end.

(** [while average_dis / divide_num > threshold: divide_num += 1] *)
Fixpoint divide_loop (fuel : nat) (average_dis threshold : R) (divide_num : nat)
    : result nat :=
  if Rlt_dec threshold (average_dis / INR divide_num) then
    match fuel with
    | O => OutOfFuel
    | S fuel' => divide_loop fuel' average_dis threshold (S divide_num)
    end
  else Ok divide_num.

(** [for k in range(1, divide_num)] *)
Fixpoint subdivide_ks (ks : list nat) (divide_num : nat) (return_unit_vectors : bool)
    (point_pre point_ : point) (points unit_vectors : list point)
    : result (list point * list point) :=
  match ks with
  | [] => Ok (points, unit_vectors)
  | k :: ks' =>
      let points :=
        points ++ [get_kth_point point_pre point_ (INR k / INR divide_num)] in
      if return_unit_vectors then
        u <- get_unit_vector point_pre point_ ;;
        subdivide_ks ks' divide_num return_unit_vectors point_pre point_
          points (unit_vectors ++ [u])
      else
        subdivide_ks ks' divide_num return_unit_vectors point_pre point_
          points unit_vectors
  end.

(** The second loop over the polygon; [point_pre] is [None] at its first
    point. *)
Fixpoint subdivide_loop (polygon : list point) (point_pre : option point)
    (divide_num : nat) (include : bool) (return_unit_vectors : bool)
    (points unit_vectors : list point) : result (list point * list point) :=
  match polygon with
  | [] => Ok (points, unit_vectors)
  | point_ :: tl =>
      ' (points, unit_vectors) <-
        match point_pre with
        | Some pre =>
            subdivide_ks (seq 1 (divide_num - 1)) divide_num return_unit_vectors
              pre point_ points unit_vectors
        | None => Ok (points, unit_vectors)
        end ;;
      let points := if include then points ++ [point_] else points in
      subdivide_loop tl (Some point_) divide_num include return_unit_vectors
        points unit_vectors
  end.

(** [for k in range(-2, 3): if k != 0: ...], at the point of index [i]. *)
Definition beside_points (i : nat) (point_pre point_ der : point) (points_ : list point)
    : list point :=
  fold_left
    (fun (points_ : list point) (k : Z) =>
       if (k =? 0)%Z then points_
       else
         let points_ :=
           points_ ++ [(fst point_ + IZR k * fst der, snd point_ + IZR k * snd der)] in
         if (i =? 1)%nat
         then points_ ++ [(fst point_pre + IZR k * fst der,
                           snd point_pre + IZR k * snd der)]
         else points_)
    [-2; -1; 0; 1; 2]%Z points_.

(** The loop of [include_beside], after the first point. *)
Fixpoint beside_loop (points : list point) (i : nat) (point_pre : point)
    (points_ : list point) : result (list point) :=
  match points with
  | [] => Ok points_
  | point_ :: tl =>
      let der_x := fst point_ - fst point_pre in
      let der_y := snd point_ - snd point_pre in
      scale <- py_div 1 (sqrt (der_x ^ 2 + der_y ^ 2)) ;;
      let der := rotate (der_x * scale) (der_y * scale) (PI / 2) in
      beside_loop tl (S i) point_ (beside_points i point_pre point_ der points_)
  end.

(** [None] is the [AssertionError] of the flags.  With
    [return_unit_vectors] the second component is the list of unit vectors. *)
Definition get_subdivide_points (fuel : nat) (polygon : list point) (include_self : bool)
    (threshold : R) (include_beside return_unit_vectors : bool)
    : option (result (list point * option (list point))) :=
  match subdivide_average polygon with
  | Ok average_dis =>
      if return_unit_vectors && (include_self || include_beside) then None
      else
        Some (divide_num <- divide_loop fuel average_dis threshold 1 ;;
              ' (points, unit_vectors) <-
                subdivide_loop polygon None divide_num (include_self || include_beside)
                  return_unit_vectors [] [] ;;
              points <-
                (if include_beside then
                   points_ <- match points with
                              | [] => Ok []
                              | point_ :: tl => beside_loop tl 1 point_ []
                              end ;;
                   Ok (points ++ points_)
                 else Ok points) ;;
              Ok (points, if return_unit_vectors then Some unit_vectors else None))
  | Raise e => Some (Raise e)
  | NonFinite => Some NonFinite
  | OutOfFuel => Some OutOfFuel
  end.

(** ** Predicates of the statements *)

(** The distance of a goal to the fitted path that the targets and the
    loss preparation use. *)
Definition is_traj_dist (np_roots : list R -> list complex) (goal : point)
    (m : mapping) (traj_dist : R) : Prop :=
  (quadratic_path m = None /\ traj_dist = 0) \/
  (exists (c : coeff) (t : R),
      quadratic_path m = Some c /\
      inv_proj np_roots goal c = Ok (t, path_point c t) /\
      traj_dist = get_dis_p2p goal (path_point c t)).

(** A point whose rounded coordinates lie in [-100, 100]. *)
Definition in_lattice_range (p : point) : Prop :=
  (-100 <= py_round (fst p) <= 100)%Z /\ (-100 <= py_round (snd p) <= 100)%Z.

(** A key of the grid: a pair of rounded coordinates. *)
Definition is_key (d : Z) (k : point) : Prop :=
  exists p : point, get_hash_point (PyInt d) p = Ok k.

(** The point of the segment from [a] to [b] at parameter [t]. *)
Definition segment_point (a b : point) (t : R) : point :=
  (fst a + t * (fst b - fst a), snd a + t * (snd b - snd a)).

(** Goal [j], of score [score], can be the most offending one: its score
    is below the margin and its distance to the ground truth plus its
    distance to the path is at least [eps]. *)
Definition sse_eligible (np_roots : list R -> list complex) (goals : list point)
    (scores : list R) (mp : mapping) (g : point) (m eps : R) (j : nat) (score : R)
    : Prop :=
  exists (goal : point) (traj_dist : R),
    nth_error goals j = Some goal /\
    nth_error scores j = Some score /\
    score < m /\
    traj_dist_of np_roots goal mp = Ok traj_dist /\
    eps <= get_dis_p2p goal g + traj_dist.

(** [mo] is the choice of [get_sse_prep] among the goals of index below
    [n]: nothing when none is eligible, else the first eligible goal of
    least score. *)
Definition sse_choice (np_roots : list R -> list complex) (goals : list point)
    (scores : list R) (mp : mapping) (g : point) (m eps : R) (n : nat)
    (mo : option nat) : Prop :=
  match mo with
  | None =>
      forall (j : nat) (s : R),
        (j < n)%nat -> ~ sse_eligible np_roots goals scores mp g m eps j s
  | Some j =>
      (j < n)%nat /\
      exists s : R,
        sse_eligible np_roots goals scores mp g m eps j s /\
        forall (j' : nat) (s' : R),
          (j' < n)%nat -> sse_eligible np_roots goals scores mp g m eps j' s' ->
          s <= s' /\ ((j' < j)%nat -> s < s')
  end.

(** A point that can serve as middle point of the fit: at least 1e-7 from
    both ends of the path. *)
Definition usable_middle (p1 p3 c : point) : Prop :=
  1e-7 <= get_dis_p2p p1 c /\ 1e-7 <= get_dis_p2p c p3.

(** The sum of the scores of the goals closer than [radius] to [goal], the
    quantity the mode seeking compares. *)
Definition window_sum (scores : list R) (goals : list point) (radius : R)
    (goal : point) : R :=
  masked_sum scores (mr_mask goals goal radius).

(** Each of the six centroids has a goal within [radius] of it. *)
Definition centroids_covered (goals : list point) (radius : R) (centroids : list point)
    : Prop :=
  (6 <= length centroids)%nat /\
  forall (k : nat) (c : point),
    (k < 6)%nat -> nth_error centroids k = Some c ->
    exists goal : point, In goal goals /\ get_dis_p2p goal c <= radius.


(** The pairs of consecutive points of a polygon. *)
Definition consecutive (polygon : list point) : list (point * point) :=
  combine polygon (tl polygon).

(** The points that divide the segment from [a] to [b] into [n] equal
    parts, [b] included at the end with [include]. *)
Definition segment_division (n : nat) (include : bool) (ab : point * point) : list point :=
  map (fun k : nat => get_kth_point (fst ab) (snd ab) (INR k / INR n)) (seq 1 (n - 1))
  ++ (if include then [snd ab] else []).

(** Every segment of the polygon divided into [n] equal parts; with
    [include] the points of the polygon are kept, in their places. *)
Definition subdivided (polygon : list point) (n : nat) (include : bool) : list point :=
  (if include then firstn 1 polygon else [])
  ++ flat_map (segment_division n include) (consecutive polygon).


(** A list that follows [pre] without two equal neighbours, and one with
    two equal neighbours. *)
Fixpoint no_repeat (pre : point) (l : list point) : Prop :=
  match l with
  | [] => True
  | p :: tl => pre <> p /\ no_repeat p tl
  end.

Fixpoint has_repeat (pre : point) (l : list point) : Prop :=
  match l with
  | [] => False
  | p :: tl => pre = p \/ has_repeat p tl
  end.

(** The point [k] times [der] away from [p]. *)
Definition beside_offset (p der : point) (k : Z) : point :=
  (fst p + IZR k * fst der, snd p + IZR k * snd der).

(** The sum of the scores of the goals closer than [radius] to [goal]. *)
Definition score_within (scores : list R) (goals : list point) (radius : R)
    (goal : point) : R :=
  np_sum (map snd (filter (fun gs : point * R => Rltb (get_dis_p2p (fst gs) goal) radius)
                          (combine goals scores))).

(** The scores with those of the goals closer than [radius] to [c] set to
    zero. *)
Definition suppress_within (scores : list R) (goals : list point) (radius : R)
    (c : point) : list R :=
  map (fun gs : point * R => if Rltb (get_dis_p2p (fst gs) c) radius then 0 else snd gs)
      (combine goals scores).

(** Centres chosen one after the other: each is a goal of greatest sum of
    scores within [radius], for the scores left by the centres before it. *)
Fixpoint greedy_modes (scores : list R) (goals : list point) (radius : R)
    (centres : list point) : Prop :=
  match centres with
  | [] => True
  | c :: rest =>
      In c goals /\
      (forall g : point,
          In g goals ->
          score_within scores goals radius g <= score_within scores goals radius c) /\
      greedy_modes (suppress_within scores goals radius c) goals radius rest
  end.

(** The weight of a goal of score [score] in the update of the centroid
    [c]: the score times the distance to the closest of the six centroids,
    over the squared distance to [c], both with 1e-7 added. *)
Definition fde_weight (centroids : list point) (c goal : point) (score : R) : R :=
  score * (np_min (map (fun c' : point => get_dis_p2p goal c') (firstn 6 centroids)) + 1e-7)
  / (get_dis_p2p goal c ^ 2 + 1e-7).

(** The goals within [radius] of the centroid [c], each with its weight. *)
Definition goals_within (radius : R) (centroids : list point) (c : point)
    (goals : list point) (scores : list R) : list (point * R) :=
  map (fun gs : point * R => (fst gs, fde_weight centroids c (fst gs) (snd gs)))
      (filter (fun gs : point * R => Rleb (get_dis_p2p (fst gs) c) radius)
              (combine goals scores)).

(** The sum of the weights of a selection, and the mean of its goals with
    these weights. *)
Definition weight_sum (selected : list (point * R)) : R :=
  np_sum (map snd selected).

Definition weighted_mean (selected : list (point * R)) : point :=
  (np_sum (map (fun gw : point * R => fst (fst gw) * snd gw) selected) / weight_sum selected,
   np_sum (map (fun gw : point * R => snd (fst gw) * snd gw) selected) / weight_sum selected).

(** * Properties *)

(** ** Comparisons *)

Lemma Rleb_true (x y : R) : Rleb x y = true <-> x <= y.
Proof. unfold Rleb; destruct (Rle_dec x y); split; intros; congruence || lra. Qed.

Lemma Rleb_false (x y : R) : Rleb x y = false <-> y < x.
Proof. unfold Rleb; destruct (Rle_dec x y); split; intros; congruence || lra. Qed.

Lemma Rltb_true (x y : R) : Rltb x y = true <-> x < y.
Proof. unfold Rltb; destruct (Rlt_dec x y); split; intros; congruence || lra. Qed.

Lemma Rltb_false (x y : R) : Rltb x y = false <-> y <= x.
Proof. unfold Rltb; destruct (Rlt_dec x y); split; intros; congruence || lra. Qed.

Lemma Reqb_true (x y : R) : Reqb x y = true <-> x = y.
Proof. unfold Reqb; destruct (Req_dec_T x y); split; intros; congruence. Qed.

Lemma Reqb_refl (x : R) : Reqb x x = true.
Proof. apply Reqb_true; reflexivity. Qed.

(** ** Distances *)

Lemma sum_squares_nonneg (x y : R) : 0 <= x * x + y * y.
Proof. nra. Qed.

Lemma sum_squares_zero (x y : R) : x * x + y * y = 0 -> x = 0 /\ y = 0.
Proof. intros H; split; nra. Qed.

Lemma get_dis_p2p_nonneg (p q : point) : 0 <= get_dis_p2p p q.
Proof. unfold get_dis_p2p; apply sqrt_pos. Qed.

Lemma get_dis_p2p_refl (p : point) : get_dis_p2p p p = 0.
Proof.
  unfold get_dis_p2p, np_square.
  replace ((fst p - fst p) * (fst p - fst p) + (snd p - snd p) * (snd p - snd p))
    with 0 by ring.
  apply sqrt_0.
Qed.

Lemma get_dis_p2p_zero (p q : point) : get_dis_p2p p q = 0 -> p = q.
Proof.
  unfold get_dis_p2p, np_square; intros H.
  apply sqrt_eq_0 in H; [|apply sum_squares_nonneg].
  apply sum_squares_zero in H; destruct H as [Hx Hy].
  destruct p, q; simpl in *; f_equal; lra.
Qed.

Lemma np_linalg_norm_vsub (p q : point) : np_linalg_norm (vsub p q) = get_dis_p2p p q.
Proof. reflexivity. Qed.

(** ** Unit vectors *)

Lemma get_unit_vector_ok (a b : point) :
  a <> b ->
  get_unit_vector a b
  = Ok ((fst b - fst a) * (1 / get_dis_p2p b a), (snd b - snd a) * (1 / get_dis_p2p b a)).
Proof.
  intros Hab; unfold get_unit_vector, py_div, get_dis_p2p, np_square.
  replace ((fst b - fst a) ^ 2 + (snd b - snd a) ^ 2)
    with ((fst b - fst a) * (fst b - fst a) + (snd b - snd a) * (snd b - snd a)) by ring.
  destruct (Req_dec_T _ 0) as [Hz|Hz]; [|reflexivity].
  exfalso; apply Hab; symmetry.
  apply get_dis_p2p_zero; exact Hz.
Qed.

Lemma get_unit_vector_same (a : point) : get_unit_vector a a = Raise ZeroDivisionError.
Proof.
  unfold get_unit_vector, py_div.
  replace ((fst a - fst a) ^ 2 + (snd a - snd a) ^ 2) with 0 by ring.
  rewrite sqrt_0.
  destruct (Req_dec_T 0 0); [reflexivity | congruence].
Qed.

(** C9. [get_unit_vector a b] raises [ZeroDivisionError] exactly when
    [a = b]; for distinct points it returns the vector from [a] to [b]
    divided by its length, a vector of length 1. *)
Theorem get_unit_vector_spec (a b : point) :
  (get_unit_vector a b = Raise ZeroDivisionError <-> a = b) /\
  (a <> b ->
   exists u : point,
     get_unit_vector a b = Ok u /\
     0 < get_dis_p2p a b /\
     fst u = (fst b - fst a) / get_dis_p2p a b /\
     snd u = (snd b - snd a) / get_dis_p2p a b /\
     fst u * fst u + snd u * snd u = 1).
Proof.
  assert (Hsym : get_dis_p2p b a = get_dis_p2p a b).
  { unfold get_dis_p2p, np_square; f_equal; ring. }
  split.
  - split.
    + intros H. destruct (Req_dec_T (fst a) (fst b)) as [Hx|Hx];
        [destruct (Req_dec_T (snd a) (snd b)) as [Hy|Hy]|].
      * destruct a, b; simpl in *; congruence.
      * rewrite get_unit_vector_ok in H by congruence. discriminate.
      * rewrite get_unit_vector_ok in H by congruence. discriminate.
    + intros ->. apply get_unit_vector_same.
  - intros Hab.
    assert (Hpos : 0 < get_dis_p2p a b).
    { destruct (get_dis_p2p_nonneg a b) as [Hlt|Heq]; [exact Hlt|].
      exfalso; apply Hab; apply get_dis_p2p_zero; congruence. }
    eexists; split; [apply get_unit_vector_ok; exact Hab|].
    rewrite Hsym. simpl.
    split; [exact Hpos|].
    split; [field; lra|].
    split; [field; lra|].
    assert (Hsq : get_dis_p2p a b * get_dis_p2p a b
                  = (fst b - fst a) * (fst b - fst a) + (snd b - snd a) * (snd b - snd a)).
    { unfold get_dis_p2p, np_square. rewrite sqrt_sqrt by apply sum_squares_nonneg. ring. }
    set (d := get_dis_p2p a b) in *.
    replace ((fst b - fst a) * (1 / d) * ((fst b - fst a) * (1 / d))
             + (snd b - snd a) * (1 / d) * ((snd b - snd a) * (1 / d)))
      with (((fst b - fst a) * (fst b - fst a) + (snd b - snd a) * (snd b - snd a)) / (d * d))
      by (field; lra).
    rewrite <- Hsq. field; lra.
Qed.

Lemma get_unit_vector_spec_witness :
  exists u : point,
    get_unit_vector (0, 0) (3, 4) = Ok u /\
    0 < get_dis_p2p (0, 0) (3, 4) /\
    fst u = (fst (3, 4) - fst (0, 0)) / get_dis_p2p (0, 0) (3, 4) /\
    snd u = (snd (3, 4) - snd (0, 0)) / get_dis_p2p (0, 0) (3, 4) /\
    fst u * fst u + snd u * snd u = 1.
Proof.
  apply (get_unit_vector_spec (0, 0) (3, 4)).
  intros H. injection H. lra.
Defined.

(** ** Inverse projection *)

Section ProjectionFacts.

Variable np_roots : list R -> list complex.

Lemma solve_cubic_spec (c_3 c_2 c_1 c_0 lo hi s : R) :
  In s (solve_cubic np_roots c_3 c_2 c_1 c_0 (lo, hi)) <->
  exists z : complex,
    In z (np_roots [c_3; c_2; c_1; c_0]) /\ im z = 0 /\ lo <= re z <= hi /\ s = re z.
Proof.
  unfold solve_cubic; rewrite in_map_iff; simpl; split.
  - intros (z & Hs & Hz). apply filter_In in Hz. destruct Hz as [Hin Hb].
    apply andb_true_iff in Hb; destruct Hb as [Hre Hb].
    apply andb_true_iff in Hb; destruct Hb as [Hlo Hhi].
    apply Reqb_true in Hre. apply Rleb_true in Hlo. apply Rleb_true in Hhi.
    exists z; auto.
  - intros (z & Hin & Him & [Hlo Hhi] & ->).
    exists z; split; [reflexivity|].
    apply filter_In; split; [exact Hin|].
    rewrite Him, Reqb_refl; simpl.
    apply andb_true_iff; split; apply Rleb_true; assumption.
Qed.

Lemma inv_proj_candidates_spec (p : point) (c : coeff) (s : R) :
  In s (inv_proj_candidates np_roots p c) <->
  s = 0 \/ s = 1 \/
  In s (solve_cubic np_roots (cubic_c_3 c) (cubic_c_2 c) (cubic_c_1 p c)
          (cubic_c_0 p c) (0, 1)).
Proof.
  unfold inv_proj_candidates; rewrite in_app_iff; simpl; intuition.
Qed.

Lemma inv_proj_candidates_range (p : point) (c : coeff) (s : R) :
  In s (inv_proj_candidates np_roots p c) -> 0 <= s <= 1.
Proof.
  intros H; apply inv_proj_candidates_spec in H.
  destruct H as [-> | [-> | H]]; try lra.
  apply solve_cubic_spec in H. destruct H as (z & _ & _ & Hr & ->). exact Hr.
Qed.

End ProjectionFacts.

(** The loop keeps the first candidate of least squared distance. *)
Lemma inv_proj_loop_running (p : point) (c : coeff) (roots : list R) (t : R) :
  exists t' : R,
    inv_proj_loop p c roots (Some t) (Fin (sq_dist p (path_point c t))) = Some t' /\
    (t' = t \/ In t' roots) /\
    sq_dist p (path_point c t') <= sq_dist p (path_point c t) /\
    (forall s : R, In s roots -> sq_dist p (path_point c t') <= sq_dist p (path_point c s)).
Proof.
  revert t; induction roots as [|root tl IH]; intros t; simpl.
  - exists t; repeat split; auto; try lra. intros s [].
  - unfold Rltb. destruct (Rlt_dec _ _) as [Hlt|Hge].
    + destruct (IH root) as (t' & Heq & Hin & Hle & Hmin).
      exists t'; split; [exact Heq|].
      split; [right; destruct Hin as [->|Hin]; simpl; auto|]. split; [lra|].
      intros s [<-|Hs]; [exact Hle | apply Hmin; exact Hs].
    + destruct (IH t) as (t' & Heq & Hin & Hle & Hmin).
      exists t'; split; [exact Heq|].
      split; [destruct Hin as [->|Hin]; simpl; auto|]. split; [exact Hle|].
      intros s [<-|Hs]; [lra | apply Hmin; exact Hs].
Qed.

Lemma inv_proj_loop_start (p : point) (c : coeff) (root : R) (tl : list R) :
  exists t : R,
    inv_proj_loop p c (root :: tl) None Inf = Some t /\
    In t (root :: tl) /\
    (forall s : R, In s (root :: tl) ->
                   sq_dist p (path_point c t) <= sq_dist p (path_point c s)).
Proof.
  simpl inv_proj_loop.
  destruct (inv_proj_loop_running p c tl root) as (t & Heq & Hin & Hle & Hmin).
  exists t; split; [exact Heq|]. split; [simpl; intuition|].
  intros s [<-|Hs]; [exact Hle | apply Hmin; exact Hs].
Qed.

Lemma inv_proj_returns (np_roots : list R -> list complex) (p : point) (c : coeff) :
  exists t : R,
    inv_proj np_roots p c = Ok (t, path_point c t) /\
    In t (inv_proj_candidates np_roots p c) /\
    (forall s : R, In s (inv_proj_candidates np_roots p c) ->
                   sq_dist p (path_point c t) <= sq_dist p (path_point c s)).
Proof.
  assert (Hne : exists root tl, inv_proj_candidates np_roots p c = root :: tl).
  { unfold inv_proj_candidates.
    destruct (solve_cubic _ _ _ _ _ _) as [|r tl]; simpl; eauto. }
  destruct Hne as (root & tl & Hc).
  destruct (inv_proj_loop_start p c root tl) as (t & Heq & Hin & Hmin).
  rewrite <- Hc in Heq, Hin, Hmin.
  exists t. split; [unfold inv_proj; rewrite Heq; reflexivity|].
  split; assumption.
Qed.

(** C1. For every solver, path and query point, [inv_proj] returns a
    parameter [t] with the path point at [t]; [t] lies in [[0,1]], is one of
    the candidates (the real roots in [[0,1]] of the solver, then 0 and 1)
    and has the least squared distance among them; when the solver gives no
    real root in [[0,1]], [t] is the better of the two boundary values. *)
Theorem inv_proj_minimizes (np_roots : list R -> list complex) (p : point) (c : coeff) :
  exists t : R,
    inv_proj np_roots p c = Ok (t, path_point c t) /\
    0 <= t <= 1 /\
    In t (inv_proj_candidates np_roots p c) /\
    (forall s : R,
        s = 0 \/ s = 1 \/
        (exists z : complex,
            In z (np_roots [cubic_c_3 c; cubic_c_2 c; cubic_c_1 p c; cubic_c_0 p c])
            /\ im z = 0 /\ 0 <= re z <= 1 /\ s = re z) ->
        sq_dist p (path_point c t) <= sq_dist p (path_point c s)) /\
    ((forall z : complex,
         In z (np_roots [cubic_c_3 c; cubic_c_2 c; cubic_c_1 p c; cubic_c_0 p c]) ->
         ~ (im z = 0 /\ 0 <= re z <= 1)) ->
     (t = 0 \/ t = 1) /\
     sq_dist p (path_point c t)
     = Rmin (sq_dist p (path_point c 0)) (sq_dist p (path_point c 1))).
Proof.
  destruct (inv_proj_returns np_roots p c) as (t & Heq & Hin & Hmin).
  assert (Hall : forall s : R,
             s = 0 \/ s = 1 \/
             (exists z : complex,
                 In z (np_roots [cubic_c_3 c; cubic_c_2 c; cubic_c_1 p c; cubic_c_0 p c])
                 /\ im z = 0 /\ 0 <= re z <= 1 /\ s = re z) ->
             sq_dist p (path_point c t) <= sq_dist p (path_point c s)).
  { intros s Hs. apply Hmin. apply inv_proj_candidates_spec.
    destruct Hs as [Hs|[Hs|Hs]]; auto.
    right; right. apply solve_cubic_spec. exact Hs. }
  exists t. split; [exact Heq|].
  split; [eapply inv_proj_candidates_range; exact Hin|].
  split; [exact Hin|].
  split; [exact Hall|].
  intros Hnone.
  assert (Hb : t = 0 \/ t = 1).
  { apply inv_proj_candidates_spec in Hin. destruct Hin as [H|[H|H]]; auto.
    apply solve_cubic_spec in H. destruct H as (z & Hz & Him & Hr & _).
    exfalso; exact (Hnone z Hz (conj Him Hr)). }
  split; [exact Hb|].
  pose proof (Hall 0 (or_introl eq_refl)) as H0.
  pose proof (Hall 1 (or_intror (or_introl eq_refl))) as H1.
  unfold Rmin; destruct (Rle_dec _ _); destruct Hb as [-> | ->]; lra.
Qed.

Lemma inv_proj_minimizes_witness :
  exists t : R,
    inv_proj (fun _ => []) (0, 0) (mk_coeff 0 1 1 0 0 0)
    = Ok (t, path_point (mk_coeff 0 1 1 0 0 0) t) /\
    (t = 0 \/ t = 1).
Proof.
  destruct (inv_proj_minimizes (fun _ => []) (0, 0) (mk_coeff 0 1 1 0 0 0))
    as (t & Heq & _ & _ & _ & Hnone).
  exists t; split; [exact Heq|].
  apply Hnone. intros z Hz. simpl in Hz. contradiction.
Defined.

(** ** Indexing *)

Lemma py_index_nat {A : Type} (l : list A) (i : nat) :
  py_index l (Z.of_nat i)
  = match nth_error l i with Some a => Ok a | None => Raise IndexError end.
Proof.
  unfold py_index.
  destruct (Z.ltb_spec (Z.of_nat i) 0) as [Hneg|_]; [lia|].
  destruct (Z.leb_spec 0 (Z.of_nat i)) as [_|Hneg]; [|lia].
  rewrite Nat2Z.id. simpl.
  destruct (Z.ltb_spec (Z.of_nat i) (Z.of_nat (length l))) as [Hlt|Hge].
  - reflexivity.
  - destruct (nth_error l i) eqn:E; [|reflexivity].
    assert (i < length l)%nat by (apply nth_error_Some; congruence). lia.
Qed.

Lemma py_index_from_end {A : Type} (l : list A) (k : nat) :
  (1 <= k <= length l)%nat ->
  py_index l (- Z.of_nat k)
  = match nth_error l (length l - k) with Some a => Ok a | None => Raise IndexError end.
Proof.
  intros Hk. unfold py_index.
  destruct (Z.ltb_spec (- Z.of_nat k) 0) as [_|Hge]; [|lia].
  replace (- Z.of_nat k + Z.of_nat (length l))%Z with (Z.of_nat (length l - k)) by lia.
  rewrite Nat2Z.id.
  destruct (Z.leb_spec 0 (Z.of_nat (length l - k))) as [_|Hneg]; [|lia].
  destruct (Z.ltb_spec (Z.of_nat (length l - k)) (Z.of_nat (length l))) as [_|Hge]; [|lia].
  reflexivity.
Qed.

Lemma py_index_last_ok {A : Type} (l : list A) :
  l <> [] -> exists a : A, py_index l (-1) = Ok a /\ In a l.
Proof.
  intros Hl.
  assert (Hlen : (1 <= length l)%nat) by (destruct l; [congruence | simpl; lia]).
  change (-1)%Z with (- Z.of_nat 1)%Z.
  rewrite py_index_from_end by lia.
  destruct (nth_error l (length l - 1)) eqn:E.
  - exists a; split; [reflexivity | eapply nth_error_In; exact E].
  - apply nth_error_None in E. lia.
Qed.

Lemma py_index_In {A : Type} (l : list A) (i : Z) (a : A) :
  py_index l i = Ok a -> In a l.
Proof.
  unfold py_index. destruct (_ && _)%bool; [|discriminate].
  destruct (nth_error l _) eqn:E; [|discriminate].
  intros H; injection H as <-. eapply nth_error_In; exact E.
Qed.

Lemma mapM_Forall2 {A B : Type} (f : A -> result B) (P : A -> B -> Prop) (l : list A) :
  (forall a : A, In a l -> exists b : B, f a = Ok b /\ P a b) ->
  exists bs : list B, mapM f l = Ok bs /\ Forall2 P l bs.
Proof.
  induction l as [|a tl IH]; intros H; simpl.
  - exists []; split; [reflexivity | constructor].
  - destruct (H a (or_introl eq_refl)) as (b & Hb & HP).
    destruct IH as (bs & Hbs & HF); [intros a' Ha'; apply H; right; exact Ha'|].
    exists (b :: bs); rewrite Hb, Hbs; split; [reflexivity | constructor; assumption].
Qed.

(** ** Soft targets *)

Lemma traj_dist_of_total (np_roots : list R -> list complex) (goal : point) (m : mapping) :
  exists d : R, traj_dist_of np_roots goal m = Ok d /\ is_traj_dist np_roots goal m d /\ 0 <= d.
Proof.
  unfold traj_dist_of, is_traj_dist. destruct (quadratic_path m) as [c|].
  - destruct (inv_proj_returns np_roots goal c) as (t & Heq & _).
    rewrite Heq; simpl. eexists; split; [reflexivity|].
    split; [right; exists c, t; auto | apply get_dis_p2p_nonneg].
  - exists 0; split; [reflexivity|]. split; [left; auto | lra].
Qed.

(** C5. With a ground-truth goal [g] (the last label) and a non-zero [T],
    [get_dense_goal_targets] returns one target per lattice goal: for a
    goal at distance at most [thres] from [g] the target is
    [max(-0.5*K1*goal_dist^2 - 0.5*K2*traj_dist^2, -1e9) / T], where
    [traj_dist] is the distance of the goal to its projection on the
    quadratic path and 0 when there is no path; for a goal farther than
    [thres] it is [-1e9 / T]. *)
Theorem get_dense_goal_targets_spec (np_roots : list R -> list complex)
    (dense_goals : list point) (m : mapping) (T K1 K2 thres : R) (g : point) :
  T <> 0 ->
  py_index (labels m) (-1) = Ok g ->
  exists targets : list R,
    get_dense_goal_targets np_roots dense_goals m T K1 K2 thres = Ok targets /\
    Forall2
      (fun (goal : point) (target : R) =>
         (get_dis_p2p goal g <= thres ->
          exists traj_dist : R,
            is_traj_dist np_roots goal m traj_dist /\
            target = Rmax (-0.5 * K1 * get_dis_p2p goal g ^ 2 - 0.5 * K2 * traj_dist ^ 2)
                          (-1e9) / T) /\
         (thres < get_dis_p2p goal g -> target = -1e9 / T))
      dense_goals targets.
Proof.
  intros HT Hg. unfold get_dense_goal_targets. rewrite Hg; cbn [bind].
  apply mapM_Forall2. intros goal _.
  destruct (Rle_dec (get_dis_p2p goal g) thres) as [Hle|Hgt].
  - destruct (traj_dist_of_total np_roots goal m) as (d & Hd & His & _).
    rewrite Hd; cbn [bind].
    set (v := -0.5 * K1 * get_dis_p2p goal g ^ 2 - 0.5 * K2 * d ^ 2).
    assert (Hres : (if Rlt_dec v (-1e9) then py_div (-1e9) T else np_div v T)
                   = Ok (Rmax v (-1e9) / T)).
    { unfold py_div, np_div, Rmax.
      destruct (Rlt_dec v (-1e9)); destruct (Req_dec_T T 0); try contradiction;
        destruct (Rle_dec v (-1e9)); try reflexivity; try lra.
      replace v with (-1e9) by lra. reflexivity. }
    rewrite Hres. eexists; split; [reflexivity|].
    split; [|intros; lra].
    intros _. exists d; split; [exact His | reflexivity].
  - unfold py_div. destruct (Req_dec_T T 0); [contradiction|].
    eexists; split; [reflexivity|].
    split; [intros; lra | reflexivity].
Qed.

Lemma get_dense_goal_targets_spec_witness :
  exists targets : list R,
    get_dense_goal_targets (fun _ => []) [(0, 0); (100, 0)]
      (mk_mapping [(0, 0)] None) 50 1 2 15 = Ok targets /\
    length targets = 2%nat.
Proof.
  assert (HT : 50 <> 0) by lra.
  destruct (get_dense_goal_targets_spec (fun _ => []) [(0, 0); (100, 0)]
              (mk_mapping [(0, 0)] None) 50 1 2 15 (0, 0) HT eq_refl)
    as (targets & Heq & HF).
  exists targets; split; [exact Heq|].
  symmetry; exact (Forall2_length HF).
Defined.

(** ** Square-square energy loss *)

Lemma loss_from_prep_value (scores : list R) (t : nat) (mo : option nat) (m l : R) :
  square_square_energy_loss_from_prep scores t mo m = Ok l ->
  exists s : R,
    nth_error scores t = Some s /\
    ((mo = None /\ l = s ^ 2) \/
     (exists (j : nat) (e : R),
         mo = Some j /\ nth_error scores j = Some e /\
         ((e < m /\ l = s ^ 2 + (m - e) ^ 2) \/ (m <= e /\ l = s ^ 2)))).
Proof.
  unfold square_square_energy_loss_from_prep. rewrite py_index_nat.
  destruct (nth_error scores t) as [s|]; [|discriminate]. cbn [bind].
  intros H. exists s; split; [reflexivity|].
  destruct mo as [j|].
  - rewrite py_index_nat in H.
    destruct (nth_error scores j) as [e|] eqn:E; [|discriminate]. cbn [bind] in H.
    right; exists j, e. split; [reflexivity|]. split; [exact E|].
    destruct (Rlt_dec e m); injection H as <-; [left | right]; split; auto; lra.
  - injection H as <-. left; auto.
Qed.

Lemma loss_from_prep_nonneg (scores : list R) (t : nat) (mo : option nat) (m l : R) :
  square_square_energy_loss_from_prep scores t mo m = Ok l -> 0 <= l.
Proof.
  intros H. apply loss_from_prep_value in H.
  destruct H as (s & _ & [[_ ->] | (j & e & _ & _ & [[_ ->] | [_ ->]])]);
    pose proof (pow2_ge_0 s); try pose proof (pow2_ge_0 (m - e)); lra.
Qed.

(** C6, the claim as stated fails: with the single score -2 the loss is 4,
    with the larger score -1 it is 1. *)
Lemma loss_decreases_on_negative_target :
  square_square_energy_loss_from_prep [-2] 0 None 10 = Ok 4 /\
  square_square_energy_loss_from_prep [-1] 0 None 10 = Ok 1 /\
  -2 < -1 /\ ~ (4 < 1).
Proof.
  unfold square_square_energy_loss_from_prep. rewrite !py_index_nat. cbn [nth_error bind].
  split; [f_equal; lra|]. split; [f_equal; lra|]. split; lra.
Qed.

(** C6, amended.  The loss is non-negative for all scores and indices,
    from the prepared indices and from [get_sse_prep]'s; and between two
    score arrays that differ only at the target index, where the target
    scores are non-negative and the offending index is absent or another
    index, the array with the larger target score has the strictly larger
    loss. *)
Theorem square_square_energy_loss_properties (scores : list R) (t : nat)
    (mo : option nat) (m : R) :
  (forall l : R, square_square_energy_loss_from_prep scores t mo m = Ok l -> 0 <= l) /\
  (forall (np_roots : list R -> list complex) (dense_goals : list point)
          (mp : mapping) (eps l : R),
      square_square_energy_loss np_roots dense_goals scores mp m eps = Ok l -> 0 <= l) /\
  (forall (scores' : list R) (s s' : R),
      length scores' = length scores ->
      (forall j : nat, j <> t -> nth_error scores' j = nth_error scores j) ->
      nth_error scores t = Some s ->
      nth_error scores' t = Some s' ->
      (forall j : nat, mo = Some j -> j <> t /\ (j < length scores)%nat) ->
      0 <= s < s' ->
      exists l l' : R,
        square_square_energy_loss_from_prep scores t mo m = Ok l /\
        square_square_energy_loss_from_prep scores' t mo m = Ok l' /\
        l < l').
Proof.
  split; [intros l; apply loss_from_prep_nonneg|].
  split.
  - intros np_roots dense_goals mp eps l. unfold square_square_energy_loss.
    destruct (get_sse_prep _ _ _ _ _ _) as [[ti mi]| | |]; try discriminate.
    cbn [bind]. apply loss_from_prep_nonneg.
  - intros scores' s s' Hlen Hsame Hs Hs' Hmo Hss.
    unfold square_square_energy_loss_from_prep. rewrite !py_index_nat, Hs, Hs'.
    cbn [bind]. destruct mo as [j|].
    + destruct (Hmo j eq_refl) as [Hjt Hj].
      rewrite !py_index_nat, (Hsame j Hjt).
      destruct (nth_error scores j) as [e|] eqn:E;
        [|apply nth_error_None in E; lia].
      cbn [bind]. destruct (Rlt_dec e m); do 2 eexists;
        (split; [reflexivity|]); (split; [reflexivity|]); nra.
    + do 2 eexists. split; [reflexivity|]. split; [reflexivity|]. nra.
Qed.

Lemma square_square_energy_loss_properties_witness :
  exists l l' : R,
    square_square_energy_loss_from_prep [1; 3] 0 (Some 1%nat) 10 = Ok l /\
    square_square_energy_loss_from_prep [2; 3] 0 (Some 1%nat) 10 = Ok l' /\
    l < l' /\ 0 <= l.
Proof.
  destruct (square_square_energy_loss_properties [1; 3] 0 (Some 1%nat) 10)
    as (Hnn & _ & Hmono).
  destruct (Hmono [2; 3] 1 2) as (l & l' & Hl & Hl' & Hlt).
  - reflexivity.
  - intros [|[|j]] Hj; [congruence | reflexivity | reflexivity].
  - reflexivity.
  - reflexivity.
  - intros j Hj; injection Hj as <-. split; [discriminate | simpl; lia].
  - lra.
  - exists l, l'. repeat split; try assumption. apply Hnn; exact Hl.
Defined.

(** ** Centroid refinement *)

Lemma get_dis_p2p_le_sq (p q : point) (r : R) :
  get_dis_p2p p q <= r ->
  (fst p - fst q) * (fst p - fst q) + (snd p - snd q) * (snd p - snd q) <= r * r.
Proof.
  intros H. pose proof (get_dis_p2p_nonneg p q) as Hnn.
  unfold get_dis_p2p, np_square in *.
  rewrite <- (sqrt_sqrt _ (sum_squares_nonneg (fst p - fst q) (snd p - snd q))).
  nra.
Qed.

Lemma fde_centroid_spec (selected : list (point * R)) :
  (fde_divisor selected = 0 -> fde_centroid selected = NonFinite) /\
  (fde_divisor selected <> 0 ->
   fde_centroid selected
   = Ok (np_sum (map (fun gw => fst (fst gw) * snd gw) selected) / fde_divisor selected,
         np_sum (map (fun gw => snd (fst gw) * snd gw) selected) / fde_divisor selected)).
Proof.
  unfold fde_centroid, np_div.
  destruct (Req_dec_T (fde_divisor selected) 0) as [Hz|Hnz]; split; intros H;
    try contradiction; reflexivity.
Qed.

Lemma fde_centroid_no_raise (selected : list (point * R)) :
  fde_centroid selected = NonFinite \/ exists c : point, fde_centroid selected = Ok c.
Proof.
  destruct (fde_centroid_spec selected) as [Hz Hnz].
  destruct (Req_dec_T (fde_divisor selected) 0) as [H|H]; [left; auto | right; eauto].
Qed.

Lemma fde_dist_row_ok (centroids : list point) (goal : point) :
  (6 <= length centroids)%nat ->
  fde_dist_row centroids goal
  = Ok (map (fun c => get_dis_p2p goal c) (firstn 6 centroids)).
Proof.
  intros Hlen.
  do 6 (destruct centroids as [|? centroids]; [simpl in Hlen; lia|]).
  unfold fde_dist_row. cbn [seq mapM]. rewrite !py_index_nat.
  reflexivity.
Qed.

Lemma fde_dist_ok (centroids goals : list point) :
  (6 <= length centroids)%nat ->
  mapM (fde_dist_row centroids) goals
  = Ok (map (fun goal => map (fun c => get_dis_p2p goal c) (firstn 6 centroids)) goals).
Proof.
  intros Hlen. induction goals as [|goal tl IH]; [reflexivity|].
  cbn [mapM map]. rewrite fde_dist_row_ok, IH by exact Hlen. reflexivity.
Qed.

Lemma fde_row_nth (centroids : list point) (goal c : point) (k : nat) :
  nth_error centroids k = Some c -> (k < 6)%nat ->
  nth k (map (fun c => get_dis_p2p goal c) (firstn 6 centroids)) 0 = get_dis_p2p goal c.
Proof.
  intros Hk Hlt.
  assert (Hn : nth_error (map (fun c => get_dis_p2p goal c) (firstn 6 centroids)) k
               = Some (get_dis_p2p goal c)).
  { rewrite nth_error_map, nth_error_firstn.
    destruct (Nat.ltb_spec k 6); [|lia]. rewrite Hk. reflexivity. }
  apply nth_error_nth with (d := 0) in Hn. exact Hn.
Qed.

(** The goals that [idx] selects, with scores for all goals: no
    [IndexError], and weight 0 wherever the score is 0. *)
Lemma fde_weights_ok (k : nat) (radius : R) (goals : list point) (f : point -> list R)
    (scores : list R) (i : nat) :
  (i + length goals <= length scores)%nat ->
  exists selected : list (point * R),
    fde_weights k radius i goals (map f goals) scores = Ok selected /\
    ((forall (j : nat) (goal : point) (s : R),
         nth_error goals j = Some goal -> nth_error scores (i + j) = Some s ->
         nth k (f goal) 0 <= radius -> s = 0) ->
     fde_divisor selected = 0).
Proof.
  revert i; induction goals as [|goal tl IH]; intros i Hlen.
  - exists []; split; [reflexivity|]. intros _; reflexivity.
  - cbn [map fde_weights]. simpl length in Hlen.
    destruct (IH (S i)) as (sel & Hsel & Hz); [lia|].
    assert (Hz' : (forall (j : nat) (goal0 : point) (s : R),
                      nth_error (goal :: tl) j = Some goal0 ->
                      nth_error scores (i + j) = Some s ->
                      nth k (f goal0) 0 <= radius -> s = 0) ->
                  fde_divisor sel = 0).
    { intros H. apply Hz. intros j g s Hg Hs Hd.
      apply (H (S j) g s); [exact Hg | rewrite Nat.add_succ_r; exact Hs | exact Hd]. }
    destruct (Rle_dec (nth k (f goal) 0) radius) as [Hin|Hout].
    + rewrite py_index_nat.
      destruct (nth_error scores i) as [s|] eqn:E;
        [|apply nth_error_None in E; lia].
      cbn [bind]. rewrite Hsel. cbn [bind].
      eexists; split; [reflexivity|].
      intros H. unfold fde_divisor in *. cbn [map snd np_sum fold_right].
      fold (np_sum (map snd sel)). rewrite (Hz' H).
      rewrite (H 0%nat goal s eq_refl); [| rewrite Nat.add_0_r; exact E | exact Hin].
      unfold Rdiv. ring.
    + exists sel; split; [exact Hsel | exact Hz'].
Qed.

Lemma np_setitem_ok {A : Type} (l : list A) (k : nat) (v : A) :
  (k < length l)%nat ->
  exists l' : list A, np_setitem l k v = Ok l' /\ length l' = length l.
Proof.
  revert k; induction l as [|a tl IH]; intros k Hk; [simpl in Hk; lia|].
  destruct k as [|k]; simpl.
  - eexists; split; reflexivity.
  - destruct (IH k) as (l' & Hl' & Hlen); [simpl in Hk; lia|].
    rewrite Hl'. simpl. eexists; split; [reflexivity | simpl; congruence].
Qed.

(** A pass over the centroids [ks] ends [NonFinite] when the divisor of
    one of them is zero: no earlier update raises. *)
Lemma fde_update_nonfinite (ks : list nat) (radius : R) (goals : list point)
    (f : point -> list R) (scores : list R) (centroids : list point) (k : nat) :
  In k ks ->
  (forall k' : nat, In k' ks -> (k' < length centroids)%nat) ->
  (length goals <= length scores)%nat ->
  (forall (j : nat) (goal : point) (s : R),
      nth_error goals j = Some goal -> nth_error scores j = Some s ->
      nth k (f goal) 0 <= radius -> s = 0) ->
  fde_update ks radius goals (map f goals) scores centroids = NonFinite.
Proof.
  revert centroids; induction ks as [|k0 ks IH]; intros centroids Hin Hks Hlen Hzero;
    [contradiction|].
  cbn [fde_update].
  destruct (fde_weights_ok k0 radius goals f scores 0) as (sel & Hsel & Hdiv);
    [simpl; lia|].
  rewrite Hsel. cbn [bind].
  destruct (Nat.eq_dec k0 k) as [->|Hne].
  - destruct (fde_centroid_spec sel) as [Hz _].
    rewrite Hz; [reflexivity|]. apply Hdiv. exact Hzero.
  - destruct (fde_centroid_no_raise sel) as [Hnf|[c Hc]]; [rewrite Hnf; reflexivity|].
    rewrite Hc. cbn [bind].
    destruct (np_setitem_ok centroids k0 c) as (cs' & Hcs' & Hlen');
      [apply Hks; left; reflexivity|].
    rewrite Hcs'. cbn [bind]. apply IH.
    + destruct Hin as [Heq|Hin]; [congruence | exact Hin].
    + intros k' Hk'. rewrite Hlen'. apply Hks; right; exact Hk'.
    + exact Hlen.
    + exact Hzero.
Qed.

(** ** Reference path: densification *)

Lemma densify_once_length (p : list point) :
  p <> [] -> (length (densify_once p) = 2 * length p - 1)%nat.
Proof.
  induction p as [|a tl IH]; [congruence|]. intros _.
  destruct tl as [|b tl']; [reflexivity|].
  change (densify_once (a :: b :: tl'))
    with (a :: ((fst a + fst b) / 2, (snd a + snd b) / 2) :: densify_once (b :: tl')).
  simpl length in *. rewrite IH by congruence. lia.
Qed.

Lemma densify_enough_fuel (fuel : nat) (p : list point) :
  (2 <= length p)%nat ->
  (9 <= (length p - 1) * 2 ^ fuel + 1)%nat ->
  exists q : list point, densify fuel p = Ok q /\ (9 <= length q)%nat.
Proof.
  revert p; induction fuel as [|fuel IH]; intros p Hlen Hfuel.
  - simpl in Hfuel. exists p. unfold densify.
    destruct (Nat.leb_spec 9 (length p)); [split; [reflexivity | lia] | lia].
  - cbn [densify]. destruct (Nat.leb_spec 9 (length p)) as [H9|H9].
    + exists p; split; [reflexivity | exact H9].
    + destruct p as [|a tl] eqn:Ep; [simpl in Hlen; lia|].
      rewrite <- Ep in *.
      assert (Hnil : p <> []) by (rewrite Ep; discriminate).
      pose proof (densify_once_length p Hnil) as Hl.
      apply IH; [lia|].
      replace (length (densify_once p) - 1)%nat with (2 * (length p - 1))%nat by lia.
      rewrite Nat.pow_succ_r' in Hfuel. lia.
Qed.

Lemma densify_valid (fuel : nat) (p : list point) :
  (3 <= fuel)%nat -> (2 <= length p)%nat ->
  exists q : list point, densify fuel p = Ok q /\ (9 <= length q)%nat.
Proof.
  intros Hfuel Hlen. apply densify_enough_fuel; [exact Hlen|].
  assert (H8 : (2 ^ 3 <= 2 ^ fuel)%nat) by (apply Nat.pow_le_mono_r; lia).
  change (2 ^ 3)%nat with 8%nat in H8. nia.
Qed.

Lemma densify_single (fuel : nat) (a : point) : densify fuel [a] = OutOfFuel.
Proof. induction fuel as [|fuel IH]; [reflexivity | exact IH]. Qed.

Lemma densify_empty (fuel : nat) : densify (S fuel) [] = Raise IndexError.
Proof. reflexivity. Qed.

(** The part of C8 that holds: on the empty reference path the call raises
    [IndexError], at [reference_path[-1]] in the first densify pass. *)
Lemma construct_reference_path_empty (fuel : nat) (labels : list point)
    (point_label : point) (future_frame_num : Z) :
  construct_reference_path (S fuel) labels [] point_label future_frame_num
  = Raise IndexError.
Proof. reflexivity. Qed.

(** C8, the code at a reference path of one point: the densify loop maps a
    path of length 1 to a path of length 1, so it never reaches 9 points;
    whatever the fuel, the call is still in that loop and raises nothing. *)
Theorem construct_reference_path_single_point (fuel : nat) (labels : list point)
    (a point_label : point) (future_frame_num : Z) :
  construct_reference_path fuel labels [a] point_label future_frame_num = OutOfFuel.
Proof.
  unfold construct_reference_path. rewrite densify_single. reflexivity.
Qed.

(** ** Reference path: the splice step *)

Lemma sqrt_gt_const (c x : R) : 0 <= c -> c * c < x -> c < sqrt x.
Proof.
  intros Hc Hx. rewrite <- (sqrt_square c Hc) at 1.
  apply sqrt_lt_1_alt. split; [nra | exact Hx].
Qed.

Lemma sqrt_le_const (c x : R) : 0 <= c -> x <= c * c -> sqrt x <= c.
Proof.
  intros Hc Hx. rewrite <- (sqrt_square c Hc).
  apply sqrt_le_1_alt. exact Hx.
Qed.

Lemma sqrt_value (c x : R) : 0 <= c -> x = c * c -> sqrt x = c.
Proof. intros Hc ->. apply sqrt_square; exact Hc. Qed.

Lemma get_dis_p2p_pos_neq (p q : point) (r : R) :
  0 <= r -> r < get_dis_p2p p q -> p <> q.
Proof.
  intros Hr Hlt ->. rewrite get_dis_p2p_refl in Hlt. lra.
Qed.

(** Decide the comparisons of real constants that block a computation. *)
Ltac decide_R :=
  repeat match goal with
    | |- context [Rcase_abs ?a] => destruct (Rcase_abs a); [try (exfalso; lra)|try (exfalso; lra)]
    | |- context [Rle_dec ?a ?b] => destruct (Rle_dec a b); [try (exfalso; lra)|try (exfalso; lra)]
    | |- context [Rlt_dec ?a ?b] => destruct (Rlt_dec a b); [try (exfalso; lra)|try (exfalso; lra)]
    | |- context [Req_dec_T ?a ?b] => destruct (Req_dec_T a b); [try (exfalso; lra)|try (exfalso; lra)]
    end.

(** The interior case of the splice, with the two unit vectors named. *)
Lemma splice_interior_step (reference_path traj_segment : list point) (idx : nat)
    (d p_closest p_first p_last sd ed : point) :
  py_index reference_path (Z.of_nat idx) = Ok p_closest ->
  py_index reference_path 0 = Ok p_first ->
  py_index reference_path (-1) = Ok p_last ->
  1e-7 < get_dis_p2p p_closest p_first ->
  1e-7 < get_dis_p2p p_closest p_last ->
  get_unit_vector p_closest p_first = Ok sd ->
  get_unit_vector p_closest p_last = Ok ed ->
  splice reference_path idx traj_segment (Some d)
  = if Rleb (np_dot d sd * np_dot d ed) 0
       && negb (Rleb (Rabs (np_dot d sd)) 1e-7 && Rleb (Rabs (np_dot d ed)) 1e-7)
    then if Rltb (np_dot d sd) (np_dot d ed)
         then Ok (firstn idx reference_path ++ rev traj_segment)
         else Ok (traj_segment ++ skipn idx reference_path)
    else Ok reference_path.
Proof.
  intros Hc Hf Hl Hs He Hus Hue.
  unfold splice. rewrite Hc, Hf, Hl. cbn [bind].
  rewrite !np_linalg_norm_vsub.
  assert (Hsf : Rleb (get_dis_p2p p_closest p_first) 1e-7 = false)
    by (apply Rleb_false; exact Hs).
  assert (Hef : Rleb (get_dis_p2p p_closest p_last) 1e-7 = false)
    by (apply Rleb_false; exact He).
  rewrite Hsf, Hef. cbn [andb]. rewrite Hus, Hue. cbn [bind]. reflexivity.
Qed.

(** C4, amended.  With a trajectory direction [d] and the closest point
    farther than 1e-7 from both ends of the path, the splice replaces one
    side of the path exactly when the product of the two dot products is at
    most 0 and they are not both of absolute value at most 1e-7: the part
    from the closest point on when [start_hypo < end_hypo], the part before
    it otherwise.  In every other such case the path is returned as it
    is. *)
Theorem splice_interior (reference_path traj_segment : list point) (idx : nat)
    (d p_closest p_first p_last : point) :
  py_index reference_path (Z.of_nat idx) = Ok p_closest ->
  py_index reference_path 0 = Ok p_first ->
  py_index reference_path (-1) = Ok p_last ->
  1e-7 < get_dis_p2p p_closest p_first ->
  1e-7 < get_dis_p2p p_closest p_last ->
  exists start_direction end_direction : point,
    get_unit_vector p_closest p_first = Ok start_direction /\
    get_unit_vector p_closest p_last = Ok end_direction /\
    let start_hypo := np_dot d start_direction in
    let end_hypo := np_dot d end_direction in
    let replace := start_hypo * end_hypo <= 0
                   /\ ~ (Rabs start_hypo <= 1e-7 /\ Rabs end_hypo <= 1e-7) in
    (replace -> start_hypo < end_hypo ->
     splice reference_path idx traj_segment (Some d)
     = Ok (firstn idx reference_path ++ rev traj_segment)) /\
    (replace -> end_hypo <= start_hypo ->
     splice reference_path idx traj_segment (Some d)
     = Ok (traj_segment ++ skipn idx reference_path)) /\
    (~ replace ->
     splice reference_path idx traj_segment (Some d) = Ok reference_path).
Proof.
  intros Hc Hf Hl Hs He.
  assert (Hcf : p_closest <> p_first) by (eapply get_dis_p2p_pos_neq; [|exact Hs]; lra).
  assert (Hcl : p_closest <> p_last) by (eapply get_dis_p2p_pos_neq; [|exact He]; lra).
  pose proof (get_unit_vector_ok _ _ Hcf) as Hus.
  pose proof (get_unit_vector_ok _ _ Hcl) as Hue.
  do 2 eexists. split; [exact Hus|]. split; [exact Hue|].
  set (sd := (_, _)) in Hus |- *. set (ed := (_, _)) in Hue |- *.
  cbv zeta.
  assert (Hstep := splice_interior_step reference_path traj_segment idx d
                      p_closest p_first p_last sd ed Hc Hf Hl Hs He Hus Hue).
  rewrite Hstep. clear Hstep.
  set (sh := np_dot d sd). set (eh := np_dot d ed).
  split; [|split].
  - intros [Hprod Hneg] Hlt.
    assert (H1 : Rleb (sh * eh) 0 = true) by (apply Rleb_true; exact Hprod).
    assert (H2 : Rleb (Rabs sh) 1e-7 && Rleb (Rabs eh) 1e-7 = false).
    { apply not_true_is_false. intros H; apply andb_true_iff in H.
      apply Hneg. split; apply Rleb_true; tauto. }
    assert (H3 : Rltb sh eh = true) by (apply Rltb_true; exact Hlt).
    rewrite H1, H2, H3. reflexivity.
  - intros [Hprod Hneg] Hge.
    assert (H1 : Rleb (sh * eh) 0 = true) by (apply Rleb_true; exact Hprod).
    assert (H2 : Rleb (Rabs sh) 1e-7 && Rleb (Rabs eh) 1e-7 = false).
    { apply not_true_is_false. intros H; apply andb_true_iff in H.
      apply Hneg. split; apply Rleb_true; tauto. }
    assert (H3 : Rltb sh eh = false) by (apply Rltb_false; exact Hge).
    rewrite H1, H2, H3. reflexivity.
  - intros Hnot.
    destruct (Rleb (sh * eh) 0) eqn:H1; [|reflexivity].
    destruct (Rleb (Rabs sh) 1e-7 && Rleb (Rabs eh) 1e-7) eqn:H2; [reflexivity|].
    exfalso. apply Hnot. split; [apply Rleb_true; exact H1|].
    intros [Ha Hb]. apply Rleb_true in Ha. apply Rleb_true in Hb.
    rewrite Ha, Hb in H2. discriminate.
Qed.

Lemma unit_vector_up : get_unit_vector (0, 0) (0, 1) = Ok (0, 1).
Proof.
  rewrite get_unit_vector_ok by (intros H; injection H; lra).
  assert (Hd : get_dis_p2p (0, 1) (0, 0) = 1).
  { unfold get_dis_p2p, np_square; cbn [fst snd]. apply sqrt_value; lra. }
  rewrite Hd; cbn [fst snd]. f_equal. f_equal; lra.
Qed.

Lemma unit_vector_right : get_unit_vector (0, 0) (1, 0) = Ok (1, 0).
Proof.
  rewrite get_unit_vector_ok by (intros H; injection H; lra).
  assert (Hd : get_dis_p2p (1, 0) (0, 0) = 1).
  { unfold get_dis_p2p, np_square; cbn [fst snd]. apply sqrt_value; lra. }
  rewrite Hd; cbn [fst snd]. f_equal. f_equal; lra.
Qed.

Lemma corner_dist_up : 1e-7 < get_dis_p2p (0, 0) (0, 1).
Proof. unfold get_dis_p2p, np_square; cbn [fst snd]. apply sqrt_gt_const; lra. Qed.

Lemma corner_dist_right : 1e-7 < get_dis_p2p (0, 0) (1, 0).
Proof. unfold get_dis_p2p, np_square; cbn [fst snd]. apply sqrt_gt_const; lra. Qed.

(** C4, the claim as stated fails.  The path turns a corner at its closest
    point (0,0), which is 1 away from both ends; the trajectory direction
    (1,0) is orthogonal to the start direction (0,1) and equal to the end
    direction (1,0): the dot products are 0 and 1, not of opposite signs,
    one of them of absolute value below 1e-7, and the path is replaced. *)
Lemma splice_replaces_with_zero_dot :
  get_unit_vector (0, 0) (0, 1) = Ok (0, 1) /\
  get_unit_vector (0, 0) (1, 0) = Ok (1, 0) /\
  np_dot (1, 0) (0, 1) = 0 /\
  np_dot (1, 0) (1, 0) = 1 /\
  splice [(0, 1); (0, 0); (1, 0)] 1 [(5, 5)] (Some (1, 0)) = Ok [(0, 1); (5, 5)] /\
  [(0, 1); (5, 5)] <> [(0, 1); (0, 0); (1, 0)].
Proof.
  split; [exact unit_vector_up|]. split; [exact unit_vector_right|].
  split; [unfold np_dot; cbn [fst snd]; lra|].
  split; [unfold np_dot; cbn [fst snd]; lra|].
  split; [|discriminate].
  rewrite (splice_interior_step [(0, 1); (0, 0); (1, 0)] [(5, 5)] 1 (1, 0)
             (0, 0) (0, 1) (1, 0) (0, 1) (1, 0)
             eq_refl eq_refl eq_refl corner_dist_up corner_dist_right
             unit_vector_up unit_vector_right).
  unfold np_dot, Rleb, Rltb, Rabs; cbn [fst snd].
  decide_R; reflexivity.
Qed.

Lemma splice_interior_witness :
  splice [(0, 1); (0, 0); (1, 0)] 1 [(5, 5)] (Some (1, 0))
  = Ok (firstn 1 [(0, 1); (0, 0); (1, 0)] ++ rev [(5, 5)]).
Proof.
  destruct (splice_interior [(0, 1); (0, 0); (1, 0)] [(5, 5)] 1 (1, 0)
              (0, 0) (0, 1) (1, 0)
              eq_refl eq_refl eq_refl corner_dist_up corner_dist_right)
    as (sd & ed & Hsd & Hed & Hfirst & _).
  rewrite unit_vector_up in Hsd. rewrite unit_vector_right in Hed.
  injection Hsd as <-. injection Hed as <-.
  apply Hfirst.
  - unfold np_dot, Rabs; cbn [fst snd]. split; [lra|].
    intros [_ H]. revert H. decide_R; lra.
  - unfold np_dot; cbn [fst snd]. lra.
Defined.

(** ** Reference path: the whole construction *)

Lemma argmin_from_bound (l : list R) (best_i i : nat) (best : R) :
  (best_i < i)%nat -> (argmin_from best_i best i l < i + length l)%nat.
Proof.
  revert best_i i best; induction l as [|x tl IH]; intros best_i i best Hlt; simpl.
  - lia.
  - destruct (Rlt_dec x best).
    + specialize (IH i (S i) x). lia.
    + specialize (IH best_i (S i) best). lia.
Qed.

Lemma np_argmin_ok (l : list R) :
  l <> [] -> exists i : nat, np_argmin l = Ok i /\ (i < length l)%nat.
Proof.
  destruct l as [|x tl]; [congruence|]. intros _.
  eexists; split; [reflexivity|].
  pose proof (argmin_from_bound tl 0 1 x). simpl. lia.
Qed.

Lemma get_dis_batch_length (points : list point) (p : point) :
  length (get_dis_batch points p) = length points.
Proof. apply length_map. Qed.

Lemma py_index_nat_ok {A : Type} (l : list A) (i : nat) :
  (i < length l)%nat ->
  exists a : A, py_index l (Z.of_nat i) = Ok a /\ nth_error l i = Some a.
Proof.
  intros Hi. rewrite py_index_nat.
  destruct (nth_error l i) as [a|] eqn:E; [eauto | apply nth_error_None in E; lia].
Qed.

Lemma py_index_first_ok {A : Type} (l : list A) :
  l <> [] -> exists a : A, py_index l 0 = Ok a /\ In a l.
Proof.
  destruct l as [|a tl]; [congruence|]. intros _.
  exists a; split; [reflexivity | left; reflexivity].
Qed.

Lemma shift_to_label (c label : point) : vsub c (vsub c label) = label.
Proof. destruct c, label; unfold vsub; cbn [fst snd]. f_equal; ring. Qed.

(** The radius is the stated combination of the five distances, and at
    least 3. *)
Lemma filter_radius_ok (labels reference_path : list point) (idx : nat)
    (future_frame_num : Z) (l_half : point) :
  py_index labels (- future_frame_num / 2) = Ok l_half ->
  (idx < length reference_path)%nat ->
  exists (l_last l_first p_last p_closest p_first : point) (radius : R),
    py_index labels (-1) = Ok l_last /\
    py_index labels 0 = Ok l_first /\
    py_index reference_path (-1) = Ok p_last /\
    py_index reference_path (Z.of_nat idx) = Ok p_closest /\
    py_index reference_path 0 = Ok p_first /\
    filter_radius labels reference_path idx future_frame_num = Ok radius /\
    radius = Rmax (Rmin (Rmin (Rmax 15 (get_dis_p2p l_last l_half))
                              (get_dis_p2p l_last l_first))
                        (Rmax (get_dis_p2p p_last p_closest)
                              (get_dis_p2p p_first p_closest)))
                  3 /\
    3 <= radius.
Proof.
  intros Hhalf Hidx.
  assert (Hl : labels <> []).
  { intros ->. unfold py_index in Hhalf. simpl in Hhalf.
    destruct (_ <? 0)%Z, (_ && _)%bool in Hhalf; try discriminate;
      destruct (Z.to_nat _) in Hhalf; discriminate. }
  assert (Hp : reference_path <> []) by (intros ->; simpl in Hidx; lia).
  destruct (py_index_last_ok labels Hl) as (l_last & Hll & _).
  destruct (py_index_first_ok labels Hl) as (l_first & Hlf & _).
  destruct (py_index_last_ok reference_path Hp) as (p_last & Hpl & _).
  destruct (py_index_first_ok reference_path Hp) as (p_first & Hpf & _).
  destruct (py_index_nat_ok reference_path idx Hidx) as (p_closest & Hpc & _).
  exists l_last, l_first, p_last, p_closest, p_first. eexists.
  repeat (split; [eassumption|]).
  unfold filter_radius. rewrite Hll, Hhalf, Hlf, Hpl, Hpc, Hpf. cbn [bind].
  split; [reflexivity|]. split; [reflexivity | apply Rmax_r].
Qed.

Lemma py_slice_last_nonempty {A : Type} (k : nat) (l : list A) :
  l <> [] -> py_slice_last (S k) l <> [].
Proof.
  intros Hl H. apply (f_equal (@length A)) in H.
  unfold py_slice_last in H. rewrite length_skipn in H.
  destruct l; [congruence | cbn [length] in H; lia].
Qed.

(** The splice step raises nothing and returns a non-empty path. *)
Lemma splice_nonempty (reference_path traj_segment : list point) (idx : nat)
    (dir : option point) :
  (idx < length reference_path)%nat -> traj_segment <> [] ->
  exists out : list point,
    splice reference_path idx traj_segment dir = Ok out /\ out <> [].
Proof.
  intros Hidx Hseg.
  assert (Hp : reference_path <> []) by (intros ->; simpl in Hidx; lia).
  destruct (py_index_last_ok reference_path Hp) as (p_last & Hpl & _).
  destruct (py_index_first_ok reference_path Hp) as (p_first & Hpf & _).
  destruct (py_index_nat_ok reference_path idx Hidx) as (p_closest & Hpc & _).
  unfold splice. rewrite Hpc, Hpf, Hpl. cbn [bind].
  rewrite !np_linalg_norm_vsub.
  assert (Happ_l : forall l : list point, traj_segment ++ l <> []).
  { intros l H. apply app_eq_nil in H. tauto. }
  assert (Happ_r : forall l : list point, l ++ rev traj_segment <> []).
  { intros l H. apply app_eq_nil in H. destruct H as [_ H].
    apply (f_equal (@rev (R * R))) in H. rewrite rev_involutive in H. auto. }
  destruct dir as [d|]; [|eauto].
  destruct (Rleb (get_dis_p2p p_closest p_first) 1e-7) eqn:Hs;
    destruct (Rleb (get_dis_p2p p_closest p_last) 1e-7) eqn:He; cbn [andb].
  - eauto.
  - apply Rleb_false in He.
    rewrite get_unit_vector_ok by (eapply get_dis_p2p_pos_neq; [|exact He]; lra).
    cbn [bind]. destruct (Rltb _ _); eauto.
  - apply Rleb_false in Hs.
    rewrite get_unit_vector_ok by (eapply get_dis_p2p_pos_neq; [|exact Hs]; lra).
    cbn [bind]. destruct (Rltb _ _); eauto.
  - apply Rleb_false in Hs. apply Rleb_false in He.
    rewrite !get_unit_vector_ok
      by (eapply get_dis_p2p_pos_neq; [|eassumption]; lra).
    cbn [bind]. destruct (_ && _)%bool; [destruct (Rltb _ _)|]; eauto.
Qed.

(** C3, amended.  For a reference path of at least 2 points and labels in
    which [labels[-future_frame_num//2]] exists, [construct_reference_path]
    returns a path of at least 1 point. *)
Theorem construct_reference_path_nonempty (fuel : nat) (labels reference_path : list point)
    (point_label l_half : point) (future_frame_num : Z) :
  (3 <= fuel)%nat ->
  (2 <= length reference_path)%nat ->
  py_index labels (- future_frame_num / 2) = Ok l_half ->
  exists out : list point,
    construct_reference_path fuel labels reference_path point_label future_frame_num
    = Ok out /\
    (1 <= length out)%nat.
Proof.
  intros Hfuel Hlen Hhalf. unfold construct_reference_path.
  destruct (densify_valid fuel reference_path Hfuel Hlen) as (dense & Hd & Hd9).
  rewrite Hd. cbn [bind].
  destruct (np_argmin_ok (get_dis_batch dense point_label)) as (idx & Hidx & Hlt).
  { intros H. apply (f_equal (@length R)) in H.
    rewrite get_dis_batch_length in H. simpl in H. lia. }
  rewrite get_dis_batch_length in Hlt. rewrite Hidx. cbn [bind].
  destruct (py_index_nat_ok dense idx Hlt) as (closest & Hc & Hnth).
  rewrite Hc. cbn [bind].
  set (shifted := map (fun p => vsub p (vsub closest point_label)) dense).
  assert (Hs_len : (idx < length shifted)%nat) by (unfold shifted; rewrite length_map; exact Hlt).
  destruct (filter_radius_ok labels shifted idx future_frame_num l_half Hhalf Hs_len)
    as (l_last & l_first & p_last & p_closest & p_first & radius
        & _ & _ & _ & _ & _ & Hrad & _ & Hr3).
  rewrite Hrad. cbn [bind].
  set (filtered := filter (fun p => Rleb (get_dis_p2p p point_label) radius) shifted).
  assert (Hin : In point_label filtered).
  { apply filter_In. split.
    - unfold shifted. apply in_map_iff. exists closest. split.
      + apply shift_to_label.
      + eapply nth_error_In; exact Hnth.
    - apply Rleb_true. rewrite get_dis_p2p_refl. lra. }
  assert (Hf : filtered <> []) by (intros H; rewrite H in Hin; contradiction).
  destruct (np_argmin_ok (get_dis_batch filtered point_label)) as (idx2 & Hidx2 & Hlt2).
  { intros H. apply (f_equal (@length R)) in H.
    rewrite get_dis_batch_length in H. destruct filtered; [congruence | discriminate]. }
  rewrite get_dis_batch_length in Hlt2. rewrite Hidx2. cbn [bind].
  destruct (py_index_nat_ok filtered idx2 Hlt2) as (pc2 & Hpc2 & _).
  rewrite Hpc2. cbn [bind].
  assert (Hl : labels <> []).
  { intros ->. unfold py_index in Hhalf. simpl in Hhalf.
    destruct (_ <? 0)%Z, (_ && _)%bool in Hhalf; try discriminate;
      destruct (Z.to_nat _) in Hhalf; discriminate. }
  destruct (splice_nonempty filtered
              (py_slice_last (S (Nat.max 0 (trailing_count labels pc2 radius - 1))) labels)
              idx2 (traj_direction_of labels future_frame_num) Hlt2
              (py_slice_last_nonempty _ labels Hl)) as (out & Hout & Hne).
  exists out. split; [exact Hout|].
  destruct out; [congruence | simpl; lia].
Qed.

Lemma construct_reference_path_nonempty_witness :
  exists out : list point,
    construct_reference_path 3 [(0, 0); (1, 0); (2, 0)] [(0, 0); (1000, 0)] (2, 0) 3
    = Ok out /\
    (1 <= length out)%nat.
Proof.
  apply (construct_reference_path_nonempty 3 [(0, 0); (1, 0); (2, 0)]
           [(0, 0); (1000, 0)] (2, 0) (1, 0) 3).
  - lia.
  - simpl; lia.
  - reflexivity.
Defined.

Lemma argmin_from_stays (l : list R) (best_i i : nat) (best : R) :
  Forall (fun y => best <= y) l -> argmin_from best_i best i l = best_i.
Proof.
  revert i; induction l as [|y tl IH]; intros i H; [reflexivity|].
  inversion H as [|? ? Hy Htl]; subst. simpl.
  destruct (Rlt_dec y best); [lra | apply IH; exact Htl].
Qed.

Lemma np_argmin_first (x : R) (tl : list R) :
  Forall (fun y => x <= y) tl -> np_argmin (x :: tl) = Ok 0%nat.
Proof. intros H. unfold np_argmin. rewrite argmin_from_stays by exact H. reflexivity. Qed.

(** A path of one point is returned as it is. *)
Lemma splice_single (p : point) (traj_segment : list point) (dir : option point) :
  splice [p] 0 traj_segment dir = Ok [p].
Proof.
  unfold splice.
  change (py_index [p] (Z.of_nat 0)) with (Ok p).
  change (py_index [p] 0) with (Ok p).
  change (py_index [p] (-1)) with (Ok p).
  cbn [bind]. rewrite np_linalg_norm_vsub, get_dis_p2p_refl.
  destruct dir as [d|]; [|reflexivity].
  assert (H : Rleb 0 1e-7 = true) by (apply Rleb_true; lra).
  rewrite H. reflexivity.
Qed.

(** The radius is 3 as soon as the last label is within 3 of the first. *)
Lemma radius_floor (a b d_first : R) :
  d_first <= 3 -> Rmax (Rmin (Rmin a d_first) b) 3 = 3.
Proof.
  intros H. apply Rmax_right.
  eapply Rle_trans; [apply Rmin_l|]. eapply Rle_trans; [apply Rmin_r | exact H].
Qed.

(** Decide [get_dis_p2p p q <= r] on constants by comparing squares. *)
Ltac decide_dist :=
  repeat match goal with
    | |- context [Rleb (get_dis_p2p ?p ?q) ?r] =>
        first
          [ replace (Rleb (get_dis_p2p p q) r) with true
              by (symmetry; apply Rleb_true; unfold get_dis_p2p, np_square;
                  cbn [fst snd]; apply sqrt_le_const; lra)
          | replace (Rleb (get_dis_p2p p q) r) with false
              by (symmetry; apply Rleb_false; unfold get_dis_p2p, np_square;
                  cbn [fst snd]; apply sqrt_gt_const; lra) ]
    end.

(** C3, the claim as stated fails.  The two-point reference path from
    (0,0) to (1000,0) is densified to nine points 125 apart; the labels
    end at the target (2,0), 2 away from the first label, so the radius is
    3 and only the closest point, moved onto the target, passes the
    filter; a path of one point is returned as it is. *)
Lemma construct_reference_path_one_point :
  construct_reference_path 3 [(0, 0); (1, 0); (2, 0)] [(0, 0); (1000, 0)] (2, 0) 3
  = Ok [(2, 0)].
Proof.
  unfold construct_reference_path.
  assert (Hd : densify 3 [(0, 0); (1000, 0)]
               = Ok [(0, 0); (125, 0); (250, 0); (375, 0); (500, 0);
                     (625, 0); (750, 0); (875, 0); (1000, 0)]).
  { cbn [densify densify_once length Nat.leb fst snd].
    repeat (f_equal; try lra). }
  rewrite Hd. cbn [bind].
  assert (Ha : np_argmin
                 (get_dis_batch
                    [(0, 0); (125, 0); (250, 0); (375, 0); (500, 0);
                     (625, 0); (750, 0); (875, 0); (1000, 0)] (2, 0))
               = Ok 0%nat).
  { cbn [get_dis_batch map fst snd]. apply np_argmin_first.
    repeat (apply Forall_cons; [apply sqrt_le_1_alt; unfold np_square; lra|]).
    apply Forall_nil. }
  rewrite Ha. cbn [bind].
  rewrite py_index_nat. cbn [nth_error bind map].
  assert (Hs : [vsub (0, 0) (vsub (0, 0) (2, 0)); vsub (125, 0) (vsub (0, 0) (2, 0));
                vsub (250, 0) (vsub (0, 0) (2, 0)); vsub (375, 0) (vsub (0, 0) (2, 0));
                vsub (500, 0) (vsub (0, 0) (2, 0)); vsub (625, 0) (vsub (0, 0) (2, 0));
                vsub (750, 0) (vsub (0, 0) (2, 0)); vsub (875, 0) (vsub (0, 0) (2, 0));
                vsub (1000, 0) (vsub (0, 0) (2, 0))]
               = [(2, 0); (127, 0); (252, 0); (377, 0); (502, 0);
                  (627, 0); (752, 0); (877, 0); (1002, 0)]).
  { unfold vsub; cbn [fst snd]. repeat (f_equal; try lra). }
  rewrite Hs.
  assert (Hr : filter_radius [(0, 0); (1, 0); (2, 0)]
                 [(2, 0); (127, 0); (252, 0); (377, 0); (502, 0);
                  (627, 0); (752, 0); (877, 0); (1002, 0)] 0 3
               = Ok 3).
  { unfold filter_radius.
    replace (py_index [(0, 0); (1, 0); (2, 0)] (-1)) with (Ok (2, 0)) by reflexivity.
    replace (py_index [(0, 0); (1, 0); (2, 0)] (- (3) / 2)) with (Ok (1, 0))
      by reflexivity.
    replace (py_index [(0, 0); (1, 0); (2, 0)] 0) with (Ok (0, 0)) by reflexivity.
    cbn [bind].
    replace (py_index [(2, 0); (127, 0); (252, 0); (377, 0); (502, 0);
                       (627, 0); (752, 0); (877, 0); (1002, 0)] (-1))
      with (Ok (1002, 0)) by reflexivity.
    rewrite py_index_nat. cbn [nth_error bind].
    replace (py_index [(2, 0); (127, 0); (252, 0); (377, 0); (502, 0);
                       (627, 0); (752, 0); (877, 0); (1002, 0)] 0)
      with (Ok (2, 0)) by reflexivity.
    cbn [bind]. f_equal. apply radius_floor.
    unfold get_dis_p2p, np_square; cbn [fst snd]. apply sqrt_le_const; lra. }
  rewrite Hr. cbn [bind filter].
  decide_dist. cbn [get_dis_batch map np_argmin argmin_from bind].
  rewrite py_index_nat. cbn [nth_error bind].
  apply splice_single.
Qed.

(** ** Goal lattice *)

Lemma grid_set_nonempty (grid : list point) (key : point) : grid_set grid key <> [].
Proof.
  unfold grid_set. destruct (existsb (key_eqb key) grid) eqn:E.
  - destruct grid; [discriminate E | discriminate].
  - intros H. apply app_eq_nil in H. destruct H as [_ H]. discriminate.
Qed.

(** The inner loop ends within [n + 1] tests when [n] steps of [density]
    pass the bound. *)
Lemma neighbour_loop_j_ends (fuel n : nat) (i j bound density : R) (grid : list point) :
  0 < density -> bound - j < INR n * density -> (n < fuel)%nat ->
  exists g : list point,
    neighbour_loop_j fuel i j bound density grid = Ok g /\
    (grid <> [] \/ j < bound -> g <> []).
Proof.
  intros Hd. revert n j grid; induction fuel as [|fuel IH]; intros n j grid Hn Hf; [lia|].
  cbn [neighbour_loop_j]. destruct (Rlt_dec j bound) as [Hlt|Hge].
  - destruct n as [|n]; [simpl in Hn; lra|].
    rewrite S_INR in Hn.
    destruct (IH n (j + density) (grid_set grid (i, j))) as (g & Hg & Hne);
      [lra | lia |].
    exists g; split; [exact Hg|]. intros _. apply Hne. left. apply grid_set_nonempty.
  - exists grid; split; [reflexivity|]. intros [H|H]; [exact H | lra].
Qed.

Lemma neighbour_loop_i_ends (fuel n_i n_j : nat) (i bound_i j0 bound_j density : R)
    (grid : list point) :
  0 < density ->
  bound_i - i < INR n_i * density ->
  bound_j - j0 < INR n_j * density ->
  (n_i + n_j < fuel)%nat ->
  exists g : list point,
    neighbour_loop_i fuel i bound_i j0 bound_j density grid = Ok g /\
    (grid <> [] \/ (i < bound_i /\ j0 < bound_j) -> g <> []).
Proof.
  intros Hd. revert n_i i grid; induction fuel as [|fuel IH];
    intros n_i i grid Hi Hj Hf; [lia|].
  cbn [neighbour_loop_i]. destruct (Rlt_dec i bound_i) as [Hlt|Hge].
  - destruct n_i as [|n_i]; [simpl in Hi; lra|].
    rewrite S_INR in Hi.
    destruct (neighbour_loop_j_ends fuel n_j i j0 bound_j density grid Hd Hj)
      as (g1 & Hg1 & Hne1); [lia|].
    rewrite Hg1. cbn [bind].
    destruct (IH n_i (i + density) g1) as (g & Hg & Hne); [lra | exact Hj | lia |].
    exists g; split; [exact Hg|].
    intros H. apply Hne. left. apply Hne1. tauto.
  - exists grid; split; [reflexivity|]. intros [H|[H _]]; [exact H | lra].
Qed.

Lemma neighbour_points_loop_default (fuel : nat) (points grid : list point) :
  (11 <= fuel)%nat ->
  exists g : list point,
    neighbour_points_loop fuel points 2 1 grid = Ok g /\
    (grid <> [] \/ (exists p : point, In p points /\ in_lattice_range p) -> g <> []).
Proof.
  intros Hfuel. revert grid; induction points as [|p tl IH]; intros grid.
  - exists grid; split; [reflexivity|].
    intros [H|(p & [] & _)]; exact H.
  - cbn [neighbour_points_loop].
    destruct ((-100 <=? py_round (fst p)) && (py_round (fst p) <=? 100)
              && ((-100 <=? py_round (snd p)) && (py_round (snd p) <=? 100)))%Z eqn:E.
    + destruct (neighbour_loop_i_ends fuel 5 5
                  (IZR (py_round (fst p)) - 2) (IZR (py_round (fst p)) + 2 + 1e-5)
                  (IZR (py_round (snd p)) - 2) (IZR (py_round (snd p)) + 2 + 1e-5)
                  1 grid) as (g1 & Hg1 & Hne1); [lra | simpl; lra | simpl; lra | lia |].
      rewrite Hg1. cbn [bind].
      destruct (IH g1) as (g & Hg & Hne).
      exists g; split; [exact Hg|].
      intros _. apply Hne. left. apply Hne1. right. lra.
    + destruct (IH grid) as (g & Hg & Hne).
      exists g; split; [exact Hg|].
      intros [H|(q & [<-|Hq] & Hr)].
      * apply Hne; left; exact H.
      * exfalso. destruct Hr as [[H1 H2] [H3 H4]].
        apply Z.leb_le in H1, H2, H3, H4. rewrite H1, H2, H3, H4 in E. discriminate.
      * apply Hne; right; exists q; split; assumption.
Qed.

Lemma get_points_remove_repeated_float (points : list point) (r : R) :
  points <> [] -> get_points_remove_repeated points (PyFloat r) = Raise TypeError.
Proof. destruct points; [congruence | reflexivity]. Qed.

Lemma Int_part_IZR (z : Z) : Int_part (IZR z) = z.
Proof. symmetry. apply Int_part_spec. lra. Qed.

Lemma py_round_IZR (z : Z) : py_round (IZR z) = z.
Proof.
  unfold py_round. rewrite Int_part_IZR.
  destruct (Rlt_dec (IZR z - IZR z) (1 / 2)); [reflexivity | lra].
Qed.

(** C7, the code at its default parameters.  The dense generator passes
    [density], the float 1.0, to [get_points_remove_repeated] as the number
    of decimals, and [round] raises [TypeError] on a float: whenever a
    point lies in the range, the loops fill the lattice and the call then
    raises instead of returning it. *)
Theorem get_neighbour_points_new_default_raises (fuel : nat) (points : list point) :
  (11 <= fuel)%nat ->
  (exists p : point, In p points /\ in_lattice_range p) ->
  get_neighbour_points_new fuel points 2 (PyFloat 1) = Raise TypeError.
Proof.
  intros Hfuel Hp. unfold get_neighbour_points_new. cbn [py_value].
  destruct (neighbour_points_loop_default fuel points [] Hfuel) as (g & Hg & Hne).
  rewrite Hg. cbn [bind].
  apply get_points_remove_repeated_float. apply Hne. right. exact Hp.
Qed.

Lemma get_neighbour_points_new_default_raises_witness :
  get_neighbour_points_new 11 [(0, 0)] 2 (PyFloat 1) = Raise TypeError.
Proof.
  apply get_neighbour_points_new_default_raises; [lia|].
  exists (0, 0). split; [left; reflexivity|].
  unfold in_lattice_range. cbn [fst snd]. rewrite (py_round_IZR 0). lia.
Defined.

(** ** The radius of the filter *)

Lemma get_dis_p2p_value (p q : point) (c : R) :
  0 <= c ->
  (fst p - fst q) * (fst p - fst q) + (snd p - snd q) * (snd p - snd q) = c * c ->
  get_dis_p2p p q = c.
Proof. intros Hc H. unfold get_dis_p2p, np_square. apply sqrt_value; assumption. Qed.

(** Decide [sqrt a < sqrt b] on constants by comparing [a] and [b]. *)
Ltac decide_sqrt_lt :=
  repeat match goal with
    | |- context [Rlt_dec (sqrt ?a) (sqrt ?b)] =>
        let H := fresh "H" in
        destruct (Rlt_dec (sqrt a) (sqrt b)) as [H|H];
        [ try (exfalso;
               assert (sqrt b <= sqrt a)
                 by (apply sqrt_le_1_alt; unfold np_square; lra);
               lra)
        | try (exfalso; apply H; apply sqrt_lt_1_alt; unfold np_square; lra) ]
    end.

(** C2, the code at an input with all distances equal to 20: the last
    label is 20 from the label half the horizon back and from the first
    label, and the ends of the path are 20 from the closest point.  The
    radius is [max(min(max(15, 20), 20, max(20, 20)), 3) = 20], above 15,
    and the returned path keeps the end point (40,0), 20 from the
    target. *)
Theorem filter_radius_exceeds_15 :
  filter_radius [(0, 0); (0, 0); (0, 0); (20, 0)]
    [(0, 0); (5, 0); (10, 0); (15, 0); (20, 0); (25, 0); (30, 0); (35, 0); (40, 0)] 4 4
  = Ok 20 /\
  construct_reference_path 0 [(0, 0); (0, 0); (0, 0); (20, 0)]
    [(0, 0); (5, 0); (10, 0); (15, 0); (20, 0); (25, 0); (30, 0); (35, 0); (40, 0)]
    (20, 0) 4
  = Ok [(0, 0); (0, 0); (0, 0); (20, 0);
        (20, 0); (25, 0); (30, 0); (35, 0); (40, 0)] /\
  get_dis_p2p (40, 0) (20, 0) = 20.
Proof.
  assert (Hrad : filter_radius [(0, 0); (0, 0); (0, 0); (20, 0)]
                   [(0, 0); (5, 0); (10, 0); (15, 0); (20, 0);
                    (25, 0); (30, 0); (35, 0); (40, 0)] 4 4
                 = Ok 20).
  { unfold filter_radius.
    replace (py_index [(0, 0); (0, 0); (0, 0); (20, 0)] (-1)) with (Ok (20, 0))
      by reflexivity.
    replace (py_index [(0, 0); (0, 0); (0, 0); (20, 0)] (- (4) / 2)) with (Ok (0, 0))
      by reflexivity.
    replace (py_index [(0, 0); (0, 0); (0, 0); (20, 0)] 0) with (Ok (0, 0))
      by reflexivity.
    cbn [bind].
    replace (py_index [(0, 0); (5, 0); (10, 0); (15, 0); (20, 0);
                       (25, 0); (30, 0); (35, 0); (40, 0)] (-1))
      with (Ok (40, 0)) by reflexivity.
    rewrite py_index_nat. cbn [nth_error bind].
    replace (py_index [(0, 0); (5, 0); (10, 0); (15, 0); (20, 0);
                       (25, 0); (30, 0); (35, 0); (40, 0)] 0)
      with (Ok (0, 0)) by reflexivity.
    cbn [bind].
    rewrite (get_dis_p2p_value (20, 0) (0, 0) 20) by (cbn [fst snd]; lra).
    rewrite (get_dis_p2p_value (40, 0) (20, 0) 20) by (cbn [fst snd]; lra).
    rewrite (get_dis_p2p_value (0, 0) (20, 0) 20) by (cbn [fst snd]; lra).
    rewrite (Rmax_right 15 20), (Rmin_left 20 20), (Rmax_left 20 20),
      (Rmin_left 20 20), (Rmax_left 20 3) by lra.
    reflexivity. }
  split; [exact Hrad|].
  split; [|apply get_dis_p2p_value; cbn [fst snd]; lra].
  unfold construct_reference_path.
  cbn [densify length Nat.leb bind].
  assert (Ha : forall l : list point,
             l = [(0, 0); (5, 0); (10, 0); (15, 0); (20, 0);
                  (25, 0); (30, 0); (35, 0); (40, 0)] ->
             np_argmin (get_dis_batch l (20, 0)) = Ok 4%nat).
  { intros l ->. cbn [get_dis_batch map fst snd np_argmin argmin_from].
    decide_sqrt_lt. reflexivity. }
  rewrite (Ha _ eq_refl). cbn [bind].
  rewrite py_index_nat. cbn [nth_error bind map].
  assert (Hs : [vsub (0, 0) (vsub (20, 0) (20, 0)); vsub (5, 0) (vsub (20, 0) (20, 0));
                vsub (10, 0) (vsub (20, 0) (20, 0)); vsub (15, 0) (vsub (20, 0) (20, 0));
                vsub (20, 0) (vsub (20, 0) (20, 0)); vsub (25, 0) (vsub (20, 0) (20, 0));
                vsub (30, 0) (vsub (20, 0) (20, 0)); vsub (35, 0) (vsub (20, 0) (20, 0));
                vsub (40, 0) (vsub (20, 0) (20, 0))]
               = [(0, 0); (5, 0); (10, 0); (15, 0); (20, 0);
                  (25, 0); (30, 0); (35, 0); (40, 0)]).
  { unfold vsub; cbn [fst snd]. repeat (f_equal; try lra). }
  rewrite Hs, Hrad. cbn [bind filter].
  decide_dist. rewrite (Ha _ eq_refl). cbn [bind].
  rewrite py_index_nat. cbn [nth_error bind].
  assert (Ht : trailing_count [(0, 0); (0, 0); (0, 0); (20, 0)] (20, 0) 20 = 4%nat).
  { unfold trailing_count. cbn [length trailing_loop Nat.ltb Nat.leb].
    replace (py_index [(0, 0); (0, 0); (0, 0); (20, 0)] (-1 - Z.of_nat 0))
      with (Ok (20, 0)) by reflexivity.
    replace (py_index [(0, 0); (0, 0); (0, 0); (20, 0)] (-1 - Z.of_nat 1))
      with (Ok (0, 0)) by reflexivity.
    replace (py_index [(0, 0); (0, 0); (0, 0); (20, 0)] (-1 - Z.of_nat 2))
      with (Ok (0, 0)) by reflexivity.
    replace (py_index [(0, 0); (0, 0); (0, 0); (20, 0)] (-1 - Z.of_nat 3))
      with (Ok (0, 0)) by reflexivity.
    rewrite (get_dis_p2p_value (20, 0) (20, 0) 0) by (cbn [fst snd]; lra).
    rewrite (get_dis_p2p_value (0, 0) (20, 0) 20) by (cbn [fst snd]; lra).
    decide_R; reflexivity. }
  rewrite Ht.
  change (py_slice_last (S (Nat.max 0 (4 - 1))) [(0, 0); (0, 0); (0, 0); (20, 0)])
    with [(0, 0); (0, 0); (0, 0); (20, 0)].
  assert (Hleft : get_unit_vector (20, 0) (0, 0) = Ok (-1, 0)).
  { rewrite get_unit_vector_ok by (intros H; injection H; lra).
    rewrite (get_dis_p2p_value (0, 0) (20, 0) 20) by (cbn [fst snd]; lra).
    cbn [fst snd]. f_equal. f_equal; lra. }
  assert (Hright : get_unit_vector (20, 0) (40, 0) = Ok (1, 0)).
  { rewrite get_unit_vector_ok by (intros H; injection H; lra).
    rewrite (get_dis_p2p_value (40, 0) (20, 0) 20) by (cbn [fst snd]; lra).
    cbn [fst snd]. f_equal. f_equal; lra. }
  assert (Hdir : traj_direction_of [(0, 0); (0, 0); (0, 0); (20, 0)] 4 = Some (-1, 0)).
  { unfold traj_direction_of.
    replace (py_index [(0, 0); (0, 0); (0, 0); (20, 0)] (-1)) with (Ok (20, 0))
      by reflexivity.
    replace (py_index [(0, 0); (0, 0); (0, 0); (20, 0)] (- (4) / 3)) with (Ok (0, 0))
      by reflexivity.
    cbn [bind]. rewrite Hleft. reflexivity. }
  rewrite Hdir.
  rewrite (splice_interior_step
             [(0, 0); (5, 0); (10, 0); (15, 0); (20, 0); (25, 0); (30, 0); (35, 0); (40, 0)]
             [(0, 0); (0, 0); (0, 0); (20, 0)] 4 (-1, 0)
             (20, 0) (0, 0) (40, 0) (-1, 0) (1, 0)).
  - unfold np_dot, Rleb, Rltb, Rabs; cbn [fst snd]. decide_R; reflexivity.
  - reflexivity.
  - reflexivity.
  - reflexivity.
  - rewrite (get_dis_p2p_value (20, 0) (0, 0) 20) by (cbn [fst snd]; lra). lra.
  - rewrite (get_dis_p2p_value (20, 0) (40, 0) 20) by (cbn [fst snd]; lra). lra.
  - exact Hleft.
  - exact Hright.
Qed.

(** ** Deduplication with an integer number of decimals *)

Lemma key_eqb_eq (p q : point) : key_eqb p q = true <-> p = q.
Proof.
  unfold key_eqb. rewrite andb_true_iff, !Reqb_true.
  destruct p, q; cbn [fst snd]. split; [intros [-> ->]; reflexivity|].
  intros H; injection H; auto.
Qed.

Lemma grid_set_spec (grid : list point) (key : point) :
  (In key grid /\ grid_set grid key = grid) \/
  (~ In key grid /\ grid_set grid key = grid ++ [key]).
Proof.
  unfold grid_set. destruct (existsb (key_eqb key) grid) eqn:E.
  - left. split; [|reflexivity].
    apply existsb_exists in E. destruct E as (q & Hq & Heq).
    apply key_eqb_eq in Heq. subst. exact Hq.
  - right. split; [|reflexivity]. intros Hin.
    assert (existsb (key_eqb key) grid = true)
      by (apply existsb_exists; exists key; split; [exact Hin | apply key_eqb_eq; reflexivity]).
    congruence.
Qed.

(** The rounded pair that is the key of a point. *)
Lemma get_hash_point_int (d : Z) (p : point) :
  get_hash_point (PyInt d) p
  = Ok (IZR (py_round (fst p * powerRZ 10 d)) / powerRZ 10 d,
        IZR (py_round (snd p * powerRZ 10 d)) / powerRZ 10 d).
Proof. reflexivity. Qed.

Lemma round_ndigits_idempotent (d : Z) (x : R) :
  IZR (py_round (IZR (py_round (x * powerRZ 10 d)) / powerRZ 10 d * powerRZ 10 d))
  / powerRZ 10 d
  = IZR (py_round (x * powerRZ 10 d)) / powerRZ 10 d.
Proof.
  assert (Hp : powerRZ 10 d <> 0) by (apply powerRZ_NOR; lra).
  replace (IZR (py_round (x * powerRZ 10 d)) / powerRZ 10 d * powerRZ 10 d)
    with (IZR (py_round (x * powerRZ 10 d))) by (field; exact Hp).
  rewrite py_round_IZR. reflexivity.
Qed.

Lemma get_hash_point_key (d : Z) (k : point) :
  is_key d k -> get_hash_point (PyInt d) k = Ok k.
Proof.
  intros (p & Hp). rewrite get_hash_point_int in *. injection Hp as <-.
  cbn [fst snd]. rewrite !round_ndigits_idempotent. reflexivity.
Qed.

Lemma remove_repeated_loop_inv (d : Z) (points grid : list point) :
  NoDup grid -> Forall (is_key d) grid ->
  exists out : list point,
    remove_repeated_loop points (PyInt d) grid = Ok out /\
    NoDup out /\ Forall (is_key d) out.
Proof.
  revert grid; induction points as [|p tl IH]; intros grid Hnd Hk.
  - exists grid; auto.
  - cbn [remove_repeated_loop]. rewrite get_hash_point_int. cbn [bind].
    apply IH.
    + destruct (grid_set_spec grid
                  (IZR (py_round (fst p * powerRZ 10 d)) / powerRZ 10 d,
                   IZR (py_round (snd p * powerRZ 10 d)) / powerRZ 10 d))
        as [[_ ->]|[Hnin ->]]; [exact Hnd|].
      apply NoDup_app; [exact Hnd | repeat constructor; intros [] |].
      intros x Hx [<-|[]]. contradiction.
    + destruct (grid_set_spec grid
                  (IZR (py_round (fst p * powerRZ 10 d)) / powerRZ 10 d,
                   IZR (py_round (snd p * powerRZ 10 d)) / powerRZ 10 d))
        as [[_ ->]|[_ ->]]; [exact Hk|].
      apply Forall_app. split; [exact Hk|].
      constructor; [|constructor]. exists p. apply get_hash_point_int.
Qed.

(** Keys that are already distinct are inserted one after the other. *)
Lemma remove_repeated_loop_keys (d : Z) (keys grid : list point) :
  NoDup (grid ++ keys) -> Forall (is_key d) keys ->
  remove_repeated_loop keys (PyInt d) grid = Ok (grid ++ keys).
Proof.
  revert grid; induction keys as [|k tl IH]; intros grid Hnd Hk.
  - rewrite app_nil_r. reflexivity.
  - inversion Hk as [|? ? Hk1 Hk2]; subst.
    cbn [remove_repeated_loop]. rewrite (get_hash_point_key d k Hk1). cbn [bind].
    destruct (grid_set_spec grid k) as [[Hin _]|[_ ->]].
    + exfalso. apply NoDup_remove_2 in Hnd. apply Hnd.
      apply in_or_app. left. exact Hin.
    + rewrite IH; [rewrite <- app_assoc; reflexivity | | exact Hk2].
      rewrite <- app_assoc. exact Hnd.
Qed.

(** The part of C7 that holds: with an integer number of decimals the
    output of [get_points_remove_repeated] has no repeated point, and the
    function maps its own output to itself. *)
Lemma get_points_remove_repeated_idempotent (d : Z) (points : list point) :
  exists out : list point,
    get_points_remove_repeated points (PyInt d) = Ok out /\
    NoDup out /\
    get_points_remove_repeated out (PyInt d) = Ok out.
Proof.
  unfold get_points_remove_repeated.
  destruct (remove_repeated_loop_inv d points []) as (out & Hout & Hnd & Hk);
    [constructor | constructor |].
  exists out. split; [exact Hout|]. split; [exact Hnd|].
  apply (remove_repeated_loop_keys d out []); assumption.
Qed.

(** * Further properties of the code *)

(** ** Rotation and the normalizer *)

Lemma rotate_back (x y angle : R) :
  rotate (fst (rotate x y angle)) (snd (rotate x y angle)) (- angle) = (x, y).
Proof.
  unfold rotate; cbn [fst snd]. rewrite cos_neg, sin_neg.
  pose proof (sin2_cos2 angle) as H. unfold Rsqr in H.
  f_equal.
  - replace ((x * cos angle - y * sin angle) * cos angle
             - (x * sin angle + y * cos angle) * - sin angle)
      with (x * (sin angle * sin angle + cos angle * cos angle)) by ring.
    rewrite H; ring.
  - replace ((x * cos angle - y * sin angle) * - sin angle
             + (x * sin angle + y * cos angle) * cos angle)
      with (y * (sin angle * sin angle + cos angle * cos angle)) by ring.
    rewrite H; ring.
Qed.

Lemma rotate_forth (x y angle : R) :
  rotate (fst (rotate x y (- angle))) (snd (rotate x y (- angle))) angle = (x, y).
Proof.
  pose proof (rotate_back x y (- angle)) as H. rewrite Ropp_involutive in H. exact H.
Qed.

Lemma rotate_sub (x y u v angle : R) :
  vsub (rotate x y angle) (rotate u v angle) = rotate (x - u) (y - v) angle.
Proof. unfold rotate, vsub; cbn [fst snd]. f_equal; ring. Qed.

(** A rotation keeps the length of a vector. *)
Theorem rotate_keeps_norm (x y angle : R) :
  np_linalg_norm (rotate x y angle) = np_linalg_norm (x, y).
Proof.
  unfold np_linalg_norm, rotate; cbn [fst snd]. f_equal.
  pose proof (sin2_cos2 angle) as H. unfold Rsqr in H.
  replace ((x * cos angle - y * sin angle) * (x * cos angle - y * sin angle)
           + (x * sin angle + y * cos angle) * (x * sin angle + y * cos angle))
    with ((x * x + y * y) * (sin angle * sin angle + cos angle * cos angle)) by ring.
  rewrite H; ring.
Qed.

Lemma Normalizer_point_round_trip (x y yaw : R) (p : point) :
  Normalizer_point (Normalizer_init x y yaw) true
    (Normalizer_point (Normalizer_init x y yaw) false p) = p /\
  Normalizer_point (Normalizer_init x y yaw) false
    (Normalizer_point (Normalizer_init x y yaw) true p) = p.
Proof.
  unfold Normalizer_point, Normalizer_init, rotate;
    cbn [norm_x norm_y norm_yaw norm_origin fst snd].
  rewrite cos_neg, sin_neg.
  pose proof (sin2_cos2 yaw) as H. unfold Rsqr in H.
  set (c := cos yaw) in *. set (s := sin yaw) in *.
  destruct p as [px py]; cbn [fst snd].
  split; f_equal; nsatz.
Qed.

Lemma mapM_round_trip {A : Type} (f g : A -> result A) (Q : A -> A -> Prop)
    (l : list A) :
  (forall a : A, In a l -> exists b : A, f a = Ok b /\ Q a b /\ g b = Ok a) ->
  exists bs : list A, mapM f l = Ok bs /\ Forall2 Q l bs /\ mapM g bs = Ok l.
Proof.
  induction l as [|a tl IH]; intros H.
  - exists []. split; [reflexivity|]. split; [constructor | reflexivity].
  - destruct (H a (or_introl eq_refl)) as (b & Hf & HQ & Hg).
    destruct IH as (bs & Hbs & HF & Hback); [intros a' Ha'; apply H; right; exact Ha'|].
    exists (b :: bs). cbn [mapM]. rewrite Hf, Hbs. cbn [bind].
    split; [reflexivity|]. split; [constructor; assumption|].
    rewrite Hg, Hback. reflexivity.
Qed.

Lemma Forall2_second {A B : Type} (P : B -> Prop) (l : list A) (l' : list B) :
  Forall2 (fun (_ : A) (b : B) => P b) l l' -> Forall P l'.
Proof. intros H. induction H; constructor; assumption. Qed.

Lemma Normalizer_row_round_trip (x y yaw : R) (reverse : bool) (row : list R) :
  (2 <= length row)%nat ->
  exists row' : list R,
    Normalizer_row (Normalizer_init x y yaw) reverse np_float row = Ok row' /\
    length row' = length row /\
    Normalizer_row (Normalizer_init x y yaw) (negb reverse) np_float row' = Ok row.
Proof.
  intros Hlen. destruct row as [|a [|b rest]]; cbn [length] in Hlen; try lia.
  cbn [Normalizer_row np_store]. eexists. split; [reflexivity|].
  split; [reflexivity|].
  cbn [Normalizer_row np_store]. rewrite <- surjective_pairing.
  assert (Hrt : Normalizer_point (Normalizer_init x y yaw) (negb reverse)
                  (Normalizer_point (Normalizer_init x y yaw) reverse (a, b)) = (a, b)).
  { destruct (Normalizer_point_round_trip x y yaw (a, b)) as [H1 H2].
    destruct reverse; assumption. }
  rewrite Hrt. reflexivity.
Qed.

Lemma Normalizer_rows_round_trip (x y yaw : R) (reverse : bool) (cols : nat)
    (rows : list (list R)) :
  (2 <= cols)%nat ->
  Forall (fun r : list R => length r = cols) rows ->
  exists rows' : list (list R),
    mapM (Normalizer_row (Normalizer_init x y yaw) reverse np_float) rows = Ok rows' /\
    length rows' = length rows /\
    Forall (fun r : list R => length r = cols) rows' /\
    mapM (Normalizer_row (Normalizer_init x y yaw) (negb reverse) np_float) rows' = Ok rows.
Proof.
  intros Hcols Hwf.
  destruct (mapM_round_trip
              (Normalizer_row (Normalizer_init x y yaw) reverse np_float)
              (Normalizer_row (Normalizer_init x y yaw) (negb reverse) np_float)
              (fun r r' : list R => length r' = cols) rows)
    as (rows' & Hrun & HF & Hback).
  - intros r Hr. rewrite Forall_forall in Hwf. specialize (Hwf r Hr).
    destruct (Normalizer_row_round_trip x y yaw reverse r) as (r' & H1 & H2 & H3); [lia|].
    exists r'. split; [exact H1|]. split; [lia | exact H3].
  - exists rows'. split; [exact Hrun|].
    split; [symmetry; eapply Forall2_length; exact HF|]. split; [|exact Hback].
    eapply Forall2_second. exact HF.
Qed.

(** On a float array whose data fill its shape and that passes the shape
    assertion, a normalizer built by [__init__] undoes itself, except on an
    array of shape (3,): a call returns an array of the same shape, and the
    call in the other direction on that array gives the points back.  An
    array of shape (3,) passes the assertion too, and the call then raises
    [IndexError], whatever the dtype. *)
Theorem Normalizer_round_trip (x y yaw : R) (points : point_array) (reverse : bool) :
  point_array_wf points ->
  Normalizer_shape_ok points = true ->
  (forall (v : list R) (dtype : np_dtype),
      points = Arr1 v -> length v = 3%nat ->
      Normalizer_call (Normalizer_init x y yaw) dtype points reverse
      = Some (Raise IndexError)) /\
  ((forall v : list R, points = Arr1 v -> length v = 2%nat) ->
   exists moved : point_array,
     Normalizer_call (Normalizer_init x y yaw) np_float points reverse = Some (Ok moved) /\
     point_array_wf moved /\
     Normalizer_shape_ok moved = true /\
     Normalizer_call (Normalizer_init x y yaw) np_float moved (negb reverse)
     = Some (Ok points)).
Proof.
  intros Hwf Hok. split.
  - intros v dtype -> Hv. unfold Normalizer_call. rewrite Hok.
    rewrite Hv. reflexivity.
  - intros Hnot3. unfold Normalizer_call at 1. rewrite Hok.
    destruct points as [v|cols rows|n cols blocks|]; cbn [Normalizer_shape_ok] in Hok.
    + specialize (Hnot3 v eq_refl). rewrite Hnot3. cbn [Nat.eqb].
      destruct (Normalizer_row_round_trip x y yaw reverse v) as (v' & H1 & H2 & H3);
        [lia|].
      rewrite H1. cbn [bind]. exists (Arr1 v'). split; [reflexivity|].
      split; [exact I|]. unfold Normalizer_call. cbn [Normalizer_shape_ok].
      rewrite H2, Hnot3. cbn [Nat.leb Nat.eqb andb]. rewrite H3. split; reflexivity.
    + apply andb_true_iff in Hok as Hc. destruct Hc as (Hc2 & _).
      apply Nat.leb_le in Hc2.
      destruct (Normalizer_rows_round_trip x y yaw reverse cols rows Hc2 Hwf)
        as (rows' & H1 & H2 & H3 & H4).
      rewrite H1. cbn [bind]. exists (Arr2 cols rows'). split; [reflexivity|].
      split; [exact H3|]. unfold Normalizer_call. cbn [Normalizer_shape_ok].
      rewrite Hok, H4. split; reflexivity.
    + apply andb_true_iff in Hok as Hc. destruct Hc as (Hc2 & _).
      apply Nat.leb_le in Hc2. cbn [point_array_wf] in Hwf.
      destruct (mapM_round_trip
                  (mapM (Normalizer_row (Normalizer_init x y yaw) reverse np_float))
                  (mapM (Normalizer_row (Normalizer_init x y yaw) (negb reverse) np_float))
                  (fun b b' : list (list R) =>
                     length b' = n /\ Forall (fun r : list R => length r = cols) b')
                  blocks) as (blocks' & Hrun & HF & Hback).
      * intros b Hb. rewrite Forall_forall in Hwf. destruct (Hwf b Hb) as (Hn & Hrows).
        destruct (Normalizer_rows_round_trip x y yaw reverse cols b Hc2 Hrows)
          as (b' & H1 & H2 & H3 & H4).
        exists b'. split; [exact H1|]. split; [split; [lia | exact H3] | exact H4].
      * rewrite Hrun. cbn [bind]. exists (Arr3 n cols blocks'). split; [reflexivity|].
        split.
        { cbn [point_array_wf]. eapply Forall2_second. exact HF. }
        unfold Normalizer_call. cbn [Normalizer_shape_ok].
        rewrite Hok, Hback. split; reflexivity.
    + discriminate.
Qed.

Lemma Normalizer_round_trip_witness :
  exists moved : point_array,
    Normalizer_call (Normalizer_init 1 2 PI) np_float (Arr2 3 [[3; 4; 7]; [5; 6; 8]]) false
    = Some (Ok moved) /\
    point_array_wf moved /\
    Normalizer_shape_ok moved = true /\
    Normalizer_call (Normalizer_init 1 2 PI) np_float moved true
    = Some (Ok (Arr2 3 [[3; 4; 7]; [5; 6; 8]])).
Proof.
  apply (Normalizer_round_trip 1 2 PI (Arr2 3 [[3; 4; 7]; [5; 6; 8]]) false).
  - repeat constructor.
  - reflexivity.
  - intros v Hv. discriminate.
Defined.

(** Both directions of a normalizer keep the distance of two points, and
    the forward direction of one built by [__init__] sends its position to
    (0, 0). *)
Theorem Normalizer_rigid (self : Normalizer) (reverse : bool) (p q : point) (x y yaw : R) :
  get_dis_p2p (Normalizer_point self reverse p) (Normalizer_point self reverse q)
  = get_dis_p2p p q /\
  Normalizer_point (Normalizer_init x y yaw) false (x, y) = (0, 0) /\
  Normalizer_point (Normalizer_init x y yaw) true (0, 0) = (x, y).
Proof.
  split; [|split].
  - assert (Hrot : forall a b c d angle : R,
               get_dis_p2p (rotate a b angle) (rotate c d angle)
               = np_linalg_norm (a - c, b - d)).
    { intros a b c d angle. rewrite <- np_linalg_norm_vsub, rotate_sub.
      apply rotate_keeps_norm. }
    unfold Normalizer_point. destruct reverse; rewrite Hrot;
      unfold np_linalg_norm, get_dis_p2p, np_square; cbn [fst snd]; f_equal; ring.
  - unfold Normalizer_point, Normalizer_init, rotate;
      cbn [norm_x norm_y norm_yaw norm_origin fst snd]. f_equal; ring.
  - destruct (Normalizer_point_round_trip x y yaw (x, y)) as [H _].
    assert (H0 : Normalizer_point (Normalizer_init x y yaw) false (x, y) = (0, 0)).
    { unfold Normalizer_point, Normalizer_init, rotate;
        cbn [norm_x norm_y norm_yaw norm_origin fst snd]. f_equal; ring. }
    rewrite H0 in H. exact H.
Qed.

(** ** Distance to a segment and to a polyline *)

Lemma get_dis_p2p_triangle (p q r : point) :
  get_dis_p2p p r <= get_dis_p2p p q + get_dis_p2p q r.
Proof.
  exact (triangle (fst p) (snd p) (fst r) (snd r) (fst q) (snd q)).
Qed.

Lemma get_dis_p2p_sq (p q : point) :
  get_dis_p2p p q * get_dis_p2p p q
  = (fst p - fst q) * (fst p - fst q) + (snd p - snd q) * (snd p - snd q).
Proof. unfold get_dis_p2p, np_square. apply sqrt_sqrt. apply sum_squares_nonneg. Qed.

Lemma le_get_dis_p2p (d : R) (p q : point) :
  0 <= d ->
  d * d <= (fst p - fst q) * (fst p - fst q) + (snd p - snd q) * (snd p - snd q) ->
  d <= get_dis_p2p p q.
Proof.
  intros Hd H. rewrite <- get_dis_p2p_sq in H.
  pose proof (get_dis_p2p_nonneg p q). nra.
Qed.

Lemma get_dis_p2p_mono (p a q : point) :
  (fst p - fst a) * (fst p - fst a) + (snd p - snd a) * (snd p - snd a)
  <= (fst p - fst q) * (fst p - fst q) + (snd p - snd q) * (snd p - snd q) ->
  get_dis_p2p p a <= get_dis_p2p p q.
Proof. intros H. unfold get_dis_p2p, np_square. apply sqrt_le_1_alt. exact H. Qed.

Lemma segment_point_0 (a b : point) : segment_point a b 0 = a.
Proof. destruct a; unfold segment_point; cbn [fst snd]. f_equal; ring. Qed.

Lemma segment_point_1 (a b : point) : segment_point a b 1 = b.
Proof. destruct a, b; unfold segment_point; cbn [fst snd]. f_equal; ring. Qed.

Lemma segment_point_near (a b : point) (t : R) :
  0 <= t <= 1 -> get_dis_p2p (segment_point a b t) a <= get_dis_p2p a b.
Proof.
  intros Ht. unfold get_dis_p2p, np_square, segment_point; cbn [fst snd].
  apply sqrt_le_1_alt.
  replace (fst a + t * (fst b - fst a) - fst a) with (- t * (fst a - fst b)) by ring.
  replace (snd a + t * (snd b - snd a) - snd a) with (- t * (snd a - snd b)) by ring.
  generalize (fst a - fst b) (snd a - snd b). intros u v.
  pose proof (Rle_0_sqr u) as H1. pose proof (Rle_0_sqr v) as H2. unfold Rsqr in *.
  assert (Ht2 : t * t <= 1) by nra.
  replace (- t * u * (- t * u) + - t * v * (- t * v)) with (t * t * (u * u + v * v))
    by ring.
  nra.
Qed.

(** The perpendicular case: the foot of the perpendicular is on the
    segment and the value is the distance to it, the least one. *)
Lemma perpendicular_case (a b p : point) :
  0 < get_dis_p2p a b ->
  0 <= np_dot (vsub p a) (vsub b a) ->
  0 <= np_dot (vsub p b) (vsub a b) ->
  let d := Rabs (np_cross (vsub b a) (vsub p a)) / get_dis_p2p a b in
  (exists t : R, 0 <= t <= 1 /\ d = get_dis_p2p p (segment_point a b t)) /\
  (forall t : R, d <= get_dis_p2p p (segment_point a b t)).
Proof.
  intros HL H1 H2 d.
  pose proof (get_dis_p2p_sq a b) as HLL.
  set (L := get_dis_p2p a b) in *.
  destruct a as [ax ay], b as [bx by_], p as [px py].
  unfold np_dot, np_cross, vsub, segment_point in *; cbn [fst snd] in *.
  set (ux := bx - ax) in *. set (uy := by_ - ay) in *.
  set (wx := px - ax) in *. set (wy := py - ay) in *.
  assert (HL2 : L * L = ux * ux + uy * uy) by (rewrite HLL; unfold ux, uy; ring).
  assert (Hd0 : 0 <= d).
  { unfold d. apply Rmult_le_pos; [apply Rabs_pos | left; apply Rinv_0_lt_compat; exact HL]. }
  assert (Hdd : d * d * (L * L) = (ux * wy - uy * wx) * (ux * wy - uy * wx)).
  { pose proof (Rsqr_abs (ux * wy - uy * wx)) as Ha. unfold Rsqr in Ha.
    unfold d.
    replace (Rabs (ux * wy - uy * wx) / L * (Rabs (ux * wy - uy * wx) / L) * (L * L))
      with (Rabs (ux * wy - uy * wx) * Rabs (ux * wy - uy * wx)) by (field; lra).
    symmetry; exact Ha. }
  assert (HLpos : 0 < L * L) by nra.
  split.
  - exists ((wx * ux + wy * uy) / (L * L)).
    assert (Ht0 : 0 <= (wx * ux + wy * uy) / (L * L)).
    { apply Rmult_le_pos; [exact H1 | left; apply Rinv_0_lt_compat; exact HLpos]. }
    assert (Ht1 : (wx * ux + wy * uy) / (L * L) <= 1).
    { apply (Rmult_le_reg_r (L * L)); [exact HLpos|].
      replace ((wx * ux + wy * uy) / (L * L) * (L * L)) with (wx * ux + wy * uy)
        by (field; lra).
      replace ((px - bx) * (ax - bx) + (py - by_) * (ay - by_))
        with (ux * ux + uy * uy - (wx * ux + wy * uy)) in H2 by (unfold ux, uy, wx, wy; ring).
      lra. }
    split; [split; assumption|].
    set (t := (wx * ux + wy * uy) / (L * L)) in *.
    assert (HtL : t * (L * L) = wx * ux + wy * uy) by (unfold t; field; lra).
    symmetry. unfold get_dis_p2p, np_square; cbn [fst snd].
    apply sqrt_value; [exact Hd0|].
    apply (Rmult_eq_reg_r (L * L)); [|lra].
    rewrite Hdd.
    replace (px - (ax + t * ux)) with (wx - t * ux) by (unfold wx; ring).
    replace (py - (ay + t * uy)) with (wy - t * uy) by (unfold wy; ring).
    clear Ht0 Ht1 Hdd Hd0 H1 H2. clearbody t.
    replace (((wx - t * ux) * (wx - t * ux) + (wy - t * uy) * (wy - t * uy)) * (L * L))
      with ((wx * wx + wy * wy) * (L * L) - 2 * (t * (L * L)) * (wx * ux + wy * uy)
            + (t * (L * L)) * (t * (ux * ux + uy * uy))) by ring.
    rewrite <- HL2, HtL, HL2. ring.
  - intros t. apply le_get_dis_p2p; [exact Hd0|]. cbn [fst snd].
    apply (Rmult_le_reg_r (L * L)); [exact HLpos|].
    rewrite Hdd.
    replace (px - (ax + t * ux)) with (wx - t * ux) by (unfold wx; ring).
    replace (py - (ay + t * uy)) with (wy - t * uy) by (unfold wy; ring).
    rewrite HL2.
    pose proof (Rle_0_sqr (ux * (wx - t * ux) + uy * (wy - t * uy))) as H0.
    unfold Rsqr in H0.
    replace (((wx - t * ux) * (wx - t * ux) + (wy - t * uy) * (wy - t * uy))
             * (ux * ux + uy * uy))
      with ((ux * wy - uy * wx) * (ux * wy - uy * wx)
            + (ux * (wx - t * ux) + uy * (wy - t * uy))
              * (ux * (wx - t * ux) + uy * (wy - t * uy))) by ring.
    lra.
Qed.

(** [get_dis_segment2point] is the distance to a point of the segment; on
    a segment of length at least 1e-7 no point of the segment is closer,
    and on a shorter one, where the value is the distance to [point_a], no
    point of the segment is closer by 1e-7 or more. *)
Theorem get_dis_segment2point_least (a b p : point) :
  (exists t : R,
      0 <= t <= 1 /\
      get_dis_segment2point (a, b) p = get_dis_p2p p (segment_point a b t)) /\
  (forall t : R,
      0 <= t <= 1 ->
      get_dis_segment2point (a, b) p < get_dis_p2p p (segment_point a b t) + 1e-7) /\
  (1e-7 <= get_dis_p2p a b ->
   forall t : R,
     0 <= t <= 1 ->
     get_dis_segment2point (a, b) p <= get_dis_p2p p (segment_point a b t)).
Proof.
  assert (Hmain :
    (exists t : R,
        0 <= t <= 1 /\
        get_dis_segment2point (a, b) p = get_dis_p2p p (segment_point a b t)) /\
    ((get_dis_p2p a b < 1e-7 /\ get_dis_segment2point (a, b) p = get_dis_p2p p a) \/
     (1e-7 <= get_dis_p2p a b /\
      forall t : R,
        0 <= t <= 1 ->
        get_dis_segment2point (a, b) p <= get_dis_p2p p (segment_point a b t)))).
  { unfold get_dis_segment2point; cbn [fst snd].
    destruct (Rlt_dec (get_dis_p2p a b) 1e-7) as [Hshort|Hlong].
    { split; [exists 0; rewrite segment_point_0; split; [lra | reflexivity]|].
      left; split; [exact Hshort | reflexivity]. }
    destruct (Rlt_dec (np_dot (vsub p a) (vsub b a)) 0) as [Hbefore|Hnb].
    { split; [exists 0; rewrite segment_point_0; split; [lra | reflexivity]|].
      right; split; [lra|]. intros t Ht. apply get_dis_p2p_mono.
      unfold np_dot, vsub, segment_point in *; cbn [fst snd] in *.
      pose proof (Rle_0_sqr (t * (fst b - fst a))) as H1.
      pose proof (Rle_0_sqr (t * (snd b - snd a))) as H2. unfold Rsqr in *.
      nra. }
    destruct (Rlt_dec (np_dot (vsub p b) (vsub a b)) 0) as [Hafter|Hna].
    { split; [exists 1; rewrite segment_point_1; split; [lra | reflexivity]|].
      right; split; [lra|]. intros t Ht. apply get_dis_p2p_mono.
      unfold np_dot, vsub, segment_point in *; cbn [fst snd] in *.
      pose proof (Rle_0_sqr ((1 - t) * (fst b - fst a))) as H1.
      pose proof (Rle_0_sqr ((1 - t) * (snd b - snd a))) as H2. unfold Rsqr in *.
      nra. }
    destruct (perpendicular_case a b p) as [Hex Hall]; [lra | lra | lra |].
    split; [exact Hex|]. right; split; [lra|]. intros t _. apply Hall. }
  destruct Hmain as [Hex Hcases]. split; [exact Hex|]. split.
  - intros t Ht. destruct Hcases as [[Hshort ->]|[_ Hall]].
    + pose proof (get_dis_p2p_triangle p (segment_point a b t) a).
      pose proof (segment_point_near a b t Ht). lra.
    + specialize (Hall t Ht). lra.
  - intros Hlong t Ht. destruct Hcases as [[Hshort _]|[_ Hall]]; [lra | exact (Hall t Ht)].
Qed.

Lemma get_dis_segment2point_least_witness :
  get_dis_segment2point ((0, 0), (1, 0)) (0, 1)
  <= get_dis_p2p (0, 1) (segment_point (0, 0) (1, 0) 0.5).
Proof.
  apply (get_dis_segment2point_least (0, 0) (1, 0) (0, 1)).
  - rewrite (get_dis_p2p_value (0, 0) (1, 0) 1) by (cbn [fst snd]; lra). lra.
  - lra.
Defined.

Lemma polyline_loop_le (polyline : list point) (p : point) (dis : R) :
  polyline_loop polyline p dis <= dis.
Proof.
  revert dis; induction polyline as [|a tl IH]; intros dis; [simpl; lra|].
  destruct tl as [|b tl']; [simpl; lra|].
  change (polyline_loop (a :: b :: tl') p dis)
    with (polyline_loop (b :: tl') p (Rmin dis (get_dis_segment2point (a, b) p))).
  eapply Rle_trans; [apply IH | apply Rmin_l].
Qed.

Lemma polyline_loop_segments (polyline : list point) (p : point) (dis : R) :
  (forall (i : nat) (a b : point),
      nth_error polyline i = Some a -> nth_error polyline (S i) = Some b ->
      polyline_loop polyline p dis <= get_dis_segment2point (a, b) p) /\
  (polyline_loop polyline p dis = dis \/
   exists (i : nat) (a b : point),
     nth_error polyline i = Some a /\ nth_error polyline (S i) = Some b /\
     polyline_loop polyline p dis = get_dis_segment2point (a, b) p).
Proof.
  revert dis; induction polyline as [|a tl IH]; intros dis.
  - split; [intros i x y H; destruct i; discriminate | left; reflexivity].
  - destruct tl as [|b tl'].
    + split; [intros [|i] x y H1 H2; [discriminate | destruct i; discriminate]
             | left; reflexivity].
    + change (polyline_loop (a :: b :: tl') p dis)
        with (polyline_loop (b :: tl') p (Rmin dis (get_dis_segment2point (a, b) p))).
      destruct (IH (Rmin dis (get_dis_segment2point (a, b) p))) as [Hle Hval].
      split.
      * intros [|i] x y Hx Hy.
        -- injection Hx as <-. injection Hy as <-.
           eapply Rle_trans; [apply polyline_loop_le | apply Rmin_r].
        -- exact (Hle i x y Hx Hy).
      * destruct Hval as [Heq|(i & x & y & Hx & Hy & Heq)].
        -- rewrite Heq. unfold Rmin. destruct (Rle_dec _ _); [left; reflexivity|].
           right. exists 0%nat, a, b. auto.
        -- right. exists (S i), x, y. auto.
Qed.

(** [get_dis_polyline2point] never exceeds its start value 1e9, which is
    what it returns for a polyline of fewer than two points; it is at most
    the distance to every segment of the polyline, and it is 1e9 or the
    distance to one of the segments. *)
Theorem get_dis_polyline2point_spec (polyline : list point) (p : point) :
  get_dis_polyline2point polyline p <= 1e9 /\
  ((length polyline < 2)%nat -> get_dis_polyline2point polyline p = 1e9) /\
  (forall (i : nat) (a b : point),
      nth_error polyline i = Some a -> nth_error polyline (S i) = Some b ->
      get_dis_polyline2point polyline p <= get_dis_segment2point (a, b) p) /\
  (get_dis_polyline2point polyline p = 1e9 \/
   exists (i : nat) (a b : point),
     nth_error polyline i = Some a /\ nth_error polyline (S i) = Some b /\
     get_dis_polyline2point polyline p = get_dis_segment2point (a, b) p).
Proof.
  unfold get_dis_polyline2point.
  split; [apply polyline_loop_le|]. split.
  - destruct polyline as [|a [|b tl]]; simpl length; intros H; try reflexivity. lia.
  - apply polyline_loop_segments.
Qed.

Lemma get_dis_polyline2point_spec_witness :
  get_dis_polyline2point [(0, 0)] (5, 5) = 1e9.
Proof.
  apply (get_dis_polyline2point_spec [(0, 0)] (5, 5)). simpl; lia.
Defined.

(** ** The nearest goal and the most offending goal *)

Lemma argmin_from_inv (full pre l : list R) (best_i : nat) (best : R) :
  full = pre ++ l ->
  nth_error full best_i = Some best ->
  (best_i < length pre)%nat ->
  (forall y : R, In y pre -> best <= y) ->
  (forall (j : nat) (y : R), (j < best_i)%nat -> nth_error full j = Some y -> best < y) ->
  exists v : R,
    nth_error full (argmin_from best_i best (length pre) l) = Some v /\
    (forall y : R, In y full -> v <= y) /\
    (forall (j : nat) (y : R),
        (j < argmin_from best_i best (length pre) l)%nat ->
        nth_error full j = Some y -> v < y).
Proof.
  revert pre best_i best; induction l as [|x tl IH];
    intros pre best_i best Hfull Hb Hlt Hpre Hfirst.
  - rewrite app_nil_r in Hfull. subst full. exists best. cbn [argmin_from]. auto.
  - cbn [argmin_from].
    assert (Hfull' : full = (pre ++ [x]) ++ tl) by (rewrite <- app_assoc; exact Hfull).
    assert (Hlen : length (pre ++ [x]) = S (length pre))
      by (rewrite length_app; simpl; lia).
    assert (Hx : nth_error full (length pre) = Some x).
    { rewrite Hfull, nth_error_app2 by lia. rewrite Nat.sub_diag. reflexivity. }
    destruct (Rlt_dec x best) as [Hnew|Hold].
    + rewrite <- Hlen. apply IH; [exact Hfull' | exact Hx | lia | |].
      * intros y Hy. apply in_app_or in Hy. destruct Hy as [Hy|[<-|[]]]; [|lra].
        specialize (Hpre y Hy). lra.
      * intros j y Hj Hy. rewrite Hfull, nth_error_app1 in Hy by exact Hj.
        apply nth_error_In in Hy. specialize (Hpre y Hy). lra.
    + rewrite <- Hlen. apply IH; [exact Hfull' | exact Hb | lia | | exact Hfirst].
      intros y Hy. apply in_app_or in Hy. destruct Hy as [Hy|[<-|[]]]; [auto | lra].
Qed.

(** [np.argmin] gives the first index of the least element. *)
Lemma np_argmin_spec (l : list R) (i : nat) :
  np_argmin l = Ok i ->
  exists v : R,
    nth_error l i = Some v /\
    (forall y : R, In y l -> v <= y) /\
    (forall (j : nat) (y : R), (j < i)%nat -> nth_error l j = Some y -> v < y).
Proof.
  destruct l as [|x tl]; [discriminate|]. cbn [np_argmin]. intros H; injection H as <-.
  apply (argmin_from_inv (x :: tl) [x] tl 0 x); try reflexivity.
  - simpl; lia.
  - intros y [<-|[]]; lra.
  - intros j y Hj; lia.
Qed.

Lemma get_dis_batch_nth (points : list point) (g : point) (i : nat) :
  nth_error (get_dis_batch points g) i
  = option_map (fun p => get_dis_p2p p g) (nth_error points i).
Proof. unfold get_dis_batch. rewrite nth_error_map. reflexivity. Qed.

(** The index [np.argmin(get_dis_batch(goals, g))]: the first goal nearest
    to [g]. *)
Lemma nearest_goal_spec (goals : list point) (g : point) (i : nat) :
  np_argmin (get_dis_batch goals g) = Ok i ->
  exists nearest : point,
    nth_error goals i = Some nearest /\
    (forall goal : point, In goal goals -> get_dis_p2p nearest g <= get_dis_p2p goal g) /\
    (forall (j : nat) (goal : point),
        (j < i)%nat -> nth_error goals j = Some goal ->
        get_dis_p2p nearest g < get_dis_p2p goal g).
Proof.
  intros H. apply np_argmin_spec in H. destruct H as (v & Hv & Hmin & Hfirst).
  rewrite get_dis_batch_nth in Hv.
  destruct (nth_error goals i) as [nearest|] eqn:E; [|discriminate].
  injection Hv as <-. exists nearest. split; [reflexivity|]. split.
  - intros goal Hg. apply Hmin. unfold get_dis_batch.
    apply in_map_iff. exists goal. split; [reflexivity | exact Hg].
  - intros j goal Hj Hg. apply (Hfirst j); [exact Hj|].
    rewrite get_dis_batch_nth, Hg. reflexivity.
Qed.

Lemma np_setitem_nth {A : Type} (l l' : list A) (k : nat) (v : A) :
  np_setitem l k v = Ok l' ->
  length l' = length l /\
  forall j : nat, nth_error l' j = if Nat.eqb j k then Some v else nth_error l j.
Proof.
  revert l' k; induction l as [|a tl IH]; intros l' k H; [destruct k; discriminate|].
  destruct k as [|k]; cbn [np_setitem] in H.
  - injection H as <-. split; [reflexivity|]. intros [|j]; reflexivity.
  - destruct (np_setitem tl k v) as [tl'| | |] eqn:E; try discriminate.
    cbn [bind] in H. injection H as <-.
    destruct (IH tl' k E) as [Hlen Hnth].
    split; [simpl; congruence|]. intros [|j]; [reflexivity | apply Hnth].
Qed.

(** With a ground-truth goal [g], the one-hot targets of a non-empty
    lattice are 1 at the first goal nearest to [g] and 0 at every other
    goal; an empty lattice raises [ValueError]. *)
Theorem get_dense_goal_targets_one_hot_spec (dense_goals : list point) (m : mapping)
    (g : point) :
  py_index (labels m) (-1) = Ok g ->
  (dense_goals = [] -> get_dense_goal_targets_one_hot dense_goals m = Raise ValueError) /\
  (dense_goals <> [] ->
   exists (targets : list R) (idx : nat) (nearest : point),
     get_dense_goal_targets_one_hot dense_goals m = Ok targets /\
     length targets = length dense_goals /\
     nth_error dense_goals idx = Some nearest /\
     (forall goal : point,
         In goal dense_goals -> get_dis_p2p nearest g <= get_dis_p2p goal g) /\
     (forall (j : nat) (goal : point),
         (j < idx)%nat -> nth_error dense_goals j = Some goal ->
         get_dis_p2p nearest g < get_dis_p2p goal g) /\
     (forall j : nat,
         (j < length dense_goals)%nat ->
         nth_error targets j = Some (if Nat.eqb j idx then 1 else 0))).
Proof.
  intros Hg. unfold get_dense_goal_targets_one_hot. rewrite Hg. cbn [bind]. split.
  - intros ->. reflexivity.
  - intros Hne.
    destruct (np_argmin_ok (get_dis_batch dense_goals g)) as (idx & Hidx & Hlt).
    { intros H. apply (f_equal (@length R)) in H. rewrite get_dis_batch_length in H.
      destruct dense_goals; [congruence | discriminate]. }
    rewrite get_dis_batch_length in Hlt.
    destruct (nearest_goal_spec dense_goals g idx Hidx) as (nearest & Hn & Hmin & Hfirst).
    rewrite Hidx. cbn [bind].
    destruct (np_setitem_ok (repeat 0 (length dense_goals)) idx 1) as (targets & Ht & Hlen);
      [rewrite repeat_length; exact Hlt|].
    rewrite repeat_length in Hlen.
    exists targets, idx, nearest. split; [exact Ht|]. split; [exact Hlen|].
    split; [exact Hn|]. split; [exact Hmin|]. split; [exact Hfirst|].
    intros j Hj. destruct (np_setitem_nth _ _ _ _ Ht) as [_ Hnth].
    rewrite Hnth. destruct (Nat.eqb j idx); [reflexivity|].
    apply nth_error_repeat. exact Hj.
Qed.

Lemma get_dense_goal_targets_one_hot_spec_witness :
  get_dense_goal_targets_one_hot [] (mk_mapping [(0, 0)] None) = Raise ValueError.
Proof.
  apply (get_dense_goal_targets_one_hot_spec [] (mk_mapping [(0, 0)] None) (0, 0));
    reflexivity.
Defined.

Lemma sse_loop_inv (np_roots : list R -> list complex) (full : list point)
    (scores : list R) (mp : mapping) (g : point) (m eps : R)
    (goals : list point) (i : nat) (mo_idx : option nat) (mo_score : ext) :
  (forall k : nat, nth_error goals k = nth_error full (i + k)) ->
  (i + length goals <= length scores)%nat ->
  sse_choice np_roots full scores mp g m eps i mo_idx ->
  match mo_idx, mo_score with
  | None, Inf => True
  | Some j, Fin s => nth_error scores j = Some s
  | _, _ => False
  end ->
  exists mo : option nat,
    sse_loop np_roots goals i scores mp g m eps mo_idx mo_score = Ok mo /\
    sse_choice np_roots full scores mp g m eps (i + length goals) mo.
Proof.
  revert i mo_idx mo_score; induction goals as [|goal tl IH];
    intros i mo_idx mo_score Hsuf Hlen Hinv Hst.
  - exists mo_idx. split; [reflexivity|]. simpl. rewrite Nat.add_0_r. exact Hinv.
  - cbn [sse_loop]. simpl length in *. rewrite py_index_nat.
    destruct (nth_error scores i) as [score|] eqn:Es;
      [|apply nth_error_None in Es; lia].
    cbn [bind].
    assert (Hgoal : nth_error full i = Some goal)
      by (rewrite <- (Nat.add_0_r i), <- Hsuf; reflexivity).
    assert (Hsuf' : forall k : nat, nth_error tl k = nth_error full (S i + k)).
    { intros k. replace (S i + k)%nat with (i + S k)%nat by lia.
      rewrite <- Hsuf. reflexivity. }
    replace (i + S (length tl))%nat with (S i + length tl)%nat by lia.
    destruct (traj_dist_of_total np_roots goal mp) as (td & Htd & _ & _).
    (* what index [i] adds when the state is kept *)
    assert (Hkeep :
      (forall s : R, sse_eligible np_roots full scores mp g m eps i s ->
                     match mo_score with Inf => False | Fin b => b <= s end) ->
      sse_choice np_roots full scores mp g m eps (S i) mo_idx).
    { intros Hi. destruct mo_idx as [j|]; destruct mo_score as [b|]; try contradiction.
      - destruct Hinv as (Hj & s & Hel & Hbest). split; [lia|].
        exists s. split; [exact Hel|]. intros j' s' Hj' Hel'.
        destruct (Nat.eq_dec j' i) as [->|Hne].
        + specialize (Hi s' Hel').
          destruct Hel as (_ & _ & _ & Hsj & _). rewrite Hst in Hsj. injection Hsj as ->.
          split; [exact Hi | lia].
        + apply Hbest; [lia | exact Hel'].
      - intros j s Hj Hel. destruct (Nat.eq_dec j i) as [->|Hne].
        + exact (Hi s Hel).
        + apply (Hinv j s); [lia | exact Hel]. }
    destruct (Rlt_dec score
                (match mo_score with Inf => m | Fin s => Rmin s m end)) as [Hlow|Hhigh].
    + rewrite Htd. cbn [bind].
      destruct (Rle_dec eps (get_dis_p2p goal g + td)) as [Hfar|Hnear].
      * apply IH; [exact Hsuf' | lia | | exact Es].
        assert (Hm : score < m).
        { destruct mo_score as [b|]; [|exact Hlow].
          pose proof (Rmin_r b m). lra. }
        split; [lia|]. exists score. split.
        { exists goal, td. auto. }
        intros j' s' Hj' Hel'.
        destruct (Nat.eq_dec j' i) as [->|Hne].
        -- destruct Hel' as (_ & _ & _ & Hs' & _). rewrite Es in Hs'. injection Hs' as <-.
           split; [lra | lia].
        -- assert (Hlt : (j' < i)%nat) by lia.
           destruct mo_idx as [j|]; destruct mo_score as [b|]; try contradiction.
           ++ destruct Hinv as (_ & s & Hel & Hbest).
              destruct (Hbest j' s' Hlt Hel') as [Hle _].
              destruct Hel as (_ & _ & _ & Hsj & _). rewrite Hst in Hsj. injection Hsj as ->.
              pose proof (Rmin_l s m). split; intros; lra.
           ++ exfalso. exact (Hinv j' s' Hlt Hel').
      * apply IH; [exact Hsuf' | lia | | exact Hst].
        apply Hkeep. intros s (goal' & td' & Hg' & _ & _ & Htd' & Hfar).
        rewrite Hgoal in Hg'. injection Hg' as <-. rewrite Htd in Htd'.
        injection Htd' as <-. lra.
    + apply IH; [exact Hsuf' | lia | | exact Hst].
      apply Hkeep. intros s (goal' & td' & _ & Hs & Hm & _).
      rewrite Es in Hs. injection Hs as <-.
      destruct mo_score as [b|]; [|lra].
      unfold Rmin in Hhigh. destruct (Rle_dec b m); lra.
Qed.

(** With a ground-truth goal, a non-empty lattice and a score for every
    goal, [get_sse_prep] returns the first goal nearest to the ground truth
    and, as most offending goal, the first of least score among the goals
    whose score is below the margin and whose combined distance is at least
    [eps]; it returns [None] for it exactly when there is no such goal. *)
Theorem get_sse_prep_spec (np_roots : list R -> list complex) (dense_goals : list point)
    (dense_goal_scores : list R) (mp : mapping) (m eps : R) (g : point) :
  py_index (labels mp) (-1) = Ok g ->
  dense_goals <> [] ->
  (length dense_goals <= length dense_goal_scores)%nat ->
  exists (target_energy_idx : nat) (mo_idx : option nat) (nearest : point),
    get_sse_prep np_roots dense_goals dense_goal_scores mp m eps
    = Ok (target_energy_idx, mo_idx) /\
    nth_error dense_goals target_energy_idx = Some nearest /\
    (forall goal : point,
        In goal dense_goals -> get_dis_p2p nearest g <= get_dis_p2p goal g) /\
    sse_choice np_roots dense_goals dense_goal_scores mp g m eps
      (length dense_goals) mo_idx.
Proof.
  intros Hg Hne Hlen. unfold get_sse_prep. rewrite Hg. cbn [bind].
  destruct (np_argmin_ok (get_dis_batch dense_goals g)) as (idx & Hidx & _).
  { intros H. apply (f_equal (@length R)) in H. rewrite get_dis_batch_length in H.
    destruct dense_goals; [congruence | discriminate]. }
  destruct (nearest_goal_spec dense_goals g idx Hidx) as (nearest & Hn & Hmin & _).
  rewrite Hidx. cbn [bind].
  destruct (sse_loop_inv np_roots dense_goals dense_goal_scores mp g m eps
              dense_goals 0 None Inf) as (mo & Hmo & Hchoice).
  - intros k. reflexivity.
  - simpl; exact Hlen.
  - intros j s Hj. lia.
  - exact I.
  - rewrite Hmo. cbn [bind]. exists idx, mo, nearest. auto.
Qed.

Lemma get_sse_prep_spec_witness :
  exists (target_energy_idx : nat) (mo_idx : option nat),
    get_sse_prep (fun _ => []) [(0, 0); (20, 0)] [1; 2] (mk_mapping [(0, 0)] None) 10 10
    = Ok (target_energy_idx, mo_idx).
Proof.
  destruct (get_sse_prep_spec (fun _ => []) [(0, 0); (20, 0)] [1; 2]
              (mk_mapping [(0, 0)] None) 10 10 (0, 0))
    as (t & mo & _ & H & _).
  - reflexivity.
  - discriminate.
  - simpl; lia.
  - exists t, mo. exact H.
Defined.

(** ** The integer lattice *)

Lemma py_range_In (lo hi i : Z) : In i (py_range lo hi) <-> (lo <= i < hi)%Z.
Proof.
  unfold py_range. rewrite in_map_iff. split.
  - intros (k & <- & Hk). apply in_seq in Hk. lia.
  - intros Hi. exists (Z.to_nat (i - lo)). split; [lia|]. apply in_seq. lia.
Qed.

Lemma cell_eqb_eq (p q : Z * Z) : cell_eqb p q = true <-> p = q.
Proof.
  unfold cell_eqb. rewrite andb_true_iff, !Z.eqb_eq.
  destruct p, q; cbn [fst snd]. split; [intros [-> ->]; reflexivity|].
  intros H; injection H; auto.
Qed.

Lemma cell_set_spec (grid : list (Z * Z)) (key : Z * Z) :
  (In key grid /\ cell_set grid key = grid) \/
  (~ In key grid /\ cell_set grid key = grid ++ [key]).
Proof.
  unfold cell_set. destruct (existsb (cell_eqb key) grid) eqn:E.
  - left. split; [|reflexivity].
    apply existsb_exists in E. destruct E as (q & Hq & Heq).
    apply cell_eqb_eq in Heq. subst. exact Hq.
  - right. split; [|reflexivity]. intros Hin.
    assert (existsb (cell_eqb key) grid = true)
      by (apply existsb_exists; exists key; split; [exact Hin | apply cell_eqb_eq; reflexivity]).
    congruence.
Qed.

Lemma cell_set_fold (keys grid : list (Z * Z)) :
  NoDup grid ->
  NoDup (fold_left cell_set keys grid) /\
  forall k : Z * Z, In k (fold_left cell_set keys grid) <-> In k grid \/ In k keys.
Proof.
  revert grid; induction keys as [|key tl IH]; intros grid Hnd.
  - simpl. split; [exact Hnd | intros k; tauto].
  - cbn [fold_left].
    destruct (cell_set_spec grid key) as [[Hin ->]|[Hnin ->]].
    + destruct (IH grid Hnd) as [Hnd' Hin'].
      split; [exact Hnd'|]. intros k. rewrite Hin'. simpl.
      split; [tauto|]. intros [H|[<-|H]]; auto.
    + assert (Hnd2 : NoDup (grid ++ [key])).
      { apply NoDup_app; [exact Hnd | repeat constructor; intros [] |].
        intros x Hx [<-|[]]. contradiction. }
      destruct (IH (grid ++ [key]) Hnd2) as [Hnd' Hin'].
      split; [exact Hnd'|]. intros k. rewrite Hin', in_app_iff. simpl. tauto.
Qed.

Lemma fold_left_flat_map {A B C : Type} (f : A -> C -> A) (h : B -> list C)
    (l : list B) (a : A) :
  fold_left (fun acc b => fold_left f (h b) acc) l a = fold_left f (flat_map h l) a.
Proof.
  revert a; induction l as [|b tl IH]; intros a; [reflexivity|].
  cbn [fold_left flat_map]. rewrite fold_left_app. apply IH.
Qed.

Lemma fold_left_pointwise {A B : Type} (f g : A -> B -> A) (l : list B) (a : A) :
  (forall (x : A) (b : B), f x b = g x b) -> fold_left f l a = fold_left g l a.
Proof.
  intros H. revert a; induction l as [|b tl IH]; intros a; [reflexivity|].
  cbn [fold_left]. rewrite H. apply IH.
Qed.

Lemma fold_left_of_map {A B C : Type} (f : A -> C -> A) (h : B -> C) (l : list B) (a : A) :
  fold_left (fun acc b => f acc (h b)) l a = fold_left f (map h l) a.
Proof. revert a; induction l as [|b tl IH]; intros a; [reflexivity | apply IH]. Qed.

(** [get_neighbour_points] lists, without repetition, the integer points
    whose two coordinates are within [neighbour_dis] of the rounded
    coordinates of one of the input points. *)
Theorem get_neighbour_points_spec (points : list point) (neighbour_dis : Z) :
  NoDup (get_neighbour_points points neighbour_dis) /\
  forall a b : Z,
    In (a, b) (get_neighbour_points points neighbour_dis) <->
    exists p : point,
      In p points /\
      (Z.abs (a - py_round (fst p)) <= neighbour_dis)%Z /\
      (Z.abs (b - py_round (snd p)) <= neighbour_dis)%Z.
Proof.
  set (rng := py_range (- neighbour_dis) (neighbour_dis + 1)).
  set (cells := fun p : point =>
                  flat_map (fun i => map (fun j => (py_round (fst p) + i,
                                                    py_round (snd p) + j)%Z) rng) rng).
  assert (Heq : get_neighbour_points points neighbour_dis
                = fold_left cell_set (flat_map cells points) []).
  { unfold get_neighbour_points. fold rng.
    rewrite <- fold_left_flat_map. apply fold_left_pointwise. intros grid p.
    unfold cells. rewrite <- fold_left_flat_map. apply fold_left_pointwise.
    intros g i. apply fold_left_of_map. }
  rewrite Heq. destruct (cell_set_fold (flat_map cells points) [] (NoDup_nil _)) as [Hnd Hin].
  split; [exact Hnd|]. intros a b. rewrite Hin, in_flat_map. simpl.
  split.
  - intros [[]|(p & Hp & Hc)]. exists p. split; [exact Hp|].
    unfold cells in Hc. apply in_flat_map in Hc. destruct Hc as (i & Hi & Hc).
    apply in_map_iff in Hc. destruct Hc as (j & Hab & Hj). injection Hab as <- <-.
    apply py_range_In in Hi, Hj. lia.
  - intros (p & Hp & Ha & Hb). right. exists p. split; [exact Hp|].
    unfold cells. apply in_flat_map. exists (a - py_round (fst p))%Z. split.
    + apply py_range_In. lia.
    + apply in_map_iff. exists (b - py_round (snd p))%Z. split.
      * f_equal; lia.
      * apply py_range_In. lia.
Qed.

(** ** Deduplication: what the output holds *)

Lemma remove_repeated_loop_members (d : Z) (points grid : list point) :
  exists out : list point,
    remove_repeated_loop points (PyInt d) grid = Ok out /\
    forall k : point,
      In k out <->
      In k grid \/ exists p : point, In p points /\ get_hash_point (PyInt d) p = Ok k.
Proof.
  revert grid; induction points as [|p tl IH]; intros grid.
  - exists grid. split; [reflexivity|]. intros k. split; [auto|].
    intros [H|(p & [] & _)]; exact H.
  - cbn [remove_repeated_loop]. rewrite get_hash_point_int. cbn [bind].
    set (key := (IZR (py_round (fst p * powerRZ 10 d)) / powerRZ 10 d,
                 IZR (py_round (snd p * powerRZ 10 d)) / powerRZ 10 d)).
    destruct (IH (grid_set grid key)) as (out & Hout & Hin).
    exists out. split; [exact Hout|]. intros k. rewrite Hin.
    assert (Hset : In k (grid_set grid key) <-> In k grid \/ k = key).
    { destruct (grid_set_spec grid key) as [[Hk ->]|[_ ->]].
      - split; [auto | intros [H| ->]; assumption].
      - rewrite in_app_iff. simpl. split; [intros [H|[<-|[]]]; auto | intros [H| ->]; auto]. }
    rewrite Hset. split.
    + intros [[H| ->]|(q & Hq & Hk)]; auto.
      * right. exists p. split; [left; reflexivity | apply get_hash_point_int].
      * right. exists q. split; [right; exact Hq | exact Hk].
    + intros [H|(q & [<-|Hq] & Hk)]; auto.
      * left; right. rewrite get_hash_point_int in Hk. injection Hk as <-. reflexivity.
      * right. exists q. auto.
Qed.

(** With an integer number of decimals [get_points_remove_repeated]
    returns the rounded pairs of its points, each once, and maps its own
    output to itself; with a float as number of decimals it raises
    [TypeError] on every non-empty input and returns the empty list on the
    empty one. *)
Theorem get_points_remove_repeated_spec (points : list point) :
  (forall d : Z,
      exists out : list point,
        get_points_remove_repeated points (PyInt d) = Ok out /\
        NoDup out /\
        (forall k : point,
            In k out <->
            exists p : point, In p points /\ get_hash_point (PyInt d) p = Ok k) /\
        get_points_remove_repeated out (PyInt d) = Ok out) /\
  (forall r : R,
      get_points_remove_repeated points (PyFloat r)
      = match points with [] => Ok [] | _ :: _ => Raise TypeError end).
Proof.
  split.
  - intros d.
    destruct (get_points_remove_repeated_idempotent d points) as (out & Hout & Hnd & Hid).
    exists out. split; [exact Hout|]. split; [exact Hnd|]. split; [|exact Hid].
    destruct (remove_repeated_loop_members d points []) as (out' & Hout' & Hin).
    unfold get_points_remove_repeated in Hout. rewrite Hout in Hout'. injection Hout' as <-.
    intros k. rewrite Hin. simpl. tauto.
  - intros r. destruct points; reflexivity.
Qed.

(** ** The dense lattice generator: edge cases *)

Lemma neighbour_points_loop_out_of_range (fuel : nat) (points grid : list point)
    (neighbour_dis density : R) :
  (forall p : point, In p points -> ~ in_lattice_range p) ->
  neighbour_points_loop fuel points neighbour_dis density grid = Ok grid.
Proof.
  revert grid; induction points as [|p tl IH]; intros grid Hout; [reflexivity|].
  cbn [neighbour_points_loop].
  destruct ((-100 <=? py_round (fst p)) && (py_round (fst p) <=? 100)
            && ((-100 <=? py_round (snd p)) && (py_round (snd p) <=? 100)))%Z eqn:E.
  - exfalso. apply (Hout p (or_introl eq_refl)).
    apply andb_true_iff in E. destruct E as [E1 E2].
    apply andb_true_iff in E1, E2. destruct E1 as [H1 H2], E2 as [H3 H4].
    apply Z.leb_le in H1, H2, H3, H4. unfold in_lattice_range. lia.
  - apply IH. intros q Hq. apply Hout. right. exact Hq.
Qed.

Lemma neighbour_loop_j_never_ends (fuel : nat) (i j bound density : R)
    (grid : list point) :
  density <= 0 -> j < bound ->
  neighbour_loop_j fuel i j bound density grid = OutOfFuel.
Proof.
  intros Hd. revert j grid; induction fuel as [|fuel IH]; intros j grid Hj; [reflexivity|].
  cbn [neighbour_loop_j]. destruct (Rlt_dec j bound); [|lra].
  apply IH. lra.
Qed.

Lemma neighbour_points_loop_never_ends (fuel : nat) (points grid : list point)
    (neighbour_dis density : R) :
  density <= 0 -> 0 <= neighbour_dis ->
  (exists p : point, In p points /\ in_lattice_range p) ->
  neighbour_points_loop fuel points neighbour_dis density grid = OutOfFuel.
Proof.
  intros Hd Hn. revert grid; induction points as [|p tl IH]; intros grid (q & Hq & Hr).
  - contradiction.
  - cbn [neighbour_points_loop].
    destruct ((-100 <=? py_round (fst p)) && (py_round (fst p) <=? 100)
              && ((-100 <=? py_round (snd p)) && (py_round (snd p) <=? 100)))%Z eqn:E.
    + assert (Hi : neighbour_loop_i fuel (IZR (py_round (fst p)) - neighbour_dis)
                     (IZR (py_round (fst p)) + neighbour_dis + 1e-5)
                     (IZR (py_round (snd p)) - neighbour_dis)
                     (IZR (py_round (snd p)) + neighbour_dis + 1e-5) density grid
                   = OutOfFuel).
      { destruct fuel as [|fuel]; [reflexivity|]. cbn [neighbour_loop_i].
        destruct (Rlt_dec _ _) as [_|Hge]; [|exfalso; apply Hge; lra].
        rewrite neighbour_loop_j_never_ends by lra. reflexivity. }
      rewrite Hi. reflexivity.
    + apply IH. destruct Hq as [<-|Hq]; [|exists q; auto].
      exfalso. destruct Hr as [[H1 H2] [H3 H4]].
      apply Z.leb_le in H1, H2, H3, H4. rewrite H1, H2, H3, H4 in E. discriminate.
Qed.

(** Points whose rounded coordinates are outside [-100, 100] add nothing:
    with no point in range [get_neighbour_points_new] returns the empty
    list, whatever the density.  With a point in range, a non-negative
    [neighbour_dis] and a density that is not positive, the inner loop
    never ends: the call returns nothing, whatever the fuel. *)
Theorem get_neighbour_points_new_edges (fuel : nat) (points : list point)
    (neighbour_dis : R) (density : pynum) :
  ((forall p : point, In p points -> ~ in_lattice_range p) ->
   get_neighbour_points_new fuel points neighbour_dis density = Ok []) /\
  (py_value density <= 0 -> 0 <= neighbour_dis ->
   (exists p : point, In p points /\ in_lattice_range p) ->
   get_neighbour_points_new fuel points neighbour_dis density = OutOfFuel).
Proof.
  unfold get_neighbour_points_new. split.
  - intros Hout. rewrite neighbour_points_loop_out_of_range by exact Hout.
    cbn [bind]. destruct density; reflexivity.
  - intros Hd Hn Hp. rewrite neighbour_points_loop_never_ends by assumption.
    reflexivity.
Qed.

Lemma get_neighbour_points_new_edges_witness :
  get_neighbour_points_new 5 [(0, 0)] 2 (PyInt 0) = OutOfFuel.
Proof.
  apply (get_neighbour_points_new_edges 5 [(0, 0)] 2 (PyInt 0)).
  - cbn [py_value]. lra.
  - lra.
  - exists (0, 0). split; [left; reflexivity|].
    unfold in_lattice_range. cbn [fst snd]. rewrite (py_round_IZR 0). lia.
Defined.

(** ** Quadratic path fitter *)

Lemma is_not_valid_false (p1 p3 c : point) :
  is_not_valid p1 p3 c = false <-> usable_middle p1 p3 c.
Proof.
  unfold is_not_valid, usable_middle. rewrite orb_false_iff, !Rltb_false. tauto.
Qed.

Lemma is_not_valid_true (p1 p3 c : point) :
  is_not_valid p1 p3 c = true <-> ~ usable_middle p1 p3 c.
Proof.
  rewrite <- is_not_valid_false. destruct (is_not_valid p1 p3 c); split; congruence.
Qed.

Lemma transform_ok (p1 p2 p3 : point) (t : R) :
  t ^ 2 - t <> 0 ->
  exists c : coeff,
    transform p1 p2 p3 t = Ok c /\
    path_point c 0 = p1 /\ path_point c t = p2 /\ path_point c 1 = p3.
Proof.
  intros Ht. unfold transform, np_div.
  destruct (Req_dec_T (t ^ 2 - t) 0) as [Hz|_]; [contradiction|]. cbn [bind].
  eexists; split; [reflexivity|].
  unfold path_point; cbn [a_2 a_1 a_0 b_2 b_1 b_0].
  destruct p1 as [x1 y1], p2 as [x2 y2], p3 as [x3 y3]; cbn [fst snd].
  split; [|split]; f_equal; field; exact Ht.
Qed.

(** For [t] other than 0 and 1 the curve of [transform] is at the first
    point at parameter 0, at the middle point at parameter [t] and at the
    last point at parameter 1; at [t = 0] and [t = 1] the coefficients are
    divisions by zero. *)
Theorem transform_interpolates (p1 p2 p3 : point) (t : R) :
  (t <> 0 -> t <> 1 ->
   exists c : coeff,
     transform p1 p2 p3 t = Ok c /\
     path_point c 0 = p1 /\ path_point c t = p2 /\ path_point c 1 = p3) /\
  (t = 0 \/ t = 1 -> transform p1 p2 p3 t = NonFinite).
Proof.
  split.
  - intros H0 H1. apply transform_ok. intros H.
    assert (Hf : t * (t - 1) = 0) by lra.
    apply Rmult_integral in Hf. destruct Hf; lra.
  - intros Ht. unfold transform, np_div.
    destruct (Req_dec_T (t ^ 2 - t) 0) as [_|Hnz]; [reflexivity|].
    exfalso. apply Hnz. destruct Ht as [-> | ->]; ring.
Qed.

Lemma transform_interpolates_witness :
  exists c : coeff,
    transform (0, 0) (5, 1) (10, 0) 0.5 = Ok c /\
    path_point c 0 = (0, 0) /\ path_point c 0.5 = (5, 1) /\ path_point c 1 = (10, 0).
Proof.
  apply (transform_interpolates (0, 0) (5, 1) (10, 0) 0.5); lra.
Defined.

Lemma middle_scan_valid (tl : list point) (p1 p3 c : point) :
  middle_scan tl p1 p3 c false = c.
Proof. destruct tl; reflexivity. Qed.

Lemma middle_scan_finds (rest : list point) (p1 p3 cand : point) :
  (exists c : point, In c rest /\ usable_middle p1 p3 c) ->
  In (middle_scan rest p1 p3 cand true) rest /\
  usable_middle p1 p3 (middle_scan rest p1 p3 cand true).
Proof.
  revert cand; induction rest as [|c tl IH]; intros cand (q & Hq & Hu); [contradiction|].
  cbn [middle_scan]. destruct (is_not_valid p1 p3 c) eqn:E.
  - destruct (IH c) as [Hin Hus].
    + destruct Hq as [<-|Hq]; [|exists q; auto].
      apply is_not_valid_true in E. contradiction.
    + split; [right; exact Hin | exact Hus].
  - rewrite middle_scan_valid. split; [left; reflexivity|].
    apply is_not_valid_false. exact E.
Qed.

Lemma middle_scan_none (rest : list point) (p1 p3 cand : point) :
  (forall c : point, In c rest -> ~ usable_middle p1 p3 c) ->
  ~ usable_middle p1 p3 cand ->
  ~ usable_middle p1 p3 (middle_scan rest p1 p3 cand true).
Proof.
  revert cand; induction rest as [|c tl IH]; intros cand Hall Hc; [exact Hc|].
  cbn [middle_scan].
  assert (E : is_not_valid p1 p3 c = true)
    by (apply is_not_valid_true; apply Hall; left; reflexivity).
  rewrite E. apply IH; [intros q Hq; apply Hall; right; exact Hq|].
  apply Hall; left; reflexivity.
Qed.

Lemma middle_scan_first (rest : list point) (p1 p3 cand : point) :
  (exists c : point, In c rest /\ usable_middle p1 p3 c) ->
  exists pre post : list point,
    rest = pre ++ middle_scan rest p1 p3 cand true :: post /\
    forall q : point, In q pre -> ~ usable_middle p1 p3 q.
Proof.
  revert cand; induction rest as [|c tl IH]; intros cand (u & Hu & Hus); [destruct Hu|].
  cbn [middle_scan]. destruct (is_not_valid p1 p3 c) eqn:E.
  - apply is_not_valid_true in E.
    destruct Hu as [<-|Hu]; [contradiction|].
    destruct (IH c) as (pre & post & Heq & Hpre); [exists u; auto|].
    exists (c :: pre), post. split; [cbn [app]; f_equal; exact Heq|].
    intros q [<-|Hq]; [exact E | apply Hpre; exact Hq].
  - rewrite middle_scan_valid. exists [], tl. split; [reflexivity|]. intros q [].
Qed.

(** On a non-empty reference path with first point [p1] and last point
    [p3], and with an optimizer that keeps to its bounds:
    [construct_quadratic_path] returns no fit exactly when no point of the
    path is at least 1e-7 from both [p1] and [p3].  Otherwise the middle
    point [p2] is the first point of the path nearest to the target when
    that one is at least 1e-7 from both ends, and else the first point of
    the path that is; the result is [transform] at the parameter that
    [minimize] returns for the objective [LSE] of this middle point, the
    start 0.5 and the bounds (1e-7, 1 - 1e-7), and its curve is at [p1] at
    parameter 0, at [p2] at that parameter and at [p3] at parameter 1. *)
Theorem construct_quadratic_path_spec (np_roots : list R -> list complex)
    (minimize : (R -> result R) -> R -> R -> R -> R)
    (reference_path : list point) (point_label p1 p3 : point) :
  py_index reference_path 0 = Ok p1 ->
  py_index reference_path (-1) = Ok p3 ->
  (forall f : R -> result R,
      1e-7 <= minimize f 0.5 1e-7 (1 - 1e-7) <= 1 - 1e-7) ->
  ((forall c : point, In c reference_path -> ~ usable_middle p1 p3 c) ->
   construct_quadratic_path np_roots minimize reference_path point_label = Ok None) /\
  ((exists c : point, In c reference_path /\ usable_middle p1 p3 c) ->
   exists (fit : coeff) (idx : nat) (closest p2 : point),
     construct_quadratic_path np_roots minimize reference_path point_label
     = Ok (Some fit) /\
     np_argmin (get_dis_batch reference_path point_label) = Ok idx /\
     nth_error reference_path idx = Some closest /\
     (usable_middle p1 p3 closest -> p2 = closest) /\
     (~ usable_middle p1 p3 closest ->
      exists pre post : list point,
        reference_path = pre ++ p2 :: post /\
        forall q : point, In q pre -> ~ usable_middle p1 p3 q) /\
     In p2 reference_path /\ usable_middle p1 p3 p2 /\
     transform p1 p2 p3
       (minimize (fun t => LSE np_roots reference_path p1 p2 p3 t 0.1)
                 0.5 1e-7 (1 - 1e-7)) = Ok fit /\
     path_point fit 0 = p1 /\
     path_point fit (minimize (fun t => LSE np_roots reference_path p1 p2 p3 t 0.1)
                              0.5 1e-7 (1 - 1e-7)) = p2 /\
     path_point fit 1 = p3).
Proof.
  intros H1 H3 Hmin.
  destruct reference_path as [|q0 tl] eqn:Epath; [discriminate|].
  rewrite <- Epath in *.
  assert (Hne : reference_path <> []) by (rewrite Epath; discriminate).
  destruct (np_argmin_ok (get_dis_batch reference_path point_label)) as (idx & Hidx & Hlt).
  { intros H. apply (f_equal (@length R)) in H. rewrite get_dis_batch_length in H.
    rewrite Epath in H. discriminate. }
  rewrite get_dis_batch_length in Hlt.
  destruct (py_index_nat_ok reference_path idx Hlt) as (pc & Hpc & Hnth).
  assert (Hpc_in : In pc reference_path) by (eapply nth_error_In; exact Hnth).
  assert (Hstep :
    construct_quadratic_path np_roots minimize reference_path point_label
    = (p2 <- (if is_not_valid p1 p3 pc
              then Ok (middle_scan reference_path p1 p3 p1 (is_not_valid p1 p3 p1))
              else Ok pc) ;;
       if is_not_valid p1 p3 p2 then Ok None
       else c <- transform p1 p2 p3
                   (minimize (fun t => LSE np_roots reference_path p1 p2 p3 t 0.1)
                             0.5 1e-7 (1 - 1e-7)) ;;
            Ok (Some c))).
  { unfold construct_quadratic_path. clear Epath.
    destruct reference_path as [|a l]; [congruence|].
    rewrite Hidx. cbn [bind]. rewrite H1. cbn [bind]. rewrite Hpc. cbn [bind].
    rewrite H3. cbn [bind]. destruct (is_not_valid p1 p3 pc); reflexivity. }
  rewrite Hstep. clear Hstep.
  assert (Hp1 : is_not_valid p1 p3 p1 = true).
  { unfold is_not_valid. rewrite get_dis_p2p_refl.
    assert (H : Rltb 0 1e-7 = true) by (apply Rltb_true; lra).
    rewrite H. reflexivity. }
  rewrite Hp1.
  assert (Hfit : forall p2 : point,
             exists fit : coeff,
               transform p1 p2 p3
                 (minimize (fun t => LSE np_roots reference_path p1 p2 p3 t 0.1)
                           0.5 1e-7 (1 - 1e-7)) = Ok fit /\
               path_point fit 0 = p1 /\
               path_point fit (minimize (fun t => LSE np_roots reference_path p1 p2 p3 t 0.1)
                                        0.5 1e-7 (1 - 1e-7)) = p2 /\
               path_point fit 1 = p3).
  { intros p2.
    set (t := minimize (fun t => LSE np_roots reference_path p1 p2 p3 t 0.1)
                       0.5 1e-7 (1 - 1e-7)).
    assert (Ht : 1e-7 <= t <= 1 - 1e-7) by apply Hmin.
    apply transform_ok.
    intros H. assert (Hf : t * (t - 1) = 0) by lra.
    apply Rmult_integral in Hf. destruct Hf; lra. }
  split.
  - intros Hall. destruct (is_not_valid p1 p3 pc) eqn:Ec.
    + cbn [bind].
      assert (E : is_not_valid p1 p3 (middle_scan reference_path p1 p3 p1 true) = true).
      { apply is_not_valid_true. apply middle_scan_none; [exact Hall|].
        apply is_not_valid_true. exact Hp1. }
      rewrite E. reflexivity.
    + exfalso. apply is_not_valid_false in Ec. exact (Hall pc Hpc_in Ec).
  - intros Hex. destruct (is_not_valid p1 p3 pc) eqn:Ec; cbn [bind].
    + destruct (middle_scan_finds reference_path p1 p3 p1 Hex) as [Hin Hus].
      assert (E : is_not_valid p1 p3 (middle_scan reference_path p1 p3 p1 true) = false)
        by (apply is_not_valid_false; exact Hus).
      rewrite E.
      destruct (Hfit (middle_scan reference_path p1 p3 p1 true))
        as (fit & Hf & Hc0 & Hct & Hc1).
      rewrite Hf. cbn [bind].
      exists fit, idx, pc, (middle_scan reference_path p1 p3 p1 true).
      split; [reflexivity|]. split; [exact Hidx|]. split; [exact Hnth|].
      split; [intros Hu; apply is_not_valid_true in Ec; contradiction|].
      split; [intros _; apply middle_scan_first; exact Hex|].
      split; [exact Hin|]. split; [exact Hus|]. auto.
    + rewrite Ec. destruct (Hfit pc) as (fit & Hf & Hc0 & Hct & Hc1).
      rewrite Hf. cbn [bind]. apply is_not_valid_false in Ec.
      exists fit, idx, pc, pc.
      split; [reflexivity|]. split; [exact Hidx|]. split; [exact Hnth|].
      split; [reflexivity|]. split; [intros Hn; contradiction|].
      split; [exact Hpc_in|]. split; [exact Ec|]. auto.
Qed.

Lemma construct_quadratic_path_spec_witness :
  exists (fit : coeff) (idx : nat) (closest p2 : point),
    construct_quadratic_path (fun _ => []) (fun _ _ _ _ => 0.5)
      [(0, 0); (3, 4); (6, 8)] (3, 4) = Ok (Some fit) /\
    np_argmin (get_dis_batch [(0, 0); (3, 4); (6, 8)] (3, 4)) = Ok idx /\
    nth_error [(0, 0); (3, 4); (6, 8)] idx = Some closest /\
    (usable_middle (0, 0) (6, 8) closest -> p2 = closest) /\
    (~ usable_middle (0, 0) (6, 8) closest ->
     exists pre post : list point,
       [(0, 0); (3, 4); (6, 8)] = pre ++ p2 :: post /\
       forall q : point, In q pre -> ~ usable_middle (0, 0) (6, 8) q) /\
    In p2 [(0, 0); (3, 4); (6, 8)] /\ usable_middle (0, 0) (6, 8) p2 /\
    transform (0, 0) p2 (6, 8)
      ((fun _ _ _ _ => 0.5)
         (fun t => LSE (fun _ => []) [(0, 0); (3, 4); (6, 8)] (0, 0) p2 (6, 8) t 0.1)
         0.5 1e-7 (1 - 1e-7)) = Ok fit /\
    path_point fit 0 = (0, 0) /\
    path_point fit
      ((fun _ _ _ _ => 0.5)
         (fun t => LSE (fun _ => []) [(0, 0); (3, 4); (6, 8)] (0, 0) p2 (6, 8) t 0.1)
         0.5 1e-7 (1 - 1e-7)) = p2 /\
    path_point fit 1 = (6, 8).
Proof.
  apply (construct_quadratic_path_spec (fun _ => []) (fun _ _ _ _ => 0.5)
           [(0, 0); (3, 4); (6, 8)] (3, 4) (0, 0) (6, 8)).
  - reflexivity.
  - reflexivity.
  - intros f. lra.
  - exists (3, 4). split; [right; left; reflexivity|]. split.
    + rewrite (get_dis_p2p_value (0, 0) (3, 4) 5) by (cbn [fst snd]; lra). lra.
    + rewrite (get_dis_p2p_value (3, 4) (6, 8) 5) by (cbn [fst snd]; lra). lra.
Defined.

(** ** Mode seeking *)

Lemma mr_scan_from (cands goals : list point) (scores : list R) (radius : R)
    (c0 : point) :
  In c0 goals ->
  (forall g : point, In g cands -> In g goals) ->
  exists c : point,
    mr_scan cands goals scores radius
      (Some (c0, window_sum scores goals radius c0, mr_mask goals c0 radius))
    = Some (c, window_sum scores goals radius c, mr_mask goals c radius) /\
    In c goals /\
    window_sum scores goals radius c0 <= window_sum scores goals radius c /\
    forall g : point,
      In g cands -> window_sum scores goals radius g <= window_sum scores goals radius c.
Proof.
  revert c0; induction cands as [|g tl IH]; intros c0 Hc0 Hsub.
  - exists c0. split; [reflexivity|]. split; [exact Hc0|]. split; [lra|]. intros g [].
  - cbn [mr_scan]. fold (window_sum scores goals radius g).
    destruct (Rltb (window_sum scores goals radius c0) (window_sum scores goals radius g))
      eqn:E.
    + apply Rltb_true in E.
      destruct (IH g) as (c & Hc & Hin & Hle & Hall);
        [apply Hsub; left; reflexivity | intros q Hq; apply Hsub; right; exact Hq |].
      exists c. split; [exact Hc|]. split; [exact Hin|]. split; [lra|].
      intros q [<-|Hq]; [exact Hle | apply Hall; exact Hq].
    + apply Rltb_false in E.
      destruct (IH c0) as (c & Hc & Hin & Hle & Hall);
        [exact Hc0 | intros q Hq; apply Hsub; right; exact Hq |].
      exists c. split; [exact Hc|]. split; [exact Hin|]. split; [exact Hle|].
      intros q [<-|Hq]; [lra | apply Hall; exact Hq].
Qed.

Lemma mr_scan_best (goals : list point) (scores : list R) (radius : R) :
  goals <> [] ->
  exists c : point,
    mr_scan goals goals scores radius None
    = Some (c, window_sum scores goals radius c, mr_mask goals c radius) /\
    In c goals /\
    forall g : point,
      In g goals -> window_sum scores goals radius g <= window_sum scores goals radius c.
Proof.
  intros Hne. destruct goals as [|g tl] eqn:E; [congruence|]. rewrite <- E.
  assert (Hg : In g goals) by (rewrite E; left; reflexivity).
  assert (Hstep : mr_scan goals goals scores radius None
                  = mr_scan tl goals scores radius
                      (Some (g, window_sum scores goals radius g, mr_mask goals g radius))).
  { rewrite E at 1. reflexivity. }
  rewrite Hstep.
  destruct (mr_scan_from tl goals scores radius g Hg) as (c & Hc & Hin & Hle & Hall).
  { intros q Hq. rewrite E. right. exact Hq. }
  exists c. split; [exact Hc|]. split; [exact Hin|].
  intros q Hq. rewrite E in Hq. destruct Hq as [<-|Hq]; [exact Hle | apply Hall; exact Hq].
Qed.

Lemma mr_mask_length (goals : list point) (goal : point) (radius : R) :
  length (mr_mask goals goal radius) = length goals.
Proof. unfold mr_mask. rewrite length_map. apply get_dis_batch_length. Qed.

Lemma mr_suppress_length (scores : list R) (mask : list bool) :
  length mask = length scores -> length (mr_suppress scores mask) = length scores.
Proof. intros H. unfold mr_suppress. rewrite length_map, length_combine. lia. Qed.

Lemma mr_rounds_ok (n : nat) (scores : list R) (goals : list point) (radius : R) :
  goals <> [] -> length scores = length goals ->
  exists centres : list point,
    mr_rounds n scores goals radius = Ok centres /\
    length centres = n /\
    forall c : point, In c centres -> In c goals.
Proof.
  intros Hne. revert scores; induction n as [|n IH]; intros scores Hlen.
  - exists []. split; [reflexivity|]. split; [reflexivity|]. intros c [].
  - cbn [mr_rounds]. destruct goals as [|g tl] eqn:E; [congruence|]. rewrite <- E in *.
    apply Nat.eqb_eq in Hlen as Hb. rewrite Hb.
    destruct (mr_scan_best goals scores radius Hne) as (c & Hc & Hin & _).
    rewrite Hc.
    destruct (IH (mr_suppress scores (mr_mask goals c radius))) as (rest & Hr & Hl & Hsub).
    { rewrite mr_suppress_length; [exact Hlen|]. rewrite mr_mask_length. lia. }
    rewrite Hr. cbn [bind]. exists (c :: rest).
    split; [reflexivity|]. split; [simpl; lia|].
    intros q [<-|Hq]; [exact Hin | apply Hsub; exact Hq].
Qed.

Lemma mr_rounds_step (n : nat) (scores : list R) (goals : list point) (radius : R) :
  goals <> [] -> length scores = length goals ->
  mr_rounds (S n) scores goals radius
  = match mr_scan goals goals scores radius None with
    | None => NonFinite
    | Some (best_center, _, filter_idx) =>
        rest <- mr_rounds n (mr_suppress scores filter_idx) goals radius ;;
        Ok (best_center :: rest)
    end.
Proof.
  intros Hne Hlen. cbn [mr_rounds]. destruct goals as [|g tl]; [congruence|].
  apply Nat.eqb_eq in Hlen. rewrite Hlen. reflexivity.
Qed.

Lemma window_sum_within (scores : list R) (goals : list point) (radius : R)
    (goal : point) :
  window_sum scores goals radius goal = score_within scores goals radius goal.
Proof.
  unfold window_sum, masked_sum, mr_mask, score_within, get_dis_batch.
  rewrite map_map. f_equal.
  revert scores; induction goals as [|g tl IH]; intros scores.
  - destruct scores; reflexivity.
  - destruct scores as [|s scores]; [reflexivity|].
    cbn [map combine filter fst snd].
    change (sqrt (np_square (fst g - fst goal) + np_square (snd g - snd goal)))
      with (get_dis_p2p g goal).
    destruct (Rltb (get_dis_p2p g goal) radius); cbn [map fst snd]; rewrite IH; reflexivity.
Qed.

Lemma mr_suppress_within (scores : list R) (goals : list point) (radius : R) (c : point) :
  mr_suppress scores (mr_mask goals c radius) = suppress_within scores goals radius c.
Proof.
  unfold mr_suppress, mr_mask, suppress_within, get_dis_batch. rewrite map_map.
  revert scores; induction goals as [|g tl IH]; intros scores.
  - destruct scores; reflexivity.
  - destruct scores as [|s scores]; [reflexivity|].
    cbn [map combine fst snd]. rewrite IH. reflexivity.
Qed.

Lemma mr_rounds_greedy (n : nat) (scores : list R) (goals : list point) (radius : R) :
  goals <> [] -> length scores = length goals ->
  exists centres : list point,
    mr_rounds n scores goals radius = Ok centres /\
    length centres = n /\
    greedy_modes scores goals radius centres.
Proof.
  intros Hne. revert scores; induction n as [|n IH]; intros scores Hlen.
  - exists []. split; [reflexivity|]. split; [reflexivity | exact I].
  - rewrite mr_rounds_step by assumption.
    destruct (mr_scan_best goals scores radius Hne) as (c & Hc & Hin & Hbest).
    rewrite Hc.
    destruct (IH (mr_suppress scores (mr_mask goals c radius))) as (rest & Hr & Hl & Hg).
    { rewrite mr_suppress_length; [exact Hlen|]. rewrite mr_mask_length. lia. }
    rewrite Hr. cbn [bind]. exists (c :: rest).
    split; [reflexivity|]. split; [simpl; lia|].
    cbn [greedy_modes]. split; [exact Hin|]. split.
    + intros g Hg'. rewrite <- !window_sum_within. apply Hbest. exact Hg'.
    + rewrite <- mr_suppress_within. exact Hg.
Qed.

(** With no goal the mode seeking raises nothing and returns centres that
    are not numbers; with scores that are not as many as the goals it raises
    [IndexError]; otherwise it returns six centres chosen one after the
    other, each of them a goal whose sum of scores within [radius] is
    greatest, for the scores in which those within [radius] of the centres
    chosen before it are set to zero. *)
Theorem get_optimal_targets_home_MR_spec (scores : list R) (goals : list point)
    (radius : R) :
  (goals = [] -> get_optimal_targets_home_MR scores goals radius = NonFinite) /\
  (goals <> [] -> length scores <> length goals ->
   get_optimal_targets_home_MR scores goals radius = Raise IndexError) /\
  (goals <> [] -> length scores = length goals ->
   exists centres : list point,
     get_optimal_targets_home_MR scores goals radius = Ok centres /\
     length centres = 6%nat /\
     greedy_modes scores goals radius centres).
Proof.
  unfold get_optimal_targets_home_MR. split; [intros ->; reflexivity|]. split.
  - intros Hne Hlen. cbn [mr_rounds]. destruct goals; [congruence|].
    apply Nat.eqb_neq in Hlen. rewrite Hlen. reflexivity.
  - intros Hne Hlen. apply mr_rounds_greedy; assumption.
Qed.

Lemma get_optimal_targets_home_MR_spec_witness :
  exists centres : list point,
    get_optimal_targets_home_MR [1; 2] [(0, 0); (10, 0)] 2 = Ok centres /\
    length centres = 6%nat /\
    greedy_modes [1; 2] [(0, 0); (10, 0)] 2 centres.
Proof.
  apply (get_optimal_targets_home_MR_spec [1; 2] [(0, 0); (10, 0)] 2);
    [discriminate | reflexivity].
Defined.

(** ** Centroid refinement with positive scores *)

Lemma fold_left_Rmin_nonneg (l : list R) (x : R) :
  0 <= x -> Forall (fun y => 0 <= y) l -> 0 <= fold_left Rmin l x.
Proof.
  revert x; induction l as [|y tl IH]; intros x Hx Hall; [exact Hx|].
  inversion Hall; subst. cbn [fold_left]. apply IH; [|assumption].
  unfold Rmin. destruct (Rle_dec x y); assumption.
Qed.

Lemma np_min_nonneg (row : list R) : Forall (fun y => 0 <= y) row -> 0 <= np_min row.
Proof.
  destruct row as [|x tl]; intros H; [simpl; lra|].
  inversion H; subst. apply fold_left_Rmin_nonneg; assumption.
Qed.

Lemma fde_row_nonneg (centroids : list point) (goal : point) :
  0 <= np_min (map (fun c => get_dis_p2p goal c) (firstn 6 centroids)).
Proof.
  apply np_min_nonneg. apply Forall_forall. intros y Hy.
  apply in_map_iff in Hy. destruct Hy as (c & <- & _). apply get_dis_p2p_nonneg.
Qed.

(** With a positive score for every goal the selected goals are those
    within the radius, each with a positive weight. *)
Lemma fde_weights_positive (k : nat) (radius : R) (goals : list point)
    (f : point -> list R) (scores : list R) (i : nat) :
  (i + length goals <= length scores)%nat ->
  (forall s : R, In s scores -> 0 < s) ->
  (forall goal : point, 0 <= np_min (f goal)) ->
  exists selected : list (point * R),
    fde_weights k radius i goals (map f goals) scores = Ok selected /\
    Forall (fun gw => In (fst gw) goals /\ nth k (f (fst gw)) 0 <= radius /\ 0 < snd gw)
           selected /\
    (forall goal : point, In goal goals -> nth k (f goal) 0 <= radius -> selected <> []).
Proof.
  intros Hlen Hpos Hmin. revert i Hlen; induction goals as [|goal tl IH]; intros i Hlen.
  - exists []. split; [reflexivity|]. split; [constructor|]. intros g [].
  - cbn [map fde_weights]. simpl length in Hlen.
    destruct (IH (S i)) as (sel & Hsel & Hall & Hne); [lia|].
    assert (Hall' : Forall (fun gw => In (fst gw) (goal :: tl)
                                      /\ nth k (f (fst gw)) 0 <= radius /\ 0 < snd gw) sel).
    { eapply Forall_impl; [|exact Hall]. intros gw (H1 & H2 & H3).
      split; [right; exact H1 | auto]. }
    destruct (Rle_dec (nth k (f goal) 0) radius) as [Hin|Hout].
    + rewrite py_index_nat.
      destruct (nth_error scores i) as [s|] eqn:E;
        [|apply nth_error_None in E; lia].
      cbn [bind]. rewrite Hsel. cbn [bind].
      eexists. split; [reflexivity|]. split; [|intros; discriminate].
      constructor; [|exact Hall']. cbn [fst snd].
      split; [left; reflexivity|]. split; [exact Hin|].
      assert (Hs : 0 < s) by (apply Hpos; eapply nth_error_In; exact E).
      specialize (Hmin goal). pose proof (pow2_ge_0 (nth k (f goal) 0)).
      apply Rdiv_lt_0_compat; [|lra]. apply Rmult_lt_0_compat; lra.
    + exists sel. split; [exact Hsel|]. split; [exact Hall'|].
      intros g [<-|Hg] Hd; [contradiction | exact (Hne g Hg Hd)].
Qed.

Lemma weighted_sq_expand (selected : list (point * R)) (a b : R) :
  np_sum (map (fun gw => snd gw * ((fst (fst gw) - a) * (fst (fst gw) - a)
                                   + (snd (fst gw) - b) * (snd (fst gw) - b))) selected)
  = np_sum (map (fun gw => snd gw * (fst (fst gw) * fst (fst gw)
                                     + snd (fst gw) * snd (fst gw))) selected)
    - 2 * a * np_sum (map (fun gw => fst (fst gw) * snd gw) selected)
    - 2 * b * np_sum (map (fun gw => snd (fst gw) * snd gw) selected)
    + (a * a + b * b) * fde_divisor selected.
Proof.
  unfold fde_divisor. induction selected as [|gw tl IH]; cbn [map np_sum fold_right].
  - ring.
  - unfold np_sum in IH. rewrite IH. ring.
Qed.

Lemma weighted_sq_upper (selected : list (point * R)) (a b rr : R) :
  Forall (fun gw => 0 < snd gw
                    /\ (fst (fst gw) - a) * (fst (fst gw) - a)
                       + (snd (fst gw) - b) * (snd (fst gw) - b) <= rr) selected ->
  np_sum (map (fun gw => snd gw * ((fst (fst gw) - a) * (fst (fst gw) - a)
                                   + (snd (fst gw) - b) * (snd (fst gw) - b))) selected)
  <= rr * fde_divisor selected.
Proof.
  unfold fde_divisor. induction selected as [|gw tl IH]; intros H;
    cbn [map np_sum fold_right].
  - lra.
  - inversion H as [|? ? [Hw Hsq] Htl]; subst. specialize (IH Htl).
    unfold np_sum in IH. nra.
Qed.

Lemma weighted_sq_lower (selected : list (point * R)) (a b rr : R) :
  selected <> [] ->
  Forall (fun gw => 0 < snd gw) selected ->
  Forall (fun gw => rr < (fst (fst gw) - a) * (fst (fst gw) - a)
                         + (snd (fst gw) - b) * (snd (fst gw) - b)) selected ->
  rr * fde_divisor selected
  < np_sum (map (fun gw => snd gw * ((fst (fst gw) - a) * (fst (fst gw) - a)
                                     + (snd (fst gw) - b) * (snd (fst gw) - b))) selected).
Proof.
  unfold fde_divisor. induction selected as [|gw tl IH]; intros Hne Hw Hsq; [congruence|].
  inversion Hw as [|? ? Hw1 Hw2]; subst. inversion Hsq as [|? ? Hs1 Hs2]; subst.
  cbn [map np_sum fold_right].
  destruct tl as [|gw' tl'].
  - cbn [map fold_right]. nra.
  - assert (Hne' : gw' :: tl' <> []) by discriminate.
    specialize (IH Hne' Hw2 Hs2). unfold np_sum in IH. nra.
Qed.

Lemma fde_divisor_pos (selected : list (point * R)) :
  selected <> [] -> Forall (fun gw => 0 < snd gw) selected -> 0 < fde_divisor selected.
Proof.
  unfold fde_divisor. induction selected as [|gw tl IH]; intros Hne Hw; [congruence|].
  inversion Hw as [|? ? Hw1 Hw2]; subst. cbn [map np_sum fold_right].
  destruct tl as [|gw' tl'].
  - cbn [map fold_right]. lra.
  - assert (Hne' : gw' :: tl' <> []) by discriminate.
    specialize (IH Hne' Hw2). unfold np_sum in IH. lra.
Qed.

(** The weighted mean of points that all lie within [r] of a point [c],
    with positive weights, has one of these points within [r] of it. *)
Lemma weighted_mean_keeps_a_point (selected : list (point * R)) (c : point) (rr : R) :
  selected <> [] ->
  Forall (fun gw => 0 < snd gw
                    /\ (fst (fst gw) - fst c) * (fst (fst gw) - fst c)
                       + (snd (fst gw) - snd c) * (snd (fst gw) - snd c) <= rr) selected ->
  exists gw : point * R,
    In gw selected /\
    (fst (fst gw) - np_sum (map (fun gw => fst (fst gw) * snd gw) selected)
                    / fde_divisor selected)
    * (fst (fst gw) - np_sum (map (fun gw => fst (fst gw) * snd gw) selected)
                      / fde_divisor selected)
    + (snd (fst gw) - np_sum (map (fun gw => snd (fst gw) * snd gw) selected)
                      / fde_divisor selected)
      * (snd (fst gw) - np_sum (map (fun gw => snd (fst gw) * snd gw) selected)
                        / fde_divisor selected)
    <= rr.
Proof.
  intros Hne Hall.
  assert (Hw : Forall (fun gw => 0 < snd gw) selected)
    by (eapply Forall_impl; [|exact Hall]; intros gw [H _]; exact H).
  pose proof (fde_divisor_pos selected Hne Hw) as HW.
  set (W := fde_divisor selected) in *.
  set (sx := np_sum (map (fun gw => fst (fst gw) * snd gw) selected)).
  set (sy := np_sum (map (fun gw => snd (fst gw) * snd gw) selected)).
  destruct (Forall_Exists_dec
              (fun gw : point * R =>
                 rr < (fst (fst gw) - sx / W) * (fst (fst gw) - sx / W)
                      + (snd (fst gw) - sy / W) * (snd (fst gw) - sy / W))
              (fun gw => Rlt_dec _ _) selected) as [Hfar|Hnear].
  - exfalso.
    pose proof (weighted_sq_lower selected (sx / W) (sy / W) rr Hne Hw Hfar) as Hlow.
    pose proof (weighted_sq_upper selected (fst c) (snd c) rr Hall) as Hup.
    rewrite weighted_sq_expand in Hlow, Hup. fold W sx sy in Hlow, Hup.
    set (sxx := np_sum (map (fun gw => snd gw * (fst (fst gw) * fst (fst gw)
                                                 + snd (fst gw) * snd (fst gw))) selected))
      in *.
    assert (Hid : sxx - 2 * fst c * sx - 2 * snd c * sy
                  + (fst c * fst c + snd c * snd c) * W
                  - (sxx - 2 * (sx / W) * sx - 2 * (sy / W) * sy
                     + (sx / W * (sx / W) + sy / W * (sy / W)) * W)
                  = W * ((fst c - sx / W) * (fst c - sx / W)
                         + (snd c - sy / W) * (snd c - sy / W))).
    { field. lra. }
    assert (Hnn : 0 <= W * ((fst c - sx / W) * (fst c - sx / W)
                            + (snd c - sy / W) * (snd c - sy / W))).
    { apply Rmult_le_pos; [lra|]. apply sum_squares_nonneg. }
    lra.
  - apply Exists_exists in Hnear. destruct Hnear as (gw & Hin & Hle).
    exists gw. split; [exact Hin|]. lra.
Qed.

Lemma fde_centroid_covered (selected : list (point * R)) (goals : list point)
    (c : point) (radius : R) :
  selected <> [] ->
  Forall (fun gw => In (fst gw) goals /\ get_dis_p2p (fst gw) c <= radius /\ 0 < snd gw)
         selected ->
  exists c' : point,
    fde_centroid selected = Ok c' /\
    exists goal : point, In goal goals /\ get_dis_p2p goal c' <= radius.
Proof.
  intros Hne Hall.
  assert (Hr : 0 <= radius).
  { destruct selected as [|gw tl]; [congruence|]. inversion Hall as [|? ? (_ & H & _) _].
    pose proof (get_dis_p2p_nonneg (fst gw) c). lra. }
  assert (Hw : Forall (fun gw => 0 < snd gw) selected)
    by (eapply Forall_impl; [|exact Hall]; intros gw (_ & _ & H); exact H).
  pose proof (fde_divisor_pos selected Hne Hw) as HW.
  destruct (fde_centroid_spec selected) as [_ Hok]. rewrite Hok by lra.
  eexists. split; [reflexivity|].
  destruct (weighted_mean_keeps_a_point selected c (radius * radius) Hne)
    as (gw & Hin & Hle).
  { eapply Forall_impl; [|exact Hall]. intros gw (_ & Hd & Hpos).
    split; [exact Hpos | apply get_dis_p2p_le_sq; exact Hd]. }
  rewrite Forall_forall in Hall. destruct (Hall gw Hin) as (Hg & _ & _).
  exists (fst gw). split; [exact Hg|].
  unfold get_dis_p2p, np_square; cbn [fst snd]. apply sqrt_le_const; assumption.
Qed.

Lemma fde_update_safe (ks : list nat) (radius : R) (goals : list point)
    (scores : list R) (centroids0 centroids : list point) :
  NoDup ks ->
  (forall k : nat, In k ks -> (k < 6)%nat) ->
  centroids_covered goals radius centroids0 ->
  length centroids = length centroids0 ->
  (length goals <= length scores)%nat ->
  (forall s : R, In s scores -> 0 < s) ->
  exists centroids' : list point,
    fde_update ks radius goals
      (map (fun goal => map (fun c => get_dis_p2p goal c) (firstn 6 centroids0)) goals)
      scores centroids = Ok centroids' /\
    length centroids' = length centroids /\
    (forall k : nat,
        In k ks ->
        exists c : point,
          nth_error centroids' k = Some c /\
          exists goal : point, In goal goals /\ get_dis_p2p goal c <= radius) /\
    (forall j : nat, ~ In j ks -> nth_error centroids' j = nth_error centroids j).
Proof.
  intros Hnd Hks [Hlen0 Hcov] Hlen Hgs Hpos.
  revert centroids Hlen; induction ks as [|k ks IH]; intros centroids Hlen.
  - exists centroids. split; [reflexivity|]. split; [reflexivity|].
    split; [intros k [] | reflexivity].
  - inversion Hnd as [|? ? Hk_notin Hnd']; subst.
    assert (Hk6 : (k < 6)%nat) by (apply Hks; left; reflexivity).
    cbn [fde_update].
    destruct (nth_error centroids0 k) as [ck|] eqn:Eck;
      [|apply nth_error_None in Eck; lia].
    destruct (fde_weights_positive k radius goals
                (fun goal => map (fun c => get_dis_p2p goal c) (firstn 6 centroids0))
                scores 0) as (sel & Hsel & Hall & Hne);
      [simpl; lia | exact Hpos | intros goal; apply fde_row_nonneg |].
    rewrite Hsel. cbn [bind].
    destruct (Hcov k ck Hk6 Eck) as (g0 & Hg0 & Hd0).
    destruct (fde_centroid_covered sel goals ck radius) as (c' & Hc' & Hgoal).
    { apply (Hne g0 Hg0). rewrite (fde_row_nth centroids0 g0 ck k Eck Hk6). exact Hd0. }
    { eapply Forall_impl; [|exact Hall]. intros gw (H1 & H2 & H3).
      rewrite (fde_row_nth centroids0 (fst gw) ck k Eck Hk6) in H2. auto. }
    rewrite Hc'. cbn [bind].
    destruct (np_setitem_ok centroids k c') as (cs1 & Hcs1 & Hlen1); [lia|].
    rewrite Hcs1. cbn [bind].
    destruct (np_setitem_nth _ _ _ _ Hcs1) as [_ Hnth1].
    destruct (IH Hnd' (fun q Hq => Hks q (or_intror Hq)) cs1)
      as (cs' & Hcs' & Hlen' & Hgood & Hkeep); [lia|].
    exists cs'. split; [exact Hcs'|]. split; [lia|]. split.
    + intros q [<-|Hq]; [|apply Hgood; exact Hq].
      exists c'. split; [|exact Hgoal].
      rewrite (Hkeep k Hk_notin), Hnth1, Nat.eqb_refl. reflexivity.
    + intros j Hj. rewrite Hkeep by (intros H; apply Hj; right; exact H).
      rewrite Hnth1. destruct (Nat.eqb_spec j k) as [->|_]; [|reflexivity].
      exfalso. apply Hj. left. reflexivity.
Qed.

Lemma fde_pass_safe (scores : list R) (goals centroids : list point) (radius : R) :
  centroids_covered goals radius centroids ->
  (length goals <= length scores)%nat ->
  (forall s : R, In s scores -> 0 < s) ->
  exists centroids' : list point,
    fde_pass scores goals centroids radius = Ok centroids' /\
    length centroids' = length centroids /\
    centroids_covered goals radius centroids'.
Proof.
  intros Hcov Hgs Hpos. unfold fde_pass.
  rewrite fde_dist_ok by apply Hcov. cbn [bind].
  destruct (fde_update_safe (seq 0 6) radius goals scores centroids centroids)
    as (cs' & Hcs' & Hlen' & Hgood & _); try assumption.
  - apply seq_NoDup.
  - intros k Hk. apply in_seq in Hk. lia.
  - reflexivity.
  - exists cs'. split; [exact Hcs'|]. split; [exact Hlen'|].
    split; [destruct Hcov; lia|].
    intros k c Hk Hc. destruct (Hgood k) as (c2 & Hc2 & Hg); [apply in_seq; lia|].
    rewrite Hc in Hc2. injection Hc2 as <-. exact Hg.
Qed.

Lemma fde_refinement_safe (scores : list R) (goals centroids : list point)
    (L : nat) (radius : R) :
  (forall s : R, In s scores -> 0 < s) ->
  (length goals <= length scores)%nat ->
  centroids_covered goals radius centroids ->
  exists refined : list point,
    get_optimal_targets_home_FDE scores goals centroids L radius = Ok refined /\
    length refined = length centroids /\
    centroids_covered goals radius refined.
Proof.
  intros Hpos Hgs. revert centroids; induction L as [|L IH]; intros centroids Hcov.
  - exists centroids. split; [reflexivity|]. split; [reflexivity | exact Hcov].
  - cbn [get_optimal_targets_home_FDE].
    destruct (fde_pass_safe scores goals centroids radius Hcov Hgs Hpos)
      as (cs1 & Hcs1 & Hlen1 & Hcov1).
    rewrite Hcs1. cbn [bind].
    destruct (IH cs1 Hcov1) as (refined & Hr & Hlen & Hcovr).
    exists refined. split; [exact Hr|]. split; [lia | exact Hcovr].
Qed.

(** With a positive score for every goal, and each of the six centroids
    within [radius] of some goal, the refinement never divides by zero:
    every pass returns centroids, again each within [radius] of some
    goal. *)
Theorem get_optimal_targets_home_FDE_safe (scores : list R) (goals centroids : list point)
    (L : nat) (radius : R) :
  (forall s : R, In s scores -> 0 < s) ->
  (length goals <= length scores)%nat ->
  centroids_covered goals radius centroids ->
  exists refined : list point,
    get_optimal_targets_home_FDE scores goals centroids L radius = Ok refined /\
    length refined = length centroids /\
    centroids_covered goals radius refined.
Proof. apply fde_refinement_safe. Qed.

Lemma get_optimal_targets_home_FDE_safe_witness :
  exists refined : list point,
    get_optimal_targets_home_FDE [1] [(0, 0)]
      [(0, 0); (0, 0); (0, 0); (0, 0); (0, 0); (0, 0)] 4 3 = Ok refined /\
    length refined = 6%nat.
Proof.
  destruct (get_optimal_targets_home_FDE_safe [1] [(0, 0)]
              [(0, 0); (0, 0); (0, 0); (0, 0); (0, 0); (0, 0)] 4 3)
    as (refined & Hr & Hlen & _).
  - intros s [<-|[]]. lra.
  - simpl; lia.
  - split; [simpl; lia|]. intros k c Hk Hc.
    exists (0, 0). split; [left; reflexivity|].
    assert (Hc0 : c = (0, 0)).
    { do 6 (destruct k as [|k]; [injection Hc as <-; reflexivity|]). lia. }
    rewrite Hc0, get_dis_p2p_refl. lra.
  - exists refined. split; [exact Hr | exact Hlen].
Defined.

(** ** The selection from energies *)

Lemma mapM_map {A B : Type} (f : A -> result B) (g : A -> B) (l : list A) :
  (forall a : A, In a l -> f a = Ok (g a)) -> mapM f l = Ok (map g l).
Proof.
  induction l as [|a tl IH]; intros H; [reflexivity|].
  cbn [mapM map]. rewrite H by (left; reflexivity). cbn [bind].
  rewrite IH by (intros b Hb; apply H; right; exact Hb). reflexivity.
Qed.

Lemma np_sum_pos (l : list R) :
  l <> [] -> (forall x : R, In x l -> 0 < x) -> 0 < np_sum l.
Proof.
  induction l as [|x tl IH]; intros Hne Hpos; [congruence|].
  cbn [np_sum fold_right]. assert (Hx : 0 < x) by (apply Hpos; left; reflexivity).
  destruct tl as [|y tl'].
  - cbn [fold_right]. lra.
  - assert (H : 0 < np_sum (y :: tl')).
    { apply IH; [discriminate|]. intros z Hz. apply Hpos. right. exact Hz. }
    unfold np_sum in H. lra.
Qed.

Lemma np_sum_div (l : list R) (d : R) :
  np_sum (map (fun e => e / d) l) = np_sum l / d.
Proof.
  induction l as [|x tl IH]; cbn [map np_sum fold_right].
  - unfold Rdiv. ring.
  - unfold np_sum in IH. rewrite IH. unfold Rdiv. ring.
Qed.

Lemma softmax_probs_ok (scores : list R) (T : R) :
  T <> 0 ->
  exists probs : list R,
    softmax_probs scores T = Ok probs /\
    length probs = length scores /\
    (forall p : R, In p probs -> 0 < p) /\
    (scores <> [] -> np_sum probs = 1).
Proof.
  intros HT. destruct scores as [|s0 tl].
  { exists []. split; [reflexivity|]. split; [reflexivity|].
    split; [intros p [] | congruence]. }
  assert (Hne : s0 :: tl <> []) by discriminate.
  revert Hne. generalize (s0 :: tl). clear s0 tl. intros scores Hne.
  unfold softmax_probs.
  rewrite (mapM_map _ (fun s => exp (- s / T))).
  2:{ intros s _. unfold np_div. destruct (Req_dec_T T 0); [contradiction | reflexivity]. }
  cbn [bind]. set (exps := map (fun s => exp (- s / T)) scores).
  assert (Hpos : forall e : R, In e exps -> 0 < e).
  { intros e He. apply in_map_iff in He. destruct He as (s & <- & _). apply exp_pos. }
  assert (Hsum : 0 < np_sum exps).
  { apply np_sum_pos; [|exact Hpos]. unfold exps.
    destruct scores; [congruence | discriminate]. }
  rewrite (mapM_map _ (fun e => e / np_sum exps)).
  2:{ intros e _. unfold np_div. destruct (Req_dec_T (np_sum exps) 0); [lra | reflexivity]. }
  eexists. split; [reflexivity|]. split; [unfold exps; rewrite !length_map; reflexivity|].
  split.
  - intros p Hp. apply in_map_iff in Hp. destruct Hp as (e & <- & He).
    apply Rdiv_lt_0_compat; [apply Hpos; exact He | exact Hsum].
  - intros _. rewrite np_sum_div. field. lra.
Qed.

(** For a temperature other than 0 the softmax of a non-empty score array
    is an array of as many positive numbers, of sum 1; a zero temperature
    makes it a division by zero. *)
Theorem softmax_probs_spec (scores : list R) (T : R) :
  scores <> [] ->
  (T <> 0 ->
   exists probs : list R,
     softmax_probs scores T = Ok probs /\
     length probs = length scores /\
     (forall p : R, In p probs -> 0 < p) /\
     np_sum probs = 1) /\
  (T = 0 -> softmax_probs scores T = NonFinite).
Proof.
  intros Hne. split.
  - intros HT. destruct (softmax_probs_ok scores T HT) as (probs & H1 & H2 & H3 & H4).
    exists probs. auto.
  - intros ->. unfold softmax_probs. destruct scores as [|s tl]; [congruence|].
    cbn [mapM]. unfold np_div at 1. destruct (Req_dec_T 0 0); [reflexivity | congruence].
Qed.

Lemma softmax_probs_spec_witness :
  exists probs : list R,
    softmax_probs [1; 2] 20 = Ok probs /\ np_sum probs = 1.
Proof.
  destruct (softmax_probs_spec [1; 2] 20) as [H _]; [discriminate|].
  destruct H as (probs & Heq & _ & _ & Hsum); [lra|].
  exists probs. split; assumption.
Defined.

Lemma get_optimal_targets_home_ok (scores : list R) (goals : list point) :
  goals <> [] -> length scores = length goals ->
  (forall s : R, In s scores -> 0 < s) ->
  exists ans : list point,
    get_optimal_targets_home scores goals = Ok ans /\
    length ans = 6%nat /\
    centroids_covered goals 3 ans.
Proof.
  intros Hne Hlen Hpos. unfold get_optimal_targets_home, get_optimal_targets_home_MR.
  destruct (mr_rounds_ok 6 scores goals 2 Hne Hlen) as (centres & Hc & Hl & Hsub).
  rewrite Hc. cbn [bind].
  destruct (fde_refinement_safe scores goals centres 4 3 Hpos)
    as (refined & Hr & Hlr & Hcov); [lia | |].
  - split; [lia|]. intros k c _ Hk. exists c. split.
    + apply Hsub. eapply nth_error_In. exact Hk.
    + rewrite get_dis_p2p_refl. lra.
  - exists refined. split; [exact Hr|]. split; [lia | exact Hcov].
Qed.

Lemma Forall2_nth_error {A B : Type} (P : A -> B -> Prop) (l : list A) (l' : list B)
    (i : nat) (a : A) (b : B) :
  Forall2 P l l' -> nth_error l i = Some a -> nth_error l' i = Some b -> P a b.
Proof.
  intros H. revert i; induction H as [|x y tl tl' Hxy _ IH]; intros i Ha Hb.
  - destruct i; discriminate.
  - destruct i as [|i]; [injection Ha as <-; injection Hb as <-; exact Hxy|].
    exact (IH i Ha Hb).
Qed.

Lemma Forall2_right {A B : Type} (P : A -> B -> Prop) (Q : B -> Prop)
    (l : list A) (l' : list B) :
  (forall (a : A) (b : B), P a b -> Q b) -> Forall2 P l l' -> forall b : B, In b l' -> Q b.
Proof.
  intros HPQ H. induction H as [|x y tl tl' Hxy _ IH]; intros b Hb; [contradiction|].
  destruct Hb as [<-|Hb]; [exact (HPQ x y Hxy) | exact (IH b Hb)].
Qed.

Lemma fold_left_Rmin_spec (l : list R) (x : R) :
  (fold_left Rmin l x <= x /\ forall y : R, In y l -> fold_left Rmin l x <= y) /\
  (fold_left Rmin l x = x \/ In (fold_left Rmin l x) l).
Proof.
  revert x; induction l as [|y tl IH]; intros x.
  - simpl. split; [split; [lra | intros y []] | left; reflexivity].
  - cbn [fold_left]. destruct (IH (Rmin x y)) as [[Hle Hall] Hin].
    pose proof (Rmin_l x y). pose proof (Rmin_r x y).
    split; [split; [lra|]|].
    + intros z [<-|Hz]; [lra | apply Hall; exact Hz].
    + destruct Hin as [Heq|Hin]; [|right; right; exact Hin].
      rewrite Heq. unfold Rmin. destruct (Rle_dec x y); [left | right; left]; reflexivity.
Qed.

Lemma np_min_spec (row : list R) :
  row <> [] ->
  (forall y : R, In y row -> np_min row <= y) /\ In (np_min row) row.
Proof.
  destruct row as [|x tl]; [congruence|]. intros _. cbn [np_min].
  destruct (fold_left_Rmin_spec tl x) as [[Hle Hall] Hin]. split.
  - intros y [<-|Hy]; [exact Hle | apply Hall; exact Hy].
  - destruct Hin as [->|Hin]; [left; reflexivity | right; exact Hin].
Qed.

(** On a batch in which every example has a non-empty lattice, a score
    for each of its goals and a ground-truth goal, and with a temperature
    other than 0, [select_goals_by_optimization] raises nothing and divides
    by no zero: it returns six points for every example, and as its error
    the least distance of these six points to the ground-truth goal. *)
Theorem select_goals_by_optimization_safe (scores : list (list R))
    (goals : list (list point)) (mappings : list mapping) (T : R) :
  T <> 0 ->
  (forall (i : nat) (s : list R),
      nth_error scores i = Some s ->
      exists (g : list point) (mp : mapping) (gt : point),
        nth_error goals i = Some g /\ g <> [] /\ length s = length g /\
        nth_error mappings i = Some mp /\ py_index (labels mp) (-1) = Ok gt) ->
  exists (ans_points : list (list point)) (min_FDE : list R),
    select_goals_by_optimization scores goals mappings T = Ok (ans_points, min_FDE) /\
    length ans_points = length scores /\
    length min_FDE = length scores /\
    (forall a : list point, In a ans_points -> length a = 6%nat) /\
    (forall (i : nat) (a : list point) (mp : mapping) (gt : point) (d : R),
        nth_error ans_points i = Some a ->
        nth_error mappings i = Some mp ->
        py_index (labels mp) (-1) = Ok gt ->
        nth_error min_FDE i = Some d ->
        (forall p : point, In p a -> d <= get_dis_p2p p gt) /\
        (exists p : point, In p a /\ d = get_dis_p2p p gt)).
Proof.
  intros HT Hwf. unfold select_goals_by_optimization.
  destruct (mapM_Forall2
              (fun i => s <- py_index scores (Z.of_nat i) ;;
                        probs <- softmax_probs s T ;;
                        g <- py_index goals (Z.of_nat i) ;;
                        get_optimal_targets_home probs g)
              (fun (_ : nat) (a : list point) => length a = 6%nat)
              (seq 0 (length scores))) as (ans & Hans & Hans2).
  { intros i Hi. apply in_seq in Hi. rewrite py_index_nat.
    destruct (nth_error scores i) as [s|] eqn:Es; [|apply nth_error_None in Es; lia].
    cbn [bind]. destruct (Hwf i s Es) as (g & mp & gt & Hg & Hne & Hlen & _).
    destruct (softmax_probs_ok s T HT) as (probs & Hp & Hlp & Hpos & _).
    rewrite Hp. cbn [bind]. rewrite py_index_nat, Hg. cbn [bind].
    destruct (get_optimal_targets_home_ok probs g Hne) as (a & Ha & Hla & _);
      [lia | exact Hpos |].
    exists a. split; [exact Ha | exact Hla]. }
  rewrite Hans. cbn [bind].
  assert (Hlen_ans : length ans = length scores).
  { apply Forall2_length in Hans2. rewrite length_seq in Hans2. lia. }
  assert (Hsix : forall a : list point, In a ans -> length a = 6%nat).
  { apply (Forall2_right _ _ _ _ (fun _ a H => H) Hans2). }
  destruct (mapM_Forall2
              (fun i => a <- py_index ans (Z.of_nat i) ;;
                        mp <- py_index mappings (Z.of_nat i) ;;
                        ground_truth <- py_index (labels mp) (-1) ;;
                        Ok (np_min (get_dis_batch a ground_truth)))
              (fun (i : nat) (d : R) =>
                 exists (a : list point) (mp : mapping) (gt : point),
                   nth_error ans i = Some a /\ nth_error mappings i = Some mp /\
                   py_index (labels mp) (-1) = Ok gt /\
                   d = np_min (get_dis_batch a gt))
              (seq 0 (length scores))) as (fde & Hfde & Hfde2).
  { intros i Hi. apply in_seq in Hi. rewrite py_index_nat.
    destruct (nth_error ans i) as [a|] eqn:Ea; [|apply nth_error_None in Ea; lia].
    cbn [bind].
    destruct (nth_error scores i) as [s|] eqn:Es; [|apply nth_error_None in Es; lia].
    destruct (Hwf i s Es) as (g & mp & gt & _ & _ & _ & Hmp & Hgt).
    rewrite py_index_nat, Hmp. cbn [bind]. rewrite Hgt. cbn [bind].
    eexists. split; [reflexivity|]. exists a, mp, gt. auto. }
  rewrite Hfde. cbn [bind]. exists ans, fde.
  split; [reflexivity|]. split; [exact Hlen_ans|].
  split; [apply Forall2_length in Hfde2; rewrite length_seq in Hfde2; lia|].
  split; [exact Hsix|].
  intros i a mp gt d Ha Hmp Hgt Hd.
  assert (Hi : nth_error (seq 0 (length scores)) i = Some i).
  { assert (i < length scores)%nat
      by (rewrite <- Hlen_ans; apply nth_error_Some; congruence).
    rewrite nth_error_seq. destruct (Nat.ltb_spec i (length scores)); [reflexivity | lia]. }
  destruct (Forall2_nth_error _ _ _ _ _ _ Hfde2 Hi Hd) as (a' & mp' & gt' & Ha' & Hmp' & Hgt' & ->).
  rewrite Ha in Ha'. injection Ha' as <-. rewrite Hmp in Hmp'. injection Hmp' as <-.
  rewrite Hgt in Hgt'. injection Hgt' as <-.
  assert (Hne : get_dis_batch a gt <> []).
  { intros H. apply (f_equal (@length R)) in H. rewrite get_dis_batch_length in H.
    rewrite (Hsix a (nth_error_In _ _ Ha)) in H. discriminate. }
  destruct (np_min_spec (get_dis_batch a gt) Hne) as [Hall Hin]. split.
  - intros p Hp. apply Hall. unfold get_dis_batch. apply in_map_iff. exists p. auto.
  - unfold get_dis_batch in Hin at 2. apply in_map_iff in Hin.
    destruct Hin as (p & Hp & Hin). exists p. split; [exact Hin | symmetry; exact Hp].
Qed.

Lemma select_goals_by_optimization_safe_witness :
  exists (ans_points : list (list point)) (min_FDE : list R),
    select_goals_by_optimization [[1; 2]] [[(0, 0); (10, 0)]]
      [mk_mapping [(0, 0)] None] 20 = Ok (ans_points, min_FDE) /\
    length ans_points = 1%nat.
Proof.
  destruct (select_goals_by_optimization_safe [[1; 2]] [[(0, 0); (10, 0)]]
              [mk_mapping [(0, 0)] None] 20) as (ans & fde & Heq & Hlen & _).
  - lra.
  - intros [|i] s Hs; [|destruct i; discriminate]. injection Hs as <-.
    exists [(0, 0); (10, 0)], (mk_mapping [(0, 0)] None), (0, 0).
    repeat split; try reflexivity. discriminate.
  - exists ans, fde. split; [exact Heq | exact Hlen].
Defined.

(** ** Reference path: what the result is made of *)

Lemma in_firstn {A : Type} (n : nat) (l : list A) (a : A) : In a (firstn n l) -> In a l.
Proof. intros H. rewrite <- (firstn_skipn n l). apply in_or_app. left. exact H. Qed.

Lemma in_skipn {A : Type} (n : nat) (l : list A) (a : A) : In a (skipn n l) -> In a l.
Proof. intros H. rewrite <- (firstn_skipn n l). apply in_or_app. right. exact H. Qed.

Lemma splice_members (reference_path traj_segment out : list point) (idx : nat)
    (dir : option point) :
  splice reference_path idx traj_segment dir = Ok out ->
  forall p : point, In p out -> In p reference_path \/ In p traj_segment.
Proof.
  unfold splice.
  destruct (py_index reference_path (Z.of_nat idx)) as [pc| | |]; try discriminate.
  destruct (py_index reference_path 0) as [pf| | |]; try discriminate.
  destruct (py_index reference_path (-1)) as [pl| | |]; try discriminate.
  cbn [bind].
  assert (Hleft : forall p : point,
             In p (firstn idx reference_path ++ rev traj_segment) ->
             In p reference_path \/ In p traj_segment).
  { intros p Hp. apply in_app_or in Hp. destruct Hp as [Hp|Hp].
    - left. eapply in_firstn; exact Hp.
    - right. apply in_rev. exact Hp. }
  assert (Hright : forall p : point,
             In p (traj_segment ++ skipn idx reference_path) ->
             In p reference_path \/ In p traj_segment).
  { intros p Hp. apply in_app_or in Hp. destruct Hp as [Hp|Hp].
    - right. exact Hp.
    - left. eapply in_skipn; exact Hp. }
  destruct dir as [d|]; [|intros H; injection H as <-; auto].
  destruct (Rleb (np_linalg_norm (vsub pc pf)) 1e-7);
    destruct (Rleb (np_linalg_norm (vsub pc pl)) 1e-7); cbn [andb].
  - intros H; injection H as <-; auto.
  - destruct (get_unit_vector pc pl) as [u| | |]; try discriminate. cbn [bind].
    destruct (Rltb _ _); intros H; injection H as <-; auto.
  - destruct (get_unit_vector pc pf) as [u| | |]; try discriminate. cbn [bind].
    destruct (Rltb _ _); intros H; injection H as <-; auto.
  - destruct (get_unit_vector pc pf) as [u| | |]; try discriminate. cbn [bind].
    destruct (get_unit_vector pc pl) as [v| | |]; try discriminate. cbn [bind].
    destruct (_ && _)%bool; [destruct (Rltb _ _)|]; intros H; injection H as <-; auto.
Qed.

Lemma py_slice_last_members {A : Type} (k : nat) (l : list A) (a : A) :
  In a (py_slice_last k l) -> In a l.
Proof. unfold py_slice_last. apply in_skipn. Qed.

Lemma py_index_labels_nonempty {A : Type} (l : list A) (i : Z) (a : A) :
  py_index l i = Ok a -> l <> [].
Proof. intros H ->. apply py_index_In in H. contradiction. Qed.

(** The steps of [construct_reference_path] on a valid input. *)
Lemma construct_reference_path_steps (fuel : nat) (labels reference_path : list point)
    (point_label l_half : point) (future_frame_num : Z) :
  (3 <= fuel)%nat ->
  (2 <= length reference_path)%nat ->
  py_index labels (- future_frame_num / 2) = Ok l_half ->
  exists (dense : list point) (idx : nat) (closest : point) (radius : R) (idx2 : nat)
         (traj_segment : list point),
    densify fuel reference_path = Ok dense /\
    np_argmin (get_dis_batch dense point_label) = Ok idx /\
    nth_error dense idx = Some closest /\
    filter_radius labels (map (fun p => vsub p (vsub closest point_label)) dense) idx
      future_frame_num = Ok radius /\
    (forall p : point, In p traj_segment -> In p labels) /\
    let filtered :=
      filter (fun p => Rleb (get_dis_p2p p point_label) radius)
             (map (fun p => vsub p (vsub closest point_label)) dense) in
    In point_label filtered /\
    (idx2 < length filtered)%nat /\
    traj_segment <> [] /\
    construct_reference_path fuel labels reference_path point_label future_frame_num
    = splice filtered idx2 traj_segment (traj_direction_of labels future_frame_num).
Proof.
  intros Hfuel Hlen Hhalf. unfold construct_reference_path.
  destruct (densify_valid fuel reference_path Hfuel Hlen) as (dense & Hd & Hd9).
  rewrite Hd. cbn [bind].
  destruct (np_argmin_ok (get_dis_batch dense point_label)) as (idx & Hidx & Hlt).
  { intros H. apply (f_equal (@length R)) in H.
    rewrite get_dis_batch_length in H. simpl in H. lia. }
  rewrite get_dis_batch_length in Hlt. rewrite Hidx. cbn [bind].
  destruct (py_index_nat_ok dense idx Hlt) as (closest & Hc & Hnth).
  rewrite Hc. cbn [bind].
  set (shifted := map (fun p => vsub p (vsub closest point_label)) dense).
  assert (Hs_len : (idx < length shifted)%nat)
    by (unfold shifted; rewrite length_map; exact Hlt).
  destruct (filter_radius_ok labels shifted idx future_frame_num l_half Hhalf Hs_len)
    as (l_last & l_first & p_last & p_closest & p_first & radius
        & _ & _ & _ & _ & _ & Hrad & _ & Hr3).
  rewrite Hrad. cbn [bind].
  set (filtered := filter (fun p => Rleb (get_dis_p2p p point_label) radius) shifted).
  assert (Hin : In point_label filtered).
  { apply filter_In. split.
    - unfold shifted. apply in_map_iff. exists closest. split.
      + apply shift_to_label.
      + eapply nth_error_In; exact Hnth.
    - apply Rleb_true. rewrite get_dis_p2p_refl. lra. }
  assert (Hf : filtered <> []) by (intros H; rewrite H in Hin; contradiction).
  destruct (np_argmin_ok (get_dis_batch filtered point_label)) as (idx2 & Hidx2 & Hlt2).
  { intros H. apply (f_equal (@length R)) in H.
    rewrite get_dis_batch_length in H. destruct filtered; [congruence | discriminate]. }
  rewrite get_dis_batch_length in Hlt2. rewrite Hidx2. cbn [bind].
  destruct (py_index_nat_ok filtered idx2 Hlt2) as (pc2 & Hpc2 & _).
  rewrite Hpc2. cbn [bind].
  exists dense, idx, closest, radius, idx2,
    (py_slice_last (S (Nat.max 0 (trailing_count labels pc2 radius - 1))) labels).
  split; [reflexivity|]. split; [exact Hidx|]. split; [exact Hnth|].
  split; [exact Hrad|]. split; [intros p; apply py_slice_last_members|].
  cbv zeta. fold shifted. fold filtered.
  split; [exact Hin|]. split; [exact Hlt2|].
  split; [|reflexivity].
  apply py_slice_last_nonempty. eapply py_index_labels_nonempty. exact Hhalf.
Qed.

(** On a valid input the call returns a path.  With [closest] the first
    point of the densified reference path nearest to the target, and the
    densified path moved so that [closest] lies on the target, the radius
    [R] of the code is the greater of 3 and the least of: the greater of 15
    and the distance from the last label to [l_half]; the distance from the
    last to the first label; the greater distance from an end of the moved
    path to the target.  Every point of the returned path is a label or a
    point of the moved path within [R] of the target. *)
Theorem construct_reference_path_members (fuel : nat) (labels reference_path : list point)
    (point_label l_half : point) (future_frame_num : Z) :
  (3 <= fuel)%nat ->
  (2 <= length reference_path)%nat ->
  py_index labels (- future_frame_num / 2) = Ok l_half ->
  exists (out dense : list point) (idx : nat)
         (closest l_last l_first p_last p_first : point),
    construct_reference_path fuel labels reference_path point_label future_frame_num
    = Ok out /\
    densify fuel reference_path = Ok dense /\
    np_argmin (get_dis_batch dense point_label) = Ok idx /\
    nth_error dense idx = Some closest /\
    (forall q : point,
        In q dense -> get_dis_p2p closest point_label <= get_dis_p2p q point_label) /\
    py_index labels (-1) = Ok l_last /\
    py_index labels 0 = Ok l_first /\
    py_index (map (fun p => vsub p (vsub closest point_label)) dense) (-1) = Ok p_last /\
    py_index (map (fun p => vsub p (vsub closest point_label)) dense) 0 = Ok p_first /\
    forall p : point,
      In p out ->
      In p labels \/
      (get_dis_p2p p point_label
       <= Rmax (Rmin (Rmin (Rmax 15 (get_dis_p2p l_last l_half))
                           (get_dis_p2p l_last l_first))
                     (Rmax (get_dis_p2p p_last point_label)
                           (get_dis_p2p p_first point_label)))
               3 /\
       exists q : point, In q dense /\ p = vsub q (vsub closest point_label)).
Proof.
  intros Hfuel Hlen Hhalf.
  destruct (construct_reference_path_steps fuel labels reference_path point_label l_half
              future_frame_num Hfuel Hlen Hhalf)
    as (dense & idx & closest & radius & idx2 & seg & Hd & Hidx & Hnth & Hrad & Hseg
        & Hsteps).
  cbv zeta in Hsteps. destruct Hsteps as (_ & Hidx2 & Hne & Heq).
  destruct (splice_nonempty _ seg idx2 (traj_direction_of labels future_frame_num)
              Hidx2 Hne) as (out & Hout & _).
  destruct (nearest_goal_spec dense point_label idx Hidx) as (nearest & Hn & Hmin & _).
  rewrite Hnth in Hn. injection Hn as <-.
  set (shifted := map (fun p => vsub p (vsub closest point_label)) dense) in *.
  assert (Hs_len : (idx < length shifted)%nat).
  { unfold shifted. rewrite length_map. apply nth_error_Some. congruence. }
  destruct (filter_radius_ok labels shifted idx future_frame_num l_half Hhalf Hs_len)
    as (l_last & l_first & p_last & p_closest & p_first & radius'
        & Hll & Hlf & Hpl & Hpc & Hpf & Hrad' & Hval & _).
  rewrite Hrad in Hrad'. injection Hrad' as <-.
  assert (Hpc' : p_closest = point_label).
  { rewrite py_index_nat in Hpc. unfold shifted in Hpc.
    rewrite nth_error_map, Hnth in Hpc. cbn [option_map] in Hpc.
    injection Hpc as <-. apply shift_to_label. }
  rewrite Hpc' in Hval.
  exists out, dense, idx, closest, l_last, l_first, p_last, p_first.
  split; [rewrite Heq; exact Hout|]. split; [exact Hd|]. split; [exact Hidx|].
  split; [exact Hnth|]. split; [exact Hmin|]. split; [exact Hll|]. split; [exact Hlf|].
  split; [exact Hpl|]. split; [exact Hpf|].
  intros p Hp. destruct (splice_members _ _ _ _ _ Hout p Hp) as [Hf|Hs].
  - right. apply filter_In in Hf. destruct Hf as [Hm Hb].
    split; [rewrite <- Hval; apply Rleb_true; exact Hb|].
    apply in_map_iff in Hm. destruct Hm as (q & Hq & Hin). exists q. auto.
  - left. apply Hseg. exact Hs.
Qed.

Lemma construct_reference_path_members_witness :
  exists (out dense : list point) (idx : nat)
         (closest l_last l_first p_last p_first : point),
    construct_reference_path 3 [(0, 0); (1, 0); (2, 0)] [(0, 0); (1000, 0)] (2, 0) 3
    = Ok out /\
    densify 3 [(0, 0); (1000, 0)] = Ok dense /\
    np_argmin (get_dis_batch dense (2, 0)) = Ok idx /\
    nth_error dense idx = Some closest /\
    (forall q : point,
        In q dense -> get_dis_p2p closest (2, 0) <= get_dis_p2p q (2, 0)) /\
    py_index [(0, 0); (1, 0); (2, 0)] (-1) = Ok l_last /\
    py_index [(0, 0); (1, 0); (2, 0)] 0 = Ok l_first /\
    py_index (map (fun p => vsub p (vsub closest (2, 0))) dense) (-1) = Ok p_last /\
    py_index (map (fun p => vsub p (vsub closest (2, 0))) dense) 0 = Ok p_first /\
    forall p : point,
      In p out ->
      In p [(0, 0); (1, 0); (2, 0)] \/
      (get_dis_p2p p (2, 0)
       <= Rmax (Rmin (Rmin (Rmax 15 (get_dis_p2p l_last (1, 0)))
                           (get_dis_p2p l_last l_first))
                     (Rmax (get_dis_p2p p_last (2, 0))
                           (get_dis_p2p p_first (2, 0))))
               3 /\
       exists q : point, In q dense /\ p = vsub q (vsub closest (2, 0))).
Proof.
  apply (construct_reference_path_members 3 [(0, 0); (1, 0); (2, 0)]
           [(0, 0); (1000, 0)] (2, 0) (1, 0) 3); [lia | simpl; lia | reflexivity].
Defined.

(** On a reference path of at least two points, the call raises
    [IndexError] when [labels[-future_frame_num//2]] does not exist, as it
    does for the empty list of labels. *)
Theorem construct_reference_path_bad_labels (fuel : nat) (labels reference_path : list point)
    (point_label : point) (future_frame_num : Z) :
  (3 <= fuel)%nat ->
  (2 <= length reference_path)%nat ->
  (forall l_half : point, py_index labels (- future_frame_num / 2) <> Ok l_half) ->
  construct_reference_path fuel labels reference_path point_label future_frame_num
  = Raise IndexError.
Proof.
  intros Hfuel Hlen Hbad. unfold construct_reference_path.
  destruct (densify_valid fuel reference_path Hfuel Hlen) as (dense & Hd & Hd9).
  rewrite Hd. cbn [bind].
  destruct (np_argmin_ok (get_dis_batch dense point_label)) as (idx & Hidx & Hlt).
  { intros H. apply (f_equal (@length R)) in H.
    rewrite get_dis_batch_length in H. simpl in H. lia. }
  rewrite get_dis_batch_length in Hlt. rewrite Hidx. cbn [bind].
  destruct (py_index_nat_ok dense idx Hlt) as (closest & Hc & _).
  rewrite Hc. cbn [bind].
  assert (Hrad : forall path : list point,
             filter_radius labels path idx future_frame_num = Raise IndexError).
  { intros path. unfold filter_radius.
    assert (Hany : forall i : Z, py_index labels i = Raise IndexError
                                 \/ exists a : point, py_index labels i = Ok a).
    { intros i. unfold py_index. destruct (_ && _)%bool; [|left; reflexivity].
      destruct (nth_error labels _); [right; eauto | left; reflexivity]. }
    destruct (Hany (-1)%Z) as [H1|[a H1]]; rewrite H1; [reflexivity|]. cbn [bind].
    destruct (Hany (- future_frame_num / 2)%Z) as [H2|[b H2]]; rewrite H2; [reflexivity|].
    exfalso. exact (Hbad b H2). }
  rewrite Hrad. reflexivity.
Qed.

Lemma construct_reference_path_bad_labels_witness :
  construct_reference_path 3 [] [(0, 0); (1000, 0)] (2, 0) 3 = Raise IndexError.
Proof.
  apply construct_reference_path_bad_labels; [lia | simpl; lia|].
  intros l_half H. discriminate H.
Defined.

(** ** Reference path: the trajectory segment *)

Lemma py_index_minus (labels : list point) (i : nat) :
  (i < length labels)%nat ->
  py_index labels (-1 - Z.of_nat i)
  = match nth_error labels (length labels - S i) with
    | Some a => Ok a
    | None => Raise IndexError
    end.
Proof.
  intros Hi. replace (-1 - Z.of_nat i)%Z with (- Z.of_nat (S i))%Z by lia.
  apply py_index_from_end. lia.
Qed.

Lemma trailing_loop_spec (labels : list point) (c : point) (radius : R)
    (fuel i : nat) :
  (i + fuel = length labels)%nat ->
  (forall (j : nat) (p : point),
      (j < i)%nat -> nth_error labels (length labels - S j) = Some p ->
      get_dis_p2p p c <= radius) ->
  let n := trailing_loop fuel i labels c radius in
  (n <= length labels)%nat /\
  (forall (j : nat) (p : point),
      (j < n)%nat -> nth_error labels (length labels - S j) = Some p ->
      get_dis_p2p p c <= radius) /\
  ((n < length labels)%nat ->
   exists p : point,
     nth_error labels (length labels - S n) = Some p /\ radius < get_dis_p2p p c).
Proof.
  revert i; induction fuel as [|fuel IH]; intros i Hlen Hgood; cbv zeta.
  - cbn [trailing_loop]. split; [lia|]. split; [exact Hgood | lia].
  - cbn [trailing_loop].
    destruct (Nat.ltb_spec i (length labels)) as [Hi|Hi]; [|lia].
    rewrite py_index_minus by exact Hi.
    destruct (nth_error labels (length labels - S i)) as [p|] eqn:Ep;
      [|apply nth_error_None in Ep; lia].
    destruct (Rle_dec (get_dis_p2p p c) radius) as [Hin|Hout].
    + apply IH; [lia|]. intros j q Hj Hq.
      destruct (Nat.eq_dec j i) as [->|Hne].
      * rewrite Ep in Hq. injection Hq as <-. exact Hin.
      * apply (Hgood j); [lia | exact Hq].
    + split; [lia|]. split; [exact Hgood|]. intros _. exists p. split; [exact Ep | lra].
Qed.

(** The loop that finds the trajectory segment counts the run of labels,
    taken from the last one backwards, that lie within the radius of the
    closest point: these last labels are all within the radius, and the
    label before them, when there is one, is not. *)
Theorem trailing_count_spec (labels : list point) (c : point) (radius : R) :
  (trailing_count labels c radius <= length labels)%nat /\
  (forall p : point,
      In p (py_slice_last (trailing_count labels c radius) labels) ->
      get_dis_p2p p c <= radius) /\
  ((trailing_count labels c radius < length labels)%nat ->
   exists p : point,
     nth_error labels (length labels - S (trailing_count labels c radius)) = Some p /\
     radius < get_dis_p2p p c).
Proof.
  destruct (trailing_loop_spec labels c radius (length labels) 0) as (Hle & Hall & Hnext).
  - reflexivity.
  - intros j p Hj. lia.
  - fold (trailing_count labels c radius) in Hle, Hall, Hnext.
    split; [exact Hle|]. split; [|exact Hnext].
    intros p Hp. unfold py_slice_last in Hp.
    apply In_nth_error in Hp. destruct Hp as (k & Hk).
    rewrite nth_error_skipn in Hk.
    assert (Hlt : (length labels - trailing_count labels c radius + k < length labels)%nat)
      by (apply nth_error_Some; congruence).
    apply (Hall (length labels
                 - S (length labels - trailing_count labels c radius + k))%nat p); [lia|].
    replace (length labels
             - S (length labels
                  - S (length labels - trailing_count labels c radius + k)))%nat
      with (length labels - trailing_count labels c radius + k)%nat by lia.
    exact Hk.
Qed.

(** ** Reference path: the splice at the ends of the path *)

(** Without a trajectory direction, or with a closest point within 1e-7 of
    both ends, the splice returns the path as it is.  With the closest
    point at the start only, the path becomes the trajectory segment when
    the trajectory direction has a positive dot product with the direction
    to the end, and the trajectory segment followed by the path from the
    closest point on otherwise; with the closest point at the end only, the
    same with the direction to the start and, otherwise, the path before
    the closest point followed by the reversed trajectory segment. *)
Theorem splice_at_ends (reference_path traj_segment : list point) (idx : nat)
    (d p_closest p_first p_last : point) :
  py_index reference_path (Z.of_nat idx) = Ok p_closest ->
  py_index reference_path 0 = Ok p_first ->
  py_index reference_path (-1) = Ok p_last ->
  splice reference_path idx traj_segment None = Ok reference_path /\
  (get_dis_p2p p_closest p_first <= 1e-7 -> get_dis_p2p p_closest p_last <= 1e-7 ->
   splice reference_path idx traj_segment (Some d) = Ok reference_path) /\
  (get_dis_p2p p_closest p_first <= 1e-7 -> 1e-7 < get_dis_p2p p_closest p_last ->
   exists end_direction : point,
     get_unit_vector p_closest p_last = Ok end_direction /\
     (0 < np_dot d end_direction ->
      splice reference_path idx traj_segment (Some d) = Ok traj_segment) /\
     (np_dot d end_direction <= 0 ->
      splice reference_path idx traj_segment (Some d)
      = Ok (traj_segment ++ skipn idx reference_path))) /\
  (1e-7 < get_dis_p2p p_closest p_first -> get_dis_p2p p_closest p_last <= 1e-7 ->
   exists start_direction : point,
     get_unit_vector p_closest p_first = Ok start_direction /\
     (0 < np_dot d start_direction ->
      splice reference_path idx traj_segment (Some d) = Ok traj_segment) /\
     (np_dot d start_direction <= 0 ->
      splice reference_path idx traj_segment (Some d)
      = Ok (firstn idx reference_path ++ rev traj_segment))).
Proof.
  intros Hc Hf Hl. unfold splice. rewrite Hc, Hf, Hl. cbn [bind].
  rewrite !np_linalg_norm_vsub.
  split; [reflexivity|]. split; [|split].
  - intros Hs He. apply Rleb_true in Hs, He. rewrite Hs, He. reflexivity.
  - intros Hs He. apply Rleb_true in Hs. apply Rleb_false in He as Heb.
    rewrite Hs, Heb. cbn [andb].
    rewrite get_unit_vector_ok by (eapply get_dis_p2p_pos_neq; [|exact He]; lra).
    cbn [bind]. eexists. split; [reflexivity|]. split; intros Hdot.
    + apply Rltb_true in Hdot. rewrite Hdot. reflexivity.
    + apply Rltb_false in Hdot. rewrite Hdot. reflexivity.
  - intros Hs He. apply Rleb_true in He. apply Rleb_false in Hs as Hsb.
    rewrite Hsb, He. cbn [andb].
    rewrite get_unit_vector_ok by (eapply get_dis_p2p_pos_neq; [|exact Hs]; lra).
    cbn [bind]. eexists. split; [reflexivity|]. split; intros Hdot.
    + apply Rltb_true in Hdot. rewrite Hdot. reflexivity.
    + apply Rltb_false in Hdot. rewrite Hdot. reflexivity.
Qed.

Lemma splice_at_ends_witness :
  splice [(0, 0); (1, 0)] 0 [(5, 5)] None = Ok [(0, 0); (1, 0)].
Proof.
  apply (splice_at_ends [(0, 0); (1, 0)] [(5, 5)] 0 (1, 0) (0, 0) (0, 0) (1, 0));
    reflexivity.
Defined.

(** ** Reference path: the densify loop *)

Lemma densify_once_ends (p : list point) :
  hd_error (densify_once p) = hd_error p /\
  (forall d : point, last (densify_once p) d = last p d) /\
  incl p (densify_once p).
Proof.
  induction p as [|a tl IH].
  - split; [reflexivity|]. split; [reflexivity | intros x Hx; exact Hx].
  - destruct tl as [|b tl'].
    + split; [reflexivity|]. split; [reflexivity | intros x Hx; exact Hx].
    + change (densify_once (a :: b :: tl'))
        with (a :: ((fst a + fst b) / 2, (snd a + snd b) / 2) :: densify_once (b :: tl')).
      destruct IH as (_ & IHl & IHi).
      split; [reflexivity|]. split.
      * intros d.
        assert (Hne : densify_once (b :: tl') <> []).
        { destruct tl'; discriminate. }
        destruct (densify_once (b :: tl')) as [|c r] eqn:E; [congruence|].
        change (last (a :: ((fst a + fst b) / 2, (snd a + snd b) / 2) :: c :: r) d)
          with (last (c :: r) d).
        rewrite IHl. reflexivity.
      * intros x [<-|Hx]; [left; reflexivity|]. right; right. apply IHi. exact Hx.
Qed.

Lemma densify_inv (fuel : nat) (p q : list point) :
  densify fuel p = Ok q ->
  (9 <= length q)%nat /\
  ((0 < length p < 9)%nat -> (length q <= 15)%nat) /\
  ((9 <= length p)%nat -> q = p) /\
  hd_error q = hd_error p /\
  (forall d : point, last q d = last p d) /\
  incl p q.
Proof.
  revert p; induction fuel as [|fuel IH]; intros p H.
  - cbn [densify] in H. destruct (Nat.leb_spec 9 (length p)) as [H9|H9]; [|discriminate].
    injection H as <-. repeat split; try lia; try reflexivity. intros x Hx; exact Hx.
  - cbn [densify] in H. destruct (Nat.leb_spec 9 (length p)) as [H9|H9].
    + injection H as <-. repeat split; try lia; try reflexivity. intros x Hx; exact Hx.
    + destruct p as [|a tl] eqn:Ep; [discriminate|]. rewrite <- Ep in *.
      assert (Hnil : p <> []) by (rewrite Ep; discriminate).
      pose proof (densify_once_length p Hnil) as Hlen.
      assert (Hpos : (0 < length p)%nat) by (rewrite Ep; cbn [length]; lia).
      destruct (densify_once_ends p) as (Hh & Hl & Hi).
      destruct (IH _ H) as (Q9 & Q15 & Qsame & Qh & Ql & Qi).
      split; [exact Q9|]. split; [|split; [intros G9; exfalso; lia|split; [|split]]].
      * intros _. destruct (Nat.leb_spec 9 (length (densify_once p))) as [G|G].
        -- rewrite (Qsame G). lia.
        -- apply Q15. lia.
      * rewrite Qh. exact Hh.
      * intros d. rewrite Ql. apply Hl.
      * intros x Hx. apply Qi, Hi, Hx.
Qed.

(** On a path of at least two points the densify loop ends within three
    passes and returns a path of at least 9 points: the path itself when it
    has 9 points already, and otherwise one of at most 15 points; the result
    starts and ends where the path does and keeps every point of it. *)
Theorem densify_spec (fuel : nat) (reference_path : list point) :
  (3 <= fuel)%nat -> (2 <= length reference_path)%nat ->
  exists dense : list point,
    densify fuel reference_path = Ok dense /\
    (9 <= length dense)%nat /\
    ((length reference_path < 9)%nat -> (length dense <= 15)%nat) /\
    ((9 <= length reference_path)%nat -> dense = reference_path) /\
    hd_error dense = hd_error reference_path /\
    (forall d : point, last dense d = last reference_path d) /\
    incl reference_path dense.
Proof.
  intros Hfuel Hlen.
  destruct (densify_valid fuel reference_path Hfuel Hlen) as (dense & Hd & _).
  exists dense. split; [exact Hd|].
  destruct (densify_inv fuel reference_path dense Hd) as (Q9 & Q15 & Qsame & Qh & Ql & Qi).
  split; [exact Q9|]. split; [intros H; apply Q15; lia|].
  split; [exact Qsame|]. split; [exact Qh|]. split; [exact Ql | exact Qi].
Qed.

Lemma densify_spec_witness :
  exists dense : list point,
    densify 3 [(0, 0); (8, 0)] = Ok dense /\
    (9 <= length dense)%nat /\
    ((length [(0, 0); (8, 0)]%R < 9)%nat -> (length dense <= 15)%nat) /\
    ((9 <= length [(0, 0); (8, 0)]%R)%nat -> dense = [(0, 0); (8, 0)]) /\
    hd_error dense = hd_error [(0, 0); (8, 0)] /\
    (forall d : point, last dense d = last [(0, 0); (8, 0)] d) /\
    incl [(0, 0); (8, 0)] dense.
Proof.
  apply (densify_spec 3 [(0, 0); (8, 0)]); cbn [length]; lia.
Defined.

(** ** Dense goal targets: range and the zero temperature *)

(** With a positive temperature and non-negative weights every dense goal
    target lies between [-1e9 / T] and [0], and there is one target for each
    goal. *)
Theorem get_dense_goal_targets_range (np_roots : list R -> list complex)
    (dense_goals : list point) (m : mapping) (T K1 K2 thres : R) (g : point) :
  0 < T -> 0 <= K1 -> 0 <= K2 ->
  py_index (labels m) (-1) = Ok g ->
  exists targets : list R,
    get_dense_goal_targets np_roots dense_goals m T K1 K2 thres = Ok targets /\
    length targets = length dense_goals /\
    Forall (fun target : R => -1e9 / T <= target <= 0) targets.
Proof.
  intros HT HK1 HK2 Hg.
  assert (Hlow : -1e9 / T <= 0).
  { unfold Rdiv. assert (0 < / T) by (apply Rinv_0_lt_compat; exact HT). nra. }
  destruct (mapM_Forall2
              (fun goal =>
                 let goal_dist := get_dis_p2p goal g in
                 if Rle_dec goal_dist thres then
                   traj_dist <- traj_dist_of np_roots goal m ;;
                   let v := -0.5 * K1 * goal_dist ^ 2 - 0.5 * K2 * traj_dist ^ 2 in
                   if Rlt_dec v (-1e9) then py_div (-1e9) T else np_div v T
                 else py_div (-1e9) T)
              (fun (_ : point) (target : R) => -1e9 / T <= target <= 0)
              dense_goals) as (targets & Hm & HF).
  - intros goal _. cbv zeta.
    destruct (Rle_dec (get_dis_p2p goal g) thres) as [Hle|Hgt].
    + destruct (traj_dist_of_total np_roots goal m) as (d & Hd & _ & _).
      rewrite Hd; cbn [bind].
      set (v := -0.5 * K1 * get_dis_p2p goal g ^ 2 - 0.5 * K2 * d ^ 2).
      assert (Hv : v <= 0).
      { unfold v. pose proof (pow2_ge_0 (get_dis_p2p goal g)). pose proof (pow2_ge_0 d).
        nra. }
      unfold py_div, np_div.
      destruct (Req_dec_T T 0) as [E|_]; [lra|].
      destruct (Rlt_dec v (-1e9)) as [Hlt|Hge].
      * eexists. split; [reflexivity|]. lra.
      * eexists. split; [reflexivity|].
        assert (0 < / T) by (apply Rinv_0_lt_compat; exact HT).
        unfold Rdiv. split; nra.
    + unfold py_div. destruct (Req_dec_T T 0) as [E|_]; [lra|].
      eexists. split; [reflexivity|]. lra.
  - exists targets. unfold get_dense_goal_targets. rewrite Hg; cbn [bind].
    split; [exact Hm|]. split.
    + symmetry. eapply Forall2_length. exact HF.
    + clear Hm. induction HF as [|a b l l' Hab _ IH]; constructor; assumption.
Qed.

Lemma get_dense_goal_targets_range_witness :
  exists targets : list R,
    get_dense_goal_targets (fun _ => []) [(0, 0); (100, 0)]
      {| labels := [(1, 0)]; quadratic_path := None |} 50 1 2 15 = Ok targets /\
    length targets = length [(0, 0); (100, 0)] /\
    Forall (fun target : R => -1e9 / 50 <= target <= 0) targets.
Proof.
  apply (get_dense_goal_targets_range (fun _ => []) [(0, 0); (100, 0)]
           {| labels := [(1, 0)]; quadratic_path := None |} 50 1 2 15 (1, 0));
    try lra; reflexivity.
Defined.

(** With a zero temperature a first goal farther than the threshold from
    the ground truth goal raises [ZeroDivisionError], at [-1e9 / T]. *)
Theorem get_dense_goal_targets_zero_T (np_roots : list R -> list complex)
    (goal : point) (rest : list point) (m : mapping) (K1 K2 thres : R) (g : point) :
  py_index (labels m) (-1) = Ok g ->
  thres < get_dis_p2p goal g ->
  get_dense_goal_targets np_roots (goal :: rest) m 0 K1 K2 thres
  = Raise ZeroDivisionError.
Proof.
  intros Hg Hfar. unfold get_dense_goal_targets. rewrite Hg; cbn [bind mapM].
  destruct (Rle_dec (get_dis_p2p goal g) thres) as [Hle|_]; [lra|].
  unfold py_div. destruct (Req_dec_T 0 0) as [_|Hne]; [reflexivity | contradiction].
Qed.

Lemma get_dense_goal_targets_zero_T_witness :
  get_dense_goal_targets (fun _ => []) [(100, 0)]
    {| labels := [(1, 0)]; quadratic_path := None |} 0 1 2 15
  = Raise ZeroDivisionError.
Proof.
  apply (get_dense_goal_targets_zero_T (fun _ => []) (100, 0) []
           {| labels := [(1, 0)]; quadratic_path := None |} 1 2 15 (1, 0)).
  - reflexivity.
  - rewrite (get_dis_p2p_value (100, 0) (1, 0) 99) by (cbn [fst snd]; lra). lra.
Defined.

(** ** The point distance is a metric *)

(** [get_dis_p2p] is non-negative and symmetric, is zero exactly between
    equal points, and satisfies the triangle inequality. *)
Theorem get_dis_p2p_metric (p q r : point) :
  0 <= get_dis_p2p p q /\
  get_dis_p2p p q = get_dis_p2p q p /\
  (get_dis_p2p p q = 0 <-> p = q) /\
  get_dis_p2p p r <= get_dis_p2p p q + get_dis_p2p q r.
Proof.
  unfold get_dis_p2p at 1 2 3 4, np_square.
  pose proof (Rle_0_sqr (fst p - fst q)) as H1.
  pose proof (Rle_0_sqr (snd p - snd q)) as H2.
  unfold Rsqr in H1, H2.
  split; [apply sqrt_pos|].
  split; [f_equal; ring|].
  split; [|apply get_dis_p2p_triangle].
  split.
  - intros H0. apply sqrt_eq_0 in H0; [|lra].
    assert (E1 : (fst p - fst q) * (fst p - fst q) = 0) by lra.
    assert (E2 : (snd p - snd q) * (snd p - snd q) = 0) by lra.
    apply Rsqr_0_uniq in E1. apply Rsqr_0_uniq in E2.
    destruct p, q; cbn [fst snd] in *. f_equal; lra.
  - intros ->.
    replace ((fst q - fst q) * (fst q - fst q) + (snd q - snd q) * (snd q - snd q))
      with 0 by ring.
    apply sqrt_0.
Qed.

(** ** Padded batches *)

Lemma mapM_seq {A B : Type} (xs : list A) (f : nat -> result B) (g : A -> B) (s : nat) :
  (forall (i : nat) (x : A), nth_error xs i = Some x -> f (s + i)%nat = Ok (g x)) ->
  mapM f (seq s (length xs)) = Ok (map g xs).
Proof.
  revert s; induction xs as [|x xs IH]; intros s H; [reflexivity|].
  cbn [length seq mapM map].
  rewrite <- (Nat.add_0_r s) at 1. rewrite (H 0%nat x eq_refl). cbn [bind].
  rewrite (IH (S s)).
  - reflexivity.
  - intros i y Hy. replace (S s + i)%nat with (s + S i)%nat by lia. apply H. exact Hy.
Qed.

Lemma fold_left_Zmax_le (l : list Z) (x : Z) :
  (x <= fold_left Z.max l x)%Z /\ (forall y : Z, In y l -> (y <= fold_left Z.max l x)%Z).
Proof.
  revert x; induction l as [|a l IH]; intros x; cbn [fold_left].
  - split; [lia | intros y []].
  - destruct (IH (Z.max x a)) as (H1 & H2). split; [lia|].
    intros y [<-|Hy]; [lia | apply H2; exact Hy].
Qed.

Lemma merge_loop_repeat {row : Type} (tensors : list (option (list row)))
    (zeros : list row) :
  merge_loop row tensors (repeat zeros (length tensors))
  = map (fun tensor : option (list row) =>
           match tensor with
           | Some t => t ++ skipn (length t) zeros
           | None => zeros
           end) tensors.
Proof.
  induction tensors as [|tensor tl IH]; [reflexivity|].
  cbn [length repeat merge_loop map]. rewrite IH. reflexivity.
Qed.

(** [merge_tensors] raises [ValueError] on an empty list of tensors.  On any
    other list it returns one padded row block for each tensor, all of the
    greatest length, with the lengths of the tensors ([0] for [None]); and
    [de_merge_tensors] on these gives the tensors back, an empty one for
    [None]. *)
Theorem merge_tensors_round_trip {row : Type} (zero_row : row)
    (tensors : list (option (list row))) :
  (tensors = [] -> merge_tensors row zero_row tensors = Raise ValueError) /\
  (tensors <> [] ->
   exists (res : list (list row)) (lengths : list Z) (max_length : nat),
     merge_tensors row zero_row tensors = Ok (res, lengths) /\
     lengths = map (fun tensor : option (list row) =>
                      match tensor with
                      | Some t => Z.of_nat (length t)
                      | None => 0%Z
                      end) tensors /\
     length res = length tensors /\
     Forall (fun r : list row => length r = max_length) res /\
     Forall (fun n : Z => (n <= Z.of_nat max_length)%Z) lengths /\
     In (Z.of_nat max_length) lengths /\
     de_merge_tensors row res lengths
     = Ok (map (fun tensor : option (list row) =>
                  match tensor with
                  | Some t => t
                  | None => []
                  end) tensors)).
Proof.
  split; [intros ->; reflexivity|].
  intros Hne. unfold merge_tensors.
  set (len := fun tensor : option (list row) =>
                match tensor with
                | Some t => Z.of_nat (length t)
                | None => 0%Z
                end).
  set (lengths := map len tensors).
  assert (Hmax : exists m : nat,
             py_max lengths = Ok (Z.of_nat m) /\ In (Z.of_nat m) lengths /\
             forall n : Z, In n lengths -> (n <= Z.of_nat m)%Z).
  { destruct tensors as [|t0 tl]; [congruence|].
    unfold lengths. cbn [map py_max].
    destruct (fold_left_Zmax_le (map len tl) (len t0)) as (H0 & Hall).
    assert (Hnn : (0 <= len t0)%Z) by (destruct t0; cbn; lia).
    exists (Z.to_nat (fold_left Z.max (map len tl) (len t0))).
    rewrite Z2Nat.id by lia. split; [reflexivity|]. split.
    - clear H0 Hall Hnn. generalize (len t0) as x. generalize (map len tl) as l.
      induction l as [|a l IH]; intros x; cbn [fold_left]; [left; reflexivity|].
      destruct (IH (Z.max x a)) as [E|Hin].
      + destruct (Z.max_spec x a) as [[_ Em]|[_ Em]]; rewrite Em in *.
        * right; left; exact E.
        * left; exact E.
      + right; right; exact Hin.
    - intros n [<-|Hn]; [exact H0 | apply Hall; exact Hn]. }
  destruct Hmax as (m & Hm & Hin & Hle).
  rewrite Hm; cbn [bind]. rewrite Nat2Z.id. rewrite merge_loop_repeat.
  set (pad := fun tensor : option (list row) =>
                match tensor with
                | Some t => t ++ skipn (length t) (repeat zero_row m)
                | None => repeat zero_row m
                end).
  exists (map pad tensors), lengths, m.
  split; [reflexivity|]. split; [reflexivity|].
  split; [apply length_map|].
  split.
  { apply Forall_forall. intros r Hr. apply in_map_iff in Hr.
    destruct Hr as (tensor & <- & Ht).
    destruct tensor as [t|]; cbn [pad].
    - assert (Hl : (len (Some t) <= Z.of_nat m)%Z) by (apply Hle, in_map, Ht).
      cbn [len] in Hl.
      rewrite length_app, length_skipn, repeat_length. lia.
    - apply repeat_length. }
  split; [apply Forall_forall; exact Hle|]. split; [exact Hin|].
  unfold de_merge_tensors.
  replace (length lengths) with (length tensors) by (unfold lengths; symmetry; apply length_map).
  apply mapM_seq. intros i tensor Hi. cbn [Nat.add].
  rewrite !py_index_nat. unfold lengths.
  rewrite !nth_error_map, Hi. cbn [option_map bind].
  f_equal. destruct tensor as [t|]; cbn [len pad].
  - unfold py_slice_to. destruct (Z.leb_spec 0 (Z.of_nat (length t))) as [_|Hneg]; [|lia].
    rewrite Nat2Z.id. rewrite firstn_app, Nat.sub_diag, firstn_all. cbn [firstn].
    apply app_nil_r.
  - reflexivity.
Qed.

Lemma merge_tensors_round_trip_witness :
  exists (res : list (list nat)) (lengths : list Z) (max_length : nat),
    merge_tensors nat 0%nat [Some [1%nat; 2%nat]; None; Some [3%nat]] = Ok (res, lengths) /\
    lengths = map (fun tensor : option (list nat) =>
                     match tensor with
                     | Some t => Z.of_nat (length t)
                     | None => 0%Z
                     end) [Some [1%nat; 2%nat]; None; Some [3%nat]] /\
    length res = length [Some [1%nat; 2%nat]; None; Some [3%nat]] /\
    Forall (fun r : list nat => length r = max_length) res /\
    Forall (fun n : Z => (n <= Z.of_nat max_length)%Z) lengths /\
    In (Z.of_nat max_length) lengths /\
    de_merge_tensors nat res lengths
    = Ok (map (fun tensor : option (list nat) =>
                 match tensor with
                 | Some t => t
                 | None => []
                 end) [Some [1%nat; 2%nat]; None; Some [3%nat]]).
Proof.
  apply (merge_tensors_round_trip 0%nat [Some [1%nat; 2%nat]; None; Some [3%nat]]).
  discriminate.
Defined.

(** ** Subdividing a polygon *)

Lemma subdivide_sum_ge (polygon : list point) (acc : R) (point_pre : point) :
  0 <= acc -> 0 <= subdivide_sum acc point_pre polygon.
Proof.
  revert acc point_pre; induction polygon as [|p tl IH]; intros acc pre Hacc;
    cbn [subdivide_sum]; [exact Hacc|].
  apply IH. pose proof (sqrt_pos (np_square (fst p - fst pre) + np_square (snd p - snd pre))).
  unfold get_dis_p2p. lra.
Qed.

Lemma subdivide_average_ok (polygon : list point) :
  length polygon <> 1%nat ->
  exists average_dis : R, subdivide_average polygon = Ok average_dis /\ 0 <= average_dis.
Proof.
  intros Hlen. destruct polygon as [|p [|q tl]].
  - eexists. split; [reflexivity|]. lra.
  - cbn [length] in Hlen. congruence.
  - eexists. split; [reflexivity|].
    apply Rmult_le_pos; [apply subdivide_sum_ge; lra|].
    apply Rlt_le, Rinv_0_lt_compat. apply lt_0_INR. cbn [length]. lia.
Qed.

Lemma divide_loop_more (fuel : nat) (average_dis threshold : R) (d n : nat) :
  divide_loop fuel average_dis threshold d = Ok n ->
  forall fuel' : nat, (fuel <= fuel')%nat ->
                      divide_loop fuel' average_dis threshold d = Ok n.
Proof.
  revert d; induction fuel as [|fuel IH]; intros d H fuel' Hle.
  - cbn [divide_loop] in H.
    destruct (Rlt_dec threshold (average_dis / INR d)) as [Hlt|Hge]; [discriminate|].
    destruct fuel'; cbn [divide_loop];
      destruct (Rlt_dec threshold (average_dis / INR d)); try contradiction; exact H.
  - destruct fuel' as [|fuel']; [lia|].
    cbn [divide_loop] in H |- *.
    destruct (Rlt_dec threshold (average_dis / INR d)) as [Hlt|Hge]; [|exact H].
    apply IH; [exact H | lia].
Qed.

Lemma divide_loop_least (average_dis threshold : R) (fuel d : nat) :
  0 < threshold ->
  (1 <= d)%nat ->
  (forall k : nat, (1 <= k < d)%nat -> threshold < average_dis / INR k) ->
  average_dis / threshold < INR (d + fuel) ->
  exists n : nat,
    divide_loop fuel average_dis threshold d = Ok n /\
    (d <= n)%nat /\
    average_dis / INR n <= threshold /\
    (forall k : nat, (1 <= k < n)%nat -> threshold < average_dis / INR k).
Proof.
  intros Ht. revert d; induction fuel as [|fuel IH]; intros d Hd Hbelow Hfuel.
  - cbn [divide_loop].
    destruct (Rlt_dec threshold (average_dis / INR d)) as [Hlt|Hge].
    + exfalso. rewrite Nat.add_0_r in Hfuel.
      assert (Hpos : 0 < INR d) by (apply lt_0_INR; lia).
      apply (Rmult_lt_compat_r (INR d)) in Hlt; [|exact Hpos].
      apply (Rmult_lt_compat_r threshold) in Hfuel; [|exact Ht].
      unfold Rdiv in Hlt, Hfuel.
      rewrite Rmult_assoc, Rinv_l, Rmult_1_r in Hlt by lra.
      rewrite Rmult_assoc, Rinv_l, Rmult_1_r in Hfuel by lra.
      lra.
    + exists d. split; [reflexivity|]. split; [lia|]. split; [lra | exact Hbelow].
  - cbn [divide_loop].
    destruct (Rlt_dec threshold (average_dis / INR d)) as [Hlt|Hge].
    + destruct (IH (S d)) as (n & Hn & Hdn & Hle & Hleast).
      * lia.
      * intros k Hk. destruct (Nat.eq_dec k d) as [->|Hne]; [exact Hlt|].
        apply Hbelow. lia.
      * replace (S d + fuel)%nat with (d + S fuel)%nat by lia. exact Hfuel.
      * exists n. split; [exact Hn|]. split; [lia|]. split; [exact Hle | exact Hleast].
    + exists d. split; [reflexivity|]. split; [lia|]. split; [lra | exact Hbelow].
Qed.

Lemma divide_loop_ends (average_dis threshold : R) :
  0 < threshold -> 0 <= average_dis ->
  exists n fuel0 : nat,
    (1 <= n)%nat /\
    average_dis / INR n <= threshold /\
    (forall k : nat, (1 <= k < n)%nat -> threshold < average_dis / INR k) /\
    (forall fuel : nat, (fuel0 <= fuel)%nat ->
                        divide_loop fuel average_dis threshold 1 = Ok n).
Proof.
  intros Ht Ha.
  set (fuel0 := Z.to_nat (up (average_dis / threshold))).
  assert (Hq : 0 <= average_dis / threshold).
  { apply Rmult_le_pos; [exact Ha | apply Rlt_le, Rinv_0_lt_compat; exact Ht]. }
  destruct (archimed (average_dis / threshold)) as (Hup & _).
  assert (Hupz : (0 <= up (average_dis / threshold))%Z).
  { apply le_IZR. lra. }
  destruct (divide_loop_least average_dis threshold fuel0 1 Ht) as (n & Hn & H1 & Hle & Hleast).
  - lia.
  - intros k Hk. lia.
  - assert (Hf : INR fuel0 = IZR (up (average_dis / threshold))).
    { unfold fuel0. rewrite INR_IZR_INZ, Z2Nat.id by exact Hupz. reflexivity. }
    rewrite plus_INR, Hf. change (INR 1) with 1. lra.
  - exists n, fuel0. split; [exact H1|]. split; [exact Hle|]. split; [exact Hleast|].
    intros fuel Hfuel. eapply divide_loop_more; [exact Hn | exact Hfuel].
Qed.

Lemma divide_loop_never_ends (average_dis threshold : R) (fuel d : nat) :
  threshold < 0 -> 0 <= average_dis -> (1 <= d)%nat ->
  divide_loop fuel average_dis threshold d = OutOfFuel.
Proof.
  intros Ht Ha. revert d; induction fuel as [|fuel IH]; intros d Hd; cbn [divide_loop].
  - destruct (Rlt_dec threshold (average_dis / INR d)) as [_|Hge]; [reflexivity|].
    exfalso. apply Hge.
    assert (0 <= average_dis / INR d); [|lra].
    apply Rmult_le_pos; [exact Ha|]. apply Rlt_le, Rinv_0_lt_compat, lt_0_INR. lia.
  - destruct (Rlt_dec threshold (average_dis / INR d)) as [_|Hge]; [apply IH; lia|].
    exfalso. apply Hge.
    assert (0 <= average_dis / INR d); [|lra].
    apply Rmult_le_pos; [exact Ha|]. apply Rlt_le, Rinv_0_lt_compat, lt_0_INR. lia.
Qed.

Lemma subdivide_ks_plain (ks : list nat) (n : nat) (pre p : point)
    (points unit_vectors : list point) :
  subdivide_ks ks n false pre p points unit_vectors
  = Ok (points ++ map (fun k : nat => get_kth_point pre p (INR k / INR n)) ks,
        unit_vectors).
Proof.
  revert points; induction ks as [|k ks IH]; intros points; cbn [subdivide_ks map].
  - rewrite app_nil_r. reflexivity.
  - rewrite IH, <- app_assoc. reflexivity.
Qed.

Lemma subdivide_ks_units (ks : list nat) (n : nat) (pre p u : point)
    (points unit_vectors : list point) :
  get_unit_vector pre p = Ok u ->
  subdivide_ks ks n true pre p points unit_vectors
  = Ok (points ++ map (fun k : nat => get_kth_point pre p (INR k / INR n)) ks,
        unit_vectors ++ repeat u (length ks)).
Proof.
  intros Hu. revert points unit_vectors; induction ks as [|k ks IH];
    intros points unit_vectors; cbn [subdivide_ks map length repeat].
  - rewrite !app_nil_r. reflexivity.
  - rewrite Hu; cbn [bind]. rewrite IH, <- !app_assoc. reflexivity.
Qed.

Lemma subdivide_loop_plain (tl : list point) (pre : point) (n : nat) (include : bool)
    (points unit_vectors : list point) :
  subdivide_loop tl (Some pre) n include false points unit_vectors
  = Ok (points ++ flat_map (segment_division n include) (combine (pre :: tl) tl),
        unit_vectors).
Proof.
  revert pre points; induction tl as [|p tl IH]; intros pre points.
  - cbn [subdivide_loop combine flat_map]. rewrite app_nil_r. reflexivity.
  - cbn [subdivide_loop]. rewrite subdivide_ks_plain. cbn [bind].
    rewrite IH. cbn [combine flat_map]. unfold segment_division at 2. cbn [fst snd].
    destruct include; rewrite <- ?app_assoc; reflexivity.
Qed.

(** On a polygon of at least two points and with a positive threshold the
    loop that chooses the number of parts ends, at the least positive
    [divide_num] whose quotient [average_dis / divide_num] is at most the
    threshold; without unit vectors and side points the function returns every
    segment of the polygon divided into [divide_num] equal parts, with the
    points of the polygon under [include_self], and so
    [(len(polygon) - 1) * (divide_num - 1)] points, plus [len(polygon)]
    under [include_self]. *)
Theorem get_subdivide_points_spec (polygon : list point) (include_self : bool)
    (threshold : R) :
  (2 <= length polygon)%nat -> 0 < threshold ->
  exists (average_dis : R) (divide_num fuel0 : nat),
    subdivide_average polygon = Ok average_dis /\
    (1 <= divide_num)%nat /\
    average_dis / INR divide_num <= threshold /\
    (forall k : nat, (1 <= k < divide_num)%nat -> threshold < average_dis / INR k) /\
    (forall fuel : nat,
        (fuel0 <= fuel)%nat ->
        get_subdivide_points fuel polygon include_self threshold false false
        = Some (Ok (subdivided polygon divide_num include_self, None))) /\
    length (subdivided polygon divide_num include_self)
    = ((length polygon - 1) * (divide_num - 1)
       + (if include_self then length polygon else 0))%nat.
Proof.
  intros Hlen Ht.
  destruct (subdivide_average_ok polygon) as (avg & Havg & Hpos); [lia|].
  destruct (divide_loop_ends avg threshold Ht Hpos) as (n & fuel0 & H1 & Hle & Hleast & Hrun).
  exists avg, n, fuel0.
  split; [exact Havg|]. split; [exact H1|]. split; [exact Hle|]. split; [exact Hleast|].
  destruct polygon as [|p0 tl]; [cbn [length] in Hlen; lia|].
  split.
  - intros fuel Hfuel. unfold get_subdivide_points. rewrite Havg.
    cbn [andb]. rewrite (Hrun fuel Hfuel). cbn [bind].
    rewrite orb_false_r. cbn [subdivide_loop bind].
    rewrite subdivide_loop_plain. cbn [bind].
    unfold subdivided, consecutive. cbn [List.tl firstn].
    destruct include_self; reflexivity.
  - unfold subdivided, consecutive. cbn [List.tl firstn]. rewrite length_app.
    assert (Hflat : forall (l : list point) (pre : point),
               length (flat_map (segment_division n include_self) (combine (pre :: l) l))
               = (length l * (n - 1 + (if include_self then 1 else 0)))%nat).
    { induction l as [|q l IH]; intros pre; [reflexivity|].
      change (combine (pre :: q :: l) (q :: l)) with ((pre, q) :: combine (q :: l) l).
      cbn [flat_map length]. rewrite length_app, IH.
      unfold segment_division. rewrite length_app, length_map, length_seq.
      destruct include_self; cbn [length]; lia. }
    rewrite Hflat. cbn [length]. destruct include_self; cbn [length]; nia.
Qed.

Lemma get_subdivide_points_spec_witness :
  exists (average_dis : R) (divide_num fuel0 : nat),
    subdivide_average [(0, 0); (3, 0)] = Ok average_dis /\
    (1 <= divide_num)%nat /\
    average_dis / INR divide_num <= 1 /\
    (forall k : nat, (1 <= k < divide_num)%nat -> 1 < average_dis / INR k) /\
    (forall fuel : nat,
        (fuel0 <= fuel)%nat ->
        get_subdivide_points fuel [(0, 0); (3, 0)] false 1 false false
        = Some (Ok (subdivided [(0, 0); (3, 0)] divide_num false, None))) /\
    length (subdivided [(0, 0); (3, 0)] divide_num false)
    = ((length [(0, 0); (3, 0)]%R - 1) * (divide_num - 1)
       + (if false then length [(0, 0); (3, 0)]%R else 0))%nat.
Proof.
  apply (get_subdivide_points_spec [(0, 0); (3, 0)] false 1); [cbn [length]; lia | lra].
Defined.

(** The edges of [get_subdivide_points]: a polygon of one point raises
    [ZeroDivisionError], whatever the flags, at the average; on any other
    polygon [return_unit_vectors] together with [include_self] or
    [include_beside] fails the assertion, and otherwise a negative threshold
    keeps the loop that chooses the number of parts from ending. *)
Theorem get_subdivide_points_edges (fuel : nat) (polygon : list point)
    (include_self : bool) (threshold : R) (include_beside return_unit_vectors : bool) :
  (length polygon = 1%nat ->
   get_subdivide_points fuel polygon include_self threshold include_beside
     return_unit_vectors = Some (Raise ZeroDivisionError)) /\
  (length polygon <> 1%nat ->
   return_unit_vectors && (include_self || include_beside) = true ->
   get_subdivide_points fuel polygon include_self threshold include_beside
     return_unit_vectors = None) /\
  (length polygon <> 1%nat ->
   return_unit_vectors && (include_self || include_beside) = false ->
   threshold < 0 ->
   get_subdivide_points fuel polygon include_self threshold include_beside
     return_unit_vectors = Some OutOfFuel).
Proof.
  split; [|split].
  - intros Hlen. destruct polygon as [|p [|q tl]]; cbn [length] in Hlen; try lia.
    reflexivity.
  - intros Hlen Hflags. destruct (subdivide_average_ok polygon Hlen) as (avg & Havg & _).
    unfold get_subdivide_points. rewrite Havg, Hflags. reflexivity.
  - intros Hlen Hflags Ht.
    destruct (subdivide_average_ok polygon Hlen) as (avg & Havg & Hpos).
    unfold get_subdivide_points. rewrite Havg, Hflags.
    rewrite divide_loop_never_ends by (try assumption; lia). reflexivity.
Qed.

Lemma get_subdivide_points_edges_witness :
  get_subdivide_points 5 [(0, 0)] false 1 false false = Some (Raise ZeroDivisionError).
Proof.
  apply (get_subdivide_points_edges 5 [(0, 0)] false 1 false false). reflexivity.
Defined.

Lemma get_unit_vector_cases (a b : point) :
  (exists u : point, get_unit_vector a b = Ok u) \/
  get_unit_vector a b = Raise ZeroDivisionError.
Proof.
  unfold get_unit_vector, py_div.
  destruct (Req_dec_T _ 0); [right | left; eexists]; reflexivity.
Qed.

Lemma subdivide_ks_raise (ks : list nat) (n : nat) (pre p : point) (e : exn)
    (points unit_vectors : list point) :
  ks <> [] -> get_unit_vector pre p = Raise e ->
  subdivide_ks ks n true pre p points unit_vectors = Raise e.
Proof.
  intros Hks He. destruct ks as [|k ks]; [congruence|].
  cbn [subdivide_ks]. rewrite He. reflexivity.
Qed.

Lemma subdivide_loop_units (tl : list point) (pre : point) (n : nat)
    (points unit_vectors dirs : list point) :
  mapM (fun ab : point * point => get_unit_vector (fst ab) (snd ab))
       (combine (pre :: tl) tl) = Ok dirs ->
  subdivide_loop tl (Some pre) n false true points unit_vectors
  = Ok (points ++ flat_map (segment_division n false) (combine (pre :: tl) tl),
        unit_vectors ++ flat_map (fun d : point => repeat d (n - 1)) dirs).
Proof.
  revert pre points unit_vectors dirs; induction tl as [|p tl IH];
    intros pre points unit_vectors dirs H.
  - cbn [combine mapM] in H. injection H as <-.
    cbn [subdivide_loop combine flat_map]. rewrite !app_nil_r. reflexivity.
  - change (combine (pre :: p :: tl) (p :: tl)) with ((pre, p) :: combine (p :: tl) tl)
      in H |- *.
    cbn [mapM fst snd] in H.
    destruct (get_unit_vector pre p) as [u| | |] eqn:Eu; try discriminate.
    cbn [bind] in H.
    destruct (mapM (fun ab : point * point => get_unit_vector (fst ab) (snd ab))
                   (combine (p :: tl) tl)) as [ds| | |] eqn:Em; try discriminate.
    cbn [bind] in H. injection H as <-.
    cbn [subdivide_loop]. rewrite (subdivide_ks_units _ _ _ _ u) by exact Eu.
    cbn [bind]. rewrite (IH _ _ _ ds Em).
    cbn [flat_map]. unfold segment_division at 2. cbn [fst snd].
    rewrite app_nil_r, length_seq, <- !app_assoc. reflexivity.
Qed.

Lemma subdivide_loop_raise (tl : list point) (pre : point) (n : nat)
    (points unit_vectors : list point) :
  (2 <= n)%nat ->
  (exists a : point, In (a, a) (combine (pre :: tl) tl)) ->
  subdivide_loop tl (Some pre) n false true points unit_vectors
  = Raise ZeroDivisionError.
Proof.
  intros Hn. revert pre points unit_vectors; induction tl as [|p tl IH];
    intros pre points unit_vectors (a & Ha).
  - destruct Ha.
  - change (combine (pre :: p :: tl) (p :: tl)) with ((pre, p) :: combine (p :: tl) tl)
      in Ha.
    cbn [subdivide_loop].
    destruct (get_unit_vector_cases pre p) as [(u & Eu)|Eu].
    + rewrite (subdivide_ks_units _ _ _ _ u) by exact Eu. cbn [bind].
      apply IH. destruct Ha as [E|Ha]; [|exists a; exact Ha].
      injection E as -> ->. rewrite get_unit_vector_same in Eu. discriminate.
    + rewrite (subdivide_ks_raise _ _ _ _ ZeroDivisionError); [reflexivity| |exact Eu].
      destruct n as [|[|n]]; [lia | lia | discriminate].
Qed.

(** With [return_unit_vectors], and the number of parts [divide_num] of the
    plain call: when the unit vector of every segment exists, the function
    returns the same points as the plain call together with, for each
    segment, its unit vector [divide_num - 1] times, so one vector for each
    point; when the average segment length exceeds the threshold and two
    consecutive points of the polygon are equal, it raises
    [ZeroDivisionError]. *)
Theorem get_subdivide_points_unit_vectors (polygon : list point) (threshold : R) :
  (2 <= length polygon)%nat -> 0 < threshold ->
  exists (average_dis : R) (divide_num fuel0 : nat),
    subdivide_average polygon = Ok average_dis /\
    forall fuel : nat,
      (fuel0 <= fuel)%nat ->
      get_subdivide_points fuel polygon false threshold false false
      = Some (Ok (subdivided polygon divide_num false, None)) /\
      (forall dirs : list point,
          mapM (fun ab : point * point => get_unit_vector (fst ab) (snd ab))
               (consecutive polygon) = Ok dirs ->
          get_subdivide_points fuel polygon false threshold false true
          = Some (Ok (subdivided polygon divide_num false,
                      Some (flat_map (fun d : point => repeat d (divide_num - 1)) dirs))) /\
          length (flat_map (fun d : point => repeat d (divide_num - 1)) dirs)
          = length (subdivided polygon divide_num false)) /\
      (threshold < average_dis ->
       (exists a : point, In (a, a) (consecutive polygon)) ->
       get_subdivide_points fuel polygon false threshold false true
       = Some (Raise ZeroDivisionError)).
Proof.
  intros Hlen Ht.
  destruct (subdivide_average_ok polygon) as (avg & Havg & Hpos); [lia|].
  destruct (divide_loop_ends avg threshold Ht Hpos) as (n & fuel0 & H1 & Hle & Hleast & Hrun).
  exists avg, n, fuel0. split; [exact Havg|].
  intros fuel Hfuel.
  destruct polygon as [|p0 tl]; [cbn [length] in Hlen; lia|].
  unfold get_subdivide_points. rewrite Havg. cbn [andb orb].
  rewrite (Hrun fuel Hfuel). cbn [bind subdivide_loop].
  unfold subdivided, consecutive. cbn [List.tl app].
  split; [|split].
  - rewrite subdivide_loop_plain. reflexivity.
  - intros dirs Hdirs. rewrite (subdivide_loop_units _ _ _ _ _ dirs Hdirs).
    cbn [bind app]. split; [reflexivity|].
    clear - Hdirs. revert p0 dirs Hdirs.
    induction tl as [|q tl IH]; intros p0 dirs Hdirs.
    + cbn [combine mapM] in Hdirs. injection Hdirs as <-. reflexivity.
    + change (combine (p0 :: q :: tl) (q :: tl)) with ((p0, q) :: combine (q :: tl) tl)
        in Hdirs |- *.
      cbn [mapM] in Hdirs.
      destruct (get_unit_vector (fst (p0, q)) (snd (p0, q))) as [u| | |];
        try discriminate.
      cbn [bind] in Hdirs.
      destruct (mapM (fun ab : point * point => get_unit_vector (fst ab) (snd ab))
                     (combine (q :: tl) tl)) as [ds| | |] eqn:Em; try discriminate.
      cbn [bind] in Hdirs. injection Hdirs as <-.
      cbn [flat_map]. rewrite !length_app, (IH q ds Em).
      unfold segment_division. rewrite length_app, length_map, length_seq, repeat_length.
      cbn [length]. lia.
  - intros Havg_gt Hsame.
    assert (Hn : (2 <= n)%nat).
    { destruct (Nat.eq_dec n 1) as [->|Hne]; [|lia].
      exfalso. change (INR 1) with 1 in Hle. lra. }
    rewrite subdivide_loop_raise by assumption. reflexivity.
Qed.

Lemma get_subdivide_points_unit_vectors_witness :
  exists (average_dis : R) (divide_num fuel0 : nat),
    subdivide_average [(0, 0); (3, 0)] = Ok average_dis /\
    forall fuel : nat,
      (fuel0 <= fuel)%nat ->
      get_subdivide_points fuel [(0, 0); (3, 0)] false 1 false false
      = Some (Ok (subdivided [(0, 0); (3, 0)] divide_num false, None)) /\
      (forall dirs : list point,
          mapM (fun ab : point * point => get_unit_vector (fst ab) (snd ab))
               (consecutive [(0, 0); (3, 0)]) = Ok dirs ->
          get_subdivide_points fuel [(0, 0); (3, 0)] false 1 false true
          = Some (Ok (subdivided [(0, 0); (3, 0)] divide_num false,
                      Some (flat_map (fun d : point => repeat d (divide_num - 1)) dirs))) /\
          length (flat_map (fun d : point => repeat d (divide_num - 1)) dirs)
          = length (subdivided [(0, 0); (3, 0)] divide_num false)) /\
      (1 < average_dis ->
       (exists a : point, In (a, a) (consecutive [(0, 0); (3, 0)])) ->
       get_subdivide_points fuel [(0, 0); (3, 0)] false 1 false true
       = Some (Raise ZeroDivisionError)).
Proof.
  apply (get_subdivide_points_unit_vectors [(0, 0); (3, 0)] 1); [cbn [length]; lia | lra].
Defined.

Lemma get_kth_point_0 (a b : point) : get_kth_point a b 0 = a.
Proof. destruct a as [ax ay]. unfold get_kth_point; cbn [fst snd]. f_equal; ring. Qed.

Lemma get_kth_point_1 (a b : point) : get_kth_point a b 1 = b.
Proof. destruct b as [bx by_]. unfold get_kth_point; cbn [fst snd]. f_equal; ring. Qed.

Lemma get_kth_point_same (a : point) (r : R) : get_kth_point a a r = a.
Proof. destruct a as [ax ay]. unfold get_kth_point; cbn [fst snd]. f_equal; ring. Qed.

Lemma get_kth_point_inj (a b : point) (r s : R) :
  a <> b -> get_kth_point a b r = get_kth_point a b s -> r = s.
Proof.
  intros Hab H. destruct a as [ax ay], b as [bx by_].
  unfold get_kth_point in H; cbn [fst snd] in H. injection H as Hx Hy.
  assert (Ex : (bx - ax) * (r - s) = 0).
  { replace ((bx - ax) * (r - s))
      with (ax * (1 - r) + bx * r - (ax * (1 - s) + bx * s)) by ring. lra. }
  assert (Ey : (by_ - ay) * (r - s) = 0).
  { replace ((by_ - ay) * (r - s))
      with (ay * (1 - r) + by_ * r - (ay * (1 - s) + by_ * s)) by ring. lra. }
  destruct (Req_dec r s) as [E|Hne]; [exact E|]. exfalso. apply Hab.
  apply Rmult_integral in Ex. apply Rmult_integral in Ey.
  f_equal; lra.
Qed.

Lemma ratio_inj (a b n : nat) : (1 <= n)%nat -> INR a / INR n = INR b / INR n -> a = b.
Proof.
  intros Hn H. apply INR_eq. unfold Rdiv in H.
  apply Rmult_eq_reg_r in H; [exact H|].
  apply Rinv_neq_0_compat, not_0_INR. lia.
Qed.

Lemma last_cons {A : Type} (l : list A) (a d : A) : last (a :: l) d = last l a.
Proof.
  revert a d; induction l as [|b l IH]; intros a d; [reflexivity|].
  change (last (a :: b :: l) d) with (last (b :: l) d).
  rewrite (IH b d), (IH b a). reflexivity.
Qed.

Lemma no_repeat_app (pre : point) (l1 l2 : list point) :
  no_repeat pre l1 -> no_repeat (last l1 pre) l2 -> no_repeat pre (l1 ++ l2).
Proof.
  revert pre; induction l1 as [|p l1 IH]; intros pre H1 H2; [exact H2|].
  cbn [app no_repeat] in *. destruct H1 as (Hne & H1). split; [exact Hne|].
  apply IH; [exact H1|]. rewrite last_cons in H2. exact H2.
Qed.

Lemma has_repeat_app (pre : point) (l1 l2 : list point) :
  has_repeat pre l1 \/ has_repeat (last l1 pre) l2 -> has_repeat pre (l1 ++ l2).
Proof.
  revert pre; induction l1 as [|p l1 IH]; intros pre H.
  - destruct H as [[]|H]; exact H.
  - cbn [app has_repeat] in *. rewrite last_cons in H.
    destruct H as [[E|H]|H]; [left; exact E | right; apply IH; left; exact H
                              | right; apply IH; right; exact H].
Qed.

Lemma division_no_repeat (pre p : point) (n m j : nat) :
  pre <> p -> (j + m + 1 = n)%nat ->
  no_repeat (get_kth_point pre p (INR j / INR n))
    (map (fun k : nat => get_kth_point pre p (INR k / INR n)) (seq (S j) m) ++ [p]).
Proof.
  intros Hne. revert j; induction m as [|m IH]; intros j Hj.
  - cbn [seq map app no_repeat]. split; [|exact I].
    intros E. rewrite <- (get_kth_point_1 pre p) in E at 2.
    apply (get_kth_point_inj pre p _ _ Hne) in E.
    assert (Hn : INR n <> 0) by (apply not_0_INR; lia).
    assert (E' : INR j = INR n).
    { apply (Rmult_eq_reg_r (/ INR n)); [|apply Rinv_neq_0_compat; exact Hn].
      unfold Rdiv in E. rewrite E. field. exact Hn. }
    apply INR_eq in E'. lia.
  - cbn [seq map app no_repeat]. split.
    + intros E. apply (get_kth_point_inj pre p _ _ Hne) in E.
      apply ratio_inj in E; lia.
    + apply IH. lia.
Qed.

Lemma base_no_repeat (tl : list point) (pre : point) (n : nat) :
  (1 <= n)%nat ->
  (forall a b : point, In (a, b) (combine (pre :: tl) tl) -> a <> b) ->
  no_repeat pre (flat_map (segment_division n true) (combine (pre :: tl) tl)).
Proof.
  intros Hn. revert pre; induction tl as [|p tl IH]; intros pre Hall; [exact I|].
  change (combine (pre :: p :: tl) (p :: tl)) with ((pre, p) :: combine (p :: tl) tl)
    in Hall |- *.
  cbn [flat_map]. unfold segment_division at 1. cbn [fst snd].
  apply no_repeat_app.
  - rewrite <- (get_kth_point_0 pre p) at 1.
    replace 0 with (INR 0 / INR n) by (cbn [INR]; unfold Rdiv; ring).
    apply division_no_repeat; [apply Hall; left; reflexivity | lia].
  - rewrite last_last. apply IH. intros a b Hab. apply Hall. right. exact Hab.
Qed.

Lemma base_has_repeat (tl : list point) (pre : point) (n : nat) :
  (exists a : point, In (a, a) (combine (pre :: tl) tl)) ->
  has_repeat pre (flat_map (segment_division n true) (combine (pre :: tl) tl)).
Proof.
  revert pre; induction tl as [|p tl IH]; intros pre (a & Ha); [destruct Ha|].
  change (combine (pre :: p :: tl) (p :: tl)) with ((pre, p) :: combine (p :: tl) tl)
    in Ha |- *.
  cbn [flat_map]. unfold segment_division at 1. cbn [fst snd].
  apply has_repeat_app. destruct Ha as [E|Ha].
  - left. injection E as -> ->.
    destruct (seq 1 (n - 1)) as [|k ks]; cbn [map app has_repeat]; left;
      [reflexivity | symmetry; apply get_kth_point_same].
  - right. rewrite last_last. apply IH. exists a. exact Ha.
Qed.

Lemma beside_points_eq (i : nat) (pre p der : point) (acc : list point) :
  beside_points i pre p der acc
  = acc ++ (if (i =? 1)%nat
            then [beside_offset p der (-2); beside_offset pre der (-2);
                  beside_offset p der (-1); beside_offset pre der (-1);
                  beside_offset p der 1; beside_offset pre der 1;
                  beside_offset p der 2; beside_offset pre der 2]
            else [beside_offset p der (-2); beside_offset p der (-1);
                  beside_offset p der 1; beside_offset p der 2]).
Proof.
  unfold beside_points, beside_offset. cbn [fold_left Z.eqb].
  destruct (i =? 1)%nat; rewrite <- ?app_assoc; reflexivity.
Qed.

Lemma beside_offset_dist (p der : point) (k : Z) (c : R) :
  fst der * fst der + snd der * snd der = 1 ->
  0 <= c -> IZR k * IZR k = c * c ->
  get_dis_p2p (beside_offset p der k) p = c.
Proof.
  intros Hder Hc Hk. apply get_dis_p2p_value; [exact Hc|].
  unfold beside_offset; cbn [fst snd].
  replace ((fst p + IZR k * fst der - fst p) * (fst p + IZR k * fst der - fst p)
           + (snd p + IZR k * snd der - snd p) * (snd p + IZR k * snd der - snd p))
    with (IZR k * IZR k * (fst der * fst der + snd der * snd der)) by ring.
  rewrite Hder, Hk. ring.
Qed.

Lemma beside_der_unit (pre p : point) :
  pre <> p ->
  let der_x := fst p - fst pre in
  let der_y := snd p - snd pre in
  let r := sqrt (der_x ^ 2 + der_y ^ 2) in
  r <> 0 /\
  let der := rotate (der_x * (1 / r)) (der_y * (1 / r)) (PI / 2) in
  fst der * fst der + snd der * snd der = 1.
Proof.
  intros Hne der_x der_y r.
  assert (HD : 0 <= der_x ^ 2 + der_y ^ 2).
  { pose proof (pow2_ge_0 der_x). pose proof (pow2_ge_0 der_y). lra. }
  assert (Hr : r <> 0).
  { intros E. apply Hne. symmetry. apply get_dis_p2p_zero.
    unfold get_dis_p2p, np_square. rewrite <- E. unfold r, der_x, der_y.
    f_equal. ring. }
  split; [exact Hr|]. cbv zeta.
  unfold rotate; cbn [fst snd]. rewrite cos_PI2, sin_PI2.
  assert (Hrr : r * r = der_x ^ 2 + der_y ^ 2) by (unfold r; apply sqrt_sqrt; exact HD).
  replace ((der_x * (1 / r) * 0 - der_y * (1 / r) * 1)
           * (der_x * (1 / r) * 0 - der_y * (1 / r) * 1)
           + (der_x * (1 / r) * 1 + der_y * (1 / r) * 0)
             * (der_x * (1 / r) * 1 + der_y * (1 / r) * 0))
    with ((der_x ^ 2 + der_y ^ 2) / (r * r)) by (field; exact Hr).
  rewrite <- Hrr. field. exact Hr.
Qed.

Lemma beside_loop_ok (l : list point) (i : nat) (pre : point) (acc : list point) :
  (1 <= i)%nat -> no_repeat pre l ->
  exists out : list point,
    beside_loop l i pre acc = Ok (acc ++ out) /\
    length out = (4 * length l
                  + (if (i =? 1)%nat then match l with [] => 0 | _ => 4 end else 0))%nat /\
    forall q : point,
      In q out ->
      exists p : point,
        In p (pre :: l) /\ (get_dis_p2p q p = 1 \/ get_dis_p2p q p = 2).
Proof.
  revert i pre acc; induction l as [|p l IH]; intros i pre acc Hi Hchain.
  - exists []. cbn [beside_loop length]. rewrite app_nil_r.
    split; [reflexivity|]. split; [destruct (i =? 1)%nat; reflexivity|].
    intros q [].
  - destruct Hchain as (Hne & Hchain).
    destruct (beside_der_unit pre p Hne) as (Hr & Hder). cbv zeta in Hr, Hder.
    cbn [beside_loop]. unfold py_div.
    destruct (Req_dec_T (sqrt ((fst p - fst pre) ^ 2 + (snd p - snd pre) ^ 2)) 0)
      as [E|_]; [contradiction|].
    cbn [bind]. rewrite beside_points_eq.
    set (der := rotate _ _ _) in *.
    destruct (IH (S i) p
                 (acc ++ (if (i =? 1)%nat
                          then [beside_offset p der (-2); beside_offset pre der (-2);
                                beside_offset p der (-1); beside_offset pre der (-1);
                                beside_offset p der 1; beside_offset pre der 1;
                                beside_offset p der 2; beside_offset pre der 2]
                          else [beside_offset p der (-2); beside_offset p der (-1);
                                beside_offset p der 1; beside_offset p der 2])))
      as (out & Hout & Hlen & Hmem); [lia | exact Hchain|].
    assert (HSi : (S i =? 1)%nat = false) by (apply Nat.eqb_neq; lia).
    rewrite HSi in Hlen.
    assert (Hd : forall (x : point) (k : Z),
               (k = (-2)%Z \/ k = (-1)%Z \/ k = 1%Z \/ k = 2%Z) ->
               get_dis_p2p (beside_offset x der k) x = 1 \/
               get_dis_p2p (beside_offset x der k) x = 2).
    { intros x k [-> | [-> | [-> | ->]]].
      - right. apply beside_offset_dist; [exact Hder | lra | lra].
      - left. apply beside_offset_dist; [exact Hder | lra | lra].
      - left. apply beside_offset_dist; [exact Hder | lra | lra].
      - right. apply beside_offset_dist; [exact Hder | lra | lra]. }
    rewrite <- app_assoc in Hout.
    eexists. split; [exact Hout|]. split.
    + rewrite length_app, Hlen. destruct (i =? 1)%nat; cbn [length]; lia.
    + intros q Hq. apply in_app_or in Hq. destruct Hq as [Hq|Hq].
      * destruct (i =? 1)%nat; cbn [In] in Hq.
        -- destruct Hq as [<-|[<-|[<-|[<-|[<-|[<-|[<-|[<-|[]]]]]]]]];
             first [ exists p; split; [right; left; reflexivity | apply Hd; tauto]
                   | exists pre; split; [left; reflexivity | apply Hd; tauto] ].
        -- destruct Hq as [<-|[<-|[<-|[<-|[]]]]];
             exists p; (split; [right; left; reflexivity | apply Hd; tauto]).
      * destruct (Hmem q Hq) as (x & Hx & Hdx). exists x. split; [right; exact Hx | exact Hdx].
Qed.

Lemma beside_loop_raise (l : list point) (i : nat) (pre : point) (acc : list point) :
  has_repeat pre l -> beside_loop l i pre acc = Raise ZeroDivisionError.
Proof.
  revert i pre acc; induction l as [|p l IH]; intros i pre acc H; [destruct H|].
  cbn [beside_loop]. unfold py_div.
  destruct (Req_dec_T (sqrt ((fst p - fst pre) ^ 2 + (snd p - snd pre) ^ 2)) 0)
    as [E|Hne]; [reflexivity|].
  cbn [bind]. apply IH. destruct H as [-> | H]; [|exact H].
  exfalso. apply Hne.
  replace ((fst p - fst p) ^ 2 + (snd p - snd p) ^ 2) with 0 by ring. apply sqrt_0.
Qed.

(** With [include_beside], and the number of parts [divide_num] of the call
    with [include_self] alone: when no two consecutive points of the polygon
    are equal, the function returns the points of that call followed by four
    side points for each of them, every side point at distance 1 or 2 from
    one of the points; when two consecutive points of the polygon are equal,
    it raises [ZeroDivisionError]. *)
Theorem get_subdivide_points_beside (polygon : list point) (include_self : bool)
    (threshold : R) :
  (2 <= length polygon)%nat -> 0 < threshold ->
  exists divide_num fuel0 : nat,
    forall fuel : nat,
      (fuel0 <= fuel)%nat ->
      get_subdivide_points fuel polygon true threshold false false
      = Some (Ok (subdivided polygon divide_num true, None)) /\
      ((forall a b : point, In (a, b) (consecutive polygon) -> a <> b) ->
       exists points_ : list point,
         get_subdivide_points fuel polygon include_self threshold true false
         = Some (Ok (subdivided polygon divide_num true ++ points_, None)) /\
         length points_ = (4 * length (subdivided polygon divide_num true))%nat /\
         forall q : point,
           In q points_ ->
           exists p : point,
             In p (subdivided polygon divide_num true) /\
             (get_dis_p2p q p = 1 \/ get_dis_p2p q p = 2)) /\
      ((exists a : point, In (a, a) (consecutive polygon)) ->
       get_subdivide_points fuel polygon include_self threshold true false
       = Some (Raise ZeroDivisionError)).
Proof.
  intros Hlen Ht.
  destruct (subdivide_average_ok polygon) as (avg & Havg & Hpos); [lia|].
  destruct (divide_loop_ends avg threshold Ht Hpos) as (n & fuel0 & H1 & Hle & Hleast & Hrun).
  exists n, fuel0. intros fuel Hfuel.
  destruct polygon as [|p0 tl]; [cbn [length] in Hlen; lia|].
  unfold get_subdivide_points. rewrite Havg. rewrite orb_true_r. cbn [andb orb].
  rewrite (Hrun fuel Hfuel). cbn [bind].
  cbn [subdivide_loop bind app]. rewrite !subdivide_loop_plain. cbn [bind].
  unfold subdivided, consecutive. cbn [List.tl firstn app].
  split; [reflexivity|]. split.
  - intros Hall.
    pose proof (base_no_repeat tl p0 n H1 Hall) as Hchain.
    destruct (beside_loop_ok _ 1 p0 [] (le_n 1) Hchain) as (out & Hout & Hlen' & Hmem).
    rewrite Hout. cbn [bind app]. exists out.
    split; [reflexivity|]. split; [|exact Hmem].
    rewrite Hlen'. cbn [Nat.eqb].
    assert (Hb : flat_map (segment_division n true) (combine (p0 :: tl) tl) <> []).
    { destruct tl as [|p1 tl]; [cbn [length] in Hlen; lia|].
      change (combine (p0 :: p1 :: tl) (p1 :: tl))
        with ((p0, p1) :: combine (p1 :: tl) tl).
      cbn [flat_map]. intros E. apply app_eq_nil in E. destruct E as (E & _).
      unfold segment_division in E. apply app_eq_nil in E. destruct E as (_ & E).
      discriminate. }
    destruct (flat_map (segment_division n true) (combine (p0 :: tl) tl));
      [congruence|]. cbn [length]. lia.
  - intros Hsame.
    rewrite (beside_loop_raise _ 1 p0 [] (base_has_repeat tl p0 n Hsame)).
    reflexivity.
Qed.

Lemma get_subdivide_points_beside_witness :
  exists divide_num fuel0 : nat,
    forall fuel : nat,
      (fuel0 <= fuel)%nat ->
      get_subdivide_points fuel [(0, 0); (3, 0)] true 1 false false
      = Some (Ok (subdivided [(0, 0); (3, 0)] divide_num true, None)) /\
      ((forall a b : point, In (a, b) (consecutive [(0, 0); (3, 0)]) -> a <> b) ->
       exists points_ : list point,
         get_subdivide_points fuel [(0, 0); (3, 0)] false 1 true false
         = Some (Ok (subdivided [(0, 0); (3, 0)] divide_num true ++ points_, None)) /\
         length points_ = (4 * length (subdivided [(0, 0); (3, 0)]%R divide_num true))%nat /\
         forall q : point,
           In q points_ ->
           exists p : point,
             In p (subdivided [(0, 0); (3, 0)] divide_num true) /\
             (get_dis_p2p q p = 1 \/ get_dis_p2p q p = 2)) /\
      ((exists a : point, In (a, a) (consecutive [(0, 0); (3, 0)])) ->
       get_subdivide_points fuel [(0, 0); (3, 0)] false 1 true false
       = Some (Raise ZeroDivisionError)).
Proof.
  apply (get_subdivide_points_beside [(0, 0); (3, 0)] false 1); [cbn [length]; lia | lra].
Defined.

(** ** Inverse projection: the cubic and the least distance *)

Lemma derivable_pt_lim_value (f : R -> R) (x l l' : R) :
  derivable_pt_lim f x l -> l = l' -> derivable_pt_lim f x l'.
Proof. intros H <-. exact H. Qed.

Lemma sq_dist_derivative (p : point) (c : coeff) (t : R) :
  derivable_pt_lim (fun s : R => sq_dist p (path_point c s)) t
    (cubic_c_3 c * t ^ 3 + cubic_c_2 c * t ^ 2 + cubic_c_1 p c * t + cubic_c_0 p c).
Proof.
  set (qx := (fct_cte (fst p)
              - (fct_cte (a_2 c) * (id * (id * fct_cte 1)) + fct_cte (a_1 c) * id
                 + fct_cte (a_0 c)))%F).
  set (qy := (fct_cte (snd p)
              - (fct_cte (b_2 c) * (id * (id * fct_cte 1)) + fct_cte (b_1 c) * id
                 + fct_cte (b_0 c)))%F).
  change (fun s : R => sq_dist p (path_point c s))
    with (qx * (qx * fct_cte 1) + qy * (qy * fct_cte 1))%F.
  eapply derivable_pt_lim_value.
  - unfold qx, qy.
    repeat first [ apply derivable_pt_lim_minus
                 | apply derivable_pt_lim_plus
                 | apply derivable_pt_lim_mult
                 | apply derivable_pt_lim_const
                 | apply derivable_pt_lim_id ].
  - unfold cubic_c_3, cubic_c_2, cubic_c_1, cubic_c_0,
      plus_fct, minus_fct, mult_fct, fct_cte, id.
    ring.
Qed.

(** The cubic whose roots [inv_proj] asks the solver for is the derivative,
    in the parameter, of the squared distance between the point and the
    point of the path. *)
Theorem inv_proj_cubic_derivative (p : point) (c : coeff) (t : R) :
  derivable_pt_lim (fun s : R => sq_dist p (path_point c s)) t
    (cubic_c_3 c * t ^ 3 + cubic_c_2 c * t ^ 2 + cubic_c_1 p c * t + cubic_c_0 p c).
Proof. apply sq_dist_derivative. Qed.

Lemma sq_dist_sqrt (p q : point) : get_dis_p2p p q = sqrt (sq_dist p q).
Proof. unfold get_dis_p2p, sq_dist, np_square. f_equal. ring. Qed.

Lemma inv_proj_least (np_roots : list R -> list complex) (p : point) (c : coeff) :
  (forall s : R,
      0 < s < 1 ->
      cubic_c_3 c * s ^ 3 + cubic_c_2 c * s ^ 2 + cubic_c_1 p c * s + cubic_c_0 p c = 0 ->
      exists z : complex,
        In z (np_roots [cubic_c_3 c; cubic_c_2 c; cubic_c_1 p c; cubic_c_0 p c]) /\
        im z = 0 /\ re z = s) ->
  exists t : R,
    inv_proj np_roots p c = Ok (t, path_point c t) /\
    0 <= t <= 1 /\
    forall s : R, 0 <= s <= 1 ->
                  sq_dist p (path_point c t) <= sq_dist p (path_point c s).
Proof.
  intros Hcomplete.
  destruct (inv_proj_returns np_roots p c) as (t & Heq & Hin & Hmin).
  exists t. split; [exact Heq|].
  split; [eapply inv_proj_candidates_range; exact Hin|].
  set (f := fun s : R => sq_dist p (path_point c s)).
  assert (Hcont : forall s : R, 0 <= s <= 1 -> continuity_pt f s).
  { intros s _. apply derivable_continuous_pt.
    exists (cubic_c_3 c * s ^ 3 + cubic_c_2 c * s ^ 2 + cubic_c_1 p c * s + cubic_c_0 p c).
    apply sq_dist_derivative. }
  destruct (continuity_ab_min f 0 1 Rle_0_1 Hcont) as (mx & Hmx & Hrange).
  assert (Hcand : In mx (inv_proj_candidates np_roots p c)).
  { apply inv_proj_candidates_spec.
    destruct (Req_dec mx 0) as [E0|N0]; [left; exact E0|].
    destruct (Req_dec mx 1) as [E1|N1]; [right; left; exact E1|].
    right; right. apply solve_cubic_spec.
    assert (Hroot : cubic_c_3 c * mx ^ 3 + cubic_c_2 c * mx ^ 2 + cubic_c_1 p c * mx
                    + cubic_c_0 p c = 0).
    { pose proof (sq_dist_derivative p c mx) as Hd.
      fold f in Hd.
      rewrite <- (derive_pt_eq_0 f mx _ (exist _ _ Hd) Hd).
      apply (deriv_minimum f 0 1 mx); [lra | lra|].
      intros x Hx0 Hx1. apply Hmx. lra. }
    destruct (Hcomplete mx) as (z & Hz & Him & Hre); [lra | exact Hroot|].
    exists z. split; [exact Hz|]. split; [exact Him|]. rewrite Hre.
    split; [exact Hrange | reflexivity]. }
  intros s Hs. apply Rle_trans with (f mx); [apply Hmin; exact Hcand | apply Hmx; exact Hs].
Qed.

(** When the solver reports every real root of the cubic strictly between 0
    and 1, [inv_proj] returns a parameter of [[0,1]] whose path point is
    nearest to the query point among all the points of the path over
    [[0,1]]. *)
Theorem inv_proj_global_minimum (np_roots : list R -> list complex)
    (p : point) (c : coeff) :
  (forall s : R,
      0 < s < 1 ->
      cubic_c_3 c * s ^ 3 + cubic_c_2 c * s ^ 2 + cubic_c_1 p c * s + cubic_c_0 p c = 0 ->
      exists z : complex,
        In z (np_roots [cubic_c_3 c; cubic_c_2 c; cubic_c_1 p c; cubic_c_0 p c]) /\
        im z = 0 /\ re z = s) ->
  exists t : R,
    inv_proj np_roots p c = Ok (t, path_point c t) /\
    0 <= t <= 1 /\
    forall s : R, 0 <= s <= 1 ->
                  get_dis_p2p p (path_point c t) <= get_dis_p2p p (path_point c s).
Proof.
  intros Hcomplete.
  destruct (inv_proj_least np_roots p c Hcomplete) as (t & Heq & Ht & Hmin).
  exists t. split; [exact Heq|]. split; [exact Ht|].
  intros s Hs. rewrite !sq_dist_sqrt. apply sqrt_le_1_alt. apply Hmin. exact Hs.
Qed.

Lemma inv_proj_global_minimum_witness :
  exists t : R,
    inv_proj (fun _ => [mk_complex 0.5 0]) (0.5, 1) (mk_coeff 0 1 0 0 0 0)
    = Ok (t, path_point (mk_coeff 0 1 0 0 0 0) t) /\
    0 <= t <= 1 /\
    forall s : R,
      0 <= s <= 1 ->
      get_dis_p2p (0.5, 1) (path_point (mk_coeff 0 1 0 0 0 0) t)
      <= get_dis_p2p (0.5, 1) (path_point (mk_coeff 0 1 0 0 0 0) s).
Proof.
  apply (inv_proj_global_minimum (fun _ => [mk_complex 0.5 0]) (0.5, 1)
           (mk_coeff 0 1 0 0 0 0)).
  intros s Hs Hroot. exists (mk_complex 0.5 0).
  split; [left; reflexivity|]. split; [reflexivity|].
  unfold cubic_c_3, cubic_c_2, cubic_c_1, cubic_c_0 in Hroot.
  cbn [a_2 a_1 a_0 b_2 b_1 b_0 fst snd re] in Hroot |- *. lra.
Defined.

(** ** The energy loss from the goals *)

(** With a ground-truth goal, a non-empty lattice and a score for every
    goal, [square_square_energy_loss] returns the square of the score of the
    goal nearest to the ground truth, plus, when [get_sse_prep] finds a most
    offending goal, the square of the margin minus its score, which is below
    the margin; the loss is zero exactly when the nearest goal has score zero
    and there is no offending goal. *)
Theorem square_square_energy_loss_value (np_roots : list R -> list complex)
    (dense_goals : list point) (dense_goal_scores : list R) (mp : mapping)
    (m eps : R) (g : point) :
  py_index (labels mp) (-1) = Ok g ->
  dense_goals <> [] ->
  (length dense_goals <= length dense_goal_scores)%nat ->
  exists (target_energy_idx : nat) (mo_idx : option nat) (target_energy loss : R),
    get_sse_prep np_roots dense_goals dense_goal_scores mp m eps
    = Ok (target_energy_idx, mo_idx) /\
    nth_error dense_goal_scores target_energy_idx = Some target_energy /\
    square_square_energy_loss np_roots dense_goals dense_goal_scores mp m eps = Ok loss /\
    (mo_idx = None -> loss = target_energy ^ 2) /\
    (forall j : nat,
        mo_idx = Some j ->
        exists mo_target_energy : R,
          nth_error dense_goal_scores j = Some mo_target_energy /\
          mo_target_energy < m /\
          loss = target_energy ^ 2 + (m - mo_target_energy) ^ 2) /\
    (loss = 0 <-> target_energy = 0 /\ mo_idx = None).
Proof.
  intros Hg Hne Hlen. unfold square_square_energy_loss, get_sse_prep.
  rewrite Hg. cbn [bind].
  destruct (np_argmin_ok (get_dis_batch dense_goals g)) as (idx & Hidx & Hlt).
  { intros H. apply (f_equal (@length R)) in H. rewrite get_dis_batch_length in H.
    destruct dense_goals; [congruence | discriminate]. }
  rewrite get_dis_batch_length in Hlt.
  rewrite Hidx. cbn [bind].
  destruct (sse_loop_inv np_roots dense_goals dense_goal_scores mp g m eps
              dense_goals 0 None Inf) as (mo & Hmo & Hchoice).
  - intros k. reflexivity.
  - simpl; exact Hlen.
  - intros j s Hj. lia.
  - exact I.
  - rewrite Hmo. cbn [bind].
    destruct (nth_error dense_goal_scores idx) as [te|] eqn:Ete;
      [|apply nth_error_None in Ete; lia].
    unfold square_square_energy_loss_from_prep. rewrite py_index_nat, Ete. cbn [bind].
    assert (Hsq : forall x : R, x ^ 2 = 0 -> x = 0).
    { intros x Hx. replace (x ^ 2) with (Rsqr x) in Hx by (unfold Rsqr; ring).
      apply Rsqr_0_uniq. exact Hx. }
    destruct mo as [j|].
    + destruct Hchoice as (Hj & s & (goal & td & Hgoal & Hs & Hsm & _) & _).
      rewrite py_index_nat, Hs. cbn [bind].
      destruct (Rlt_dec s m) as [_|Hge]; [|lra].
      exists idx, (Some j), te, (te ^ 2 + (m - s) ^ 2).
      split; [reflexivity|]. split; [exact Ete|]. split; [reflexivity|].
      split; [discriminate|]. split.
      * intros j' E. injection E as <-. exists s. auto.
      * pose proof (pow2_ge_0 te) as H1. pose proof (pow2_ge_0 (m - s)) as H2.
        split; [|intros (_ & E); discriminate].
        intros E. exfalso.
        assert (E2 : (m - s) ^ 2 = 0) by lra. apply Hsq in E2. lra.
    + exists idx, None, te, (te ^ 2).
      split; [reflexivity|]. split; [exact Ete|]. split; [reflexivity|].
      split; [reflexivity|]. split; [discriminate|].
      split; [intros E; split; [apply Hsq; exact E | reflexivity]|].
      intros (-> & _). ring.
Qed.

Lemma square_square_energy_loss_value_witness :
  exists (target_energy_idx : nat) (mo_idx : option nat) (target_energy loss : R),
    get_sse_prep (fun _ => []) [(0, 0); (30, 0)] [1; 2]
      {| labels := [(1, 0)]; quadratic_path := None |} 10 10
    = Ok (target_energy_idx, mo_idx) /\
    nth_error [1; 2] target_energy_idx = Some target_energy /\
    square_square_energy_loss (fun _ => []) [(0, 0); (30, 0)] [1; 2]
      {| labels := [(1, 0)]; quadratic_path := None |} 10 10 = Ok loss /\
    (mo_idx = None -> loss = target_energy ^ 2) /\
    (forall j : nat,
        mo_idx = Some j ->
        exists mo_target_energy : R,
          nth_error [1; 2] j = Some mo_target_energy /\
          mo_target_energy < 10 /\
          loss = target_energy ^ 2 + (10 - mo_target_energy) ^ 2) /\
    (loss = 0 <-> target_energy = 0 /\ mo_idx = None).
Proof.
  apply (square_square_energy_loss_value (fun _ => []) [(0, 0); (30, 0)] [1; 2]
           {| labels := [(1, 0)]; quadratic_path := None |} 10 10 (1, 0)).
  - reflexivity.
  - discriminate.
  - cbn [length]. lia.
Defined.

(** ** The goal lattice at an integer density *)

Lemma grid_set_In (grid : list point) (key q : point) :
  In q (grid_set grid key) <-> In q grid \/ q = key.
Proof.
  destruct (grid_set_spec grid key) as [(Hin & ->)|(Hnin & ->)].
  - split; [intros H; left; exact H | intros [H| ->]; assumption].
  - rewrite in_app_iff. cbn [In]. split.
    + intros [H|[<-|[]]]; [left; exact H | right; reflexivity].
    + intros [H| ->]; [left; exact H | right; left; reflexivity].
Qed.

Lemma neighbour_loop_j_int (k : nat) :
  forall (fuel : nat) (i : R) (jz bz d : Z) (grid : list point),
    (1 <= d)%Z -> (bz - jz < Z.of_nat k * d)%Z -> (k < fuel)%nat ->
    exists grid' : list point,
      neighbour_loop_j fuel i (IZR jz) (IZR bz + 1e-5) (IZR d) grid = Ok grid' /\
      forall q : point,
        In q grid' <->
        In q grid \/
        exists l : Z, (0 <= l)%Z /\ (jz + l * d <= bz)%Z /\ q = (i, IZR (jz + l * d)).
Proof.
  induction k as [|k IH]; intros fuel i jz bz d grid Hd Hk Hfuel;
    (destruct fuel as [|fuel]; [lia|]); cbn [neighbour_loop_j];
    destruct (Rlt_dec (IZR jz) (IZR bz + 1e-5)) as [Hlt|Hge].
  - exfalso. assert (H : (bz + 1 <= jz)%Z) by lia. apply IZR_le in H.
    rewrite plus_IZR in H. lra.
  - exists grid. split; [reflexivity|]. intros q. split; [intros H; left; exact H|].
    intros [H|(l & Hl & Hle & _)]; [exact H|]. exfalso. nia.
  - assert (Hjb : (jz <= bz)%Z).
    { destruct (Z_le_gt_dec jz bz) as [H|H]; [exact H|]. exfalso.
      assert (H' : (bz + 1 <= jz)%Z) by lia. apply IZR_le in H'.
      rewrite plus_IZR in H'. lra. }
    rewrite <- plus_IZR.
    destruct (IH fuel i (jz + d)%Z bz d (grid_set grid (i, IZR jz)) Hd)
      as (grid' & Hrun & Hmem); [nia | lia|].
    exists grid'. split; [exact Hrun|]. intros q. rewrite Hmem, grid_set_In. split.
    + intros [[H|H]|(l & Hl & Hle & Hq)].
      * left; exact H.
      * right. exists 0%Z. split; [lia|]. split; [lia|].
        rewrite H. do 2 f_equal. ring.
      * right. exists (l + 1)%Z. split; [lia|]. split; [nia|].
        rewrite Hq. do 2 f_equal. ring.
    + intros [H|(l & Hl & Hle & Hq)]; [left; left; exact H|].
      destruct (Z.eq_dec l 0) as [->|Hne].
      * left; right. rewrite Hq. do 2 f_equal. ring.
      * right. exists (l - 1)%Z. split; [lia|]. split; [nia|].
        rewrite Hq. do 2 f_equal. ring.
  - exists grid. split; [reflexivity|]. intros q. split; [intros H; left; exact H|].
    intros [H|(l & Hl & Hle & _)]; [exact H|]. exfalso.
    assert (Hjb : (jz <= bz)%Z) by nia. apply IZR_le in Hjb. lra.
Qed.

Lemma neighbour_loop_i_int (k kj : nat) :
  forall (fuel : nat) (iz bz j0 bj d : Z) (grid : list point),
    (1 <= d)%Z -> (bz - iz < Z.of_nat k * d)%Z -> (bj - j0 < Z.of_nat kj * d)%Z ->
    (k + kj < fuel)%nat ->
    exists grid' : list point,
      neighbour_loop_i fuel (IZR iz) (IZR bz + 1e-5) (IZR j0) (IZR bj + 1e-5) (IZR d) grid
      = Ok grid' /\
      forall q : point,
        In q grid' <->
        In q grid \/
        exists a l : Z,
          (0 <= a)%Z /\ (iz + a * d <= bz)%Z /\ (0 <= l)%Z /\ (j0 + l * d <= bj)%Z /\
          q = (IZR (iz + a * d), IZR (j0 + l * d)).
Proof.
  induction k as [|k IH]; intros fuel iz bz j0 bj d grid Hd Hk Hkj Hfuel;
    (destruct fuel as [|fuel]; [lia|]); cbn [neighbour_loop_i];
    destruct (Rlt_dec (IZR iz) (IZR bz + 1e-5)) as [Hlt|Hge].
  - exfalso. assert (H : (bz + 1 <= iz)%Z) by lia. apply IZR_le in H.
    rewrite plus_IZR in H. lra.
  - exists grid. split; [reflexivity|]. intros q. split; [intros H; left; exact H|].
    intros [H|(a & l & Ha & Hle & _)]; [exact H|]. exfalso. nia.
  - assert (Hib : (iz <= bz)%Z).
    { destruct (Z_le_gt_dec iz bz) as [H|H]; [exact H|]. exfalso.
      assert (H' : (bz + 1 <= iz)%Z) by lia. apply IZR_le in H'.
      rewrite plus_IZR in H'. lra. }
    destruct (neighbour_loop_j_int kj fuel (IZR iz) j0 bj d grid Hd Hkj)
      as (grid1 & Hrun1 & Hmem1); [lia|].
    rewrite Hrun1. cbn [bind]. rewrite <- plus_IZR.
    destruct (IH fuel (iz + d)%Z bz j0 bj d grid1 Hd) as (grid' & Hrun & Hmem);
      [nia | exact Hkj | lia|].
    exists grid'. split; [exact Hrun|]. intros q. rewrite Hmem, Hmem1. split.
    + intros [[H|(l & Hl & Hle & Hq)]|(a & l & Ha & Hai & Hl & Hle & Hq)].
      * left; exact H.
      * right. exists 0%Z, l. split; [lia|]. split; [lia|]. split; [exact Hl|].
        split; [exact Hle|]. rewrite Hq. do 2 f_equal. ring.
      * right. exists (a + 1)%Z, l. split; [lia|]. split; [nia|]. split; [exact Hl|].
        split; [exact Hle|]. rewrite Hq. do 2 f_equal. ring.
    + intros [H|(a & l & Ha & Hai & Hl & Hle & Hq)]; [left; left; exact H|].
      destruct (Z.eq_dec a 0) as [->|Hne].
      * left; right. exists l. split; [exact Hl|]. split; [exact Hle|].
        rewrite Hq. do 2 f_equal. ring.
      * right. exists (a - 1)%Z, l. split; [lia|]. split; [nia|]. split; [exact Hl|].
        split; [exact Hle|]. rewrite Hq. do 2 f_equal. ring.
  - exists grid. split; [reflexivity|]. intros q. split; [intros H; left; exact H|].
    intros [H|(a & l & Ha & Hle & _)]; [exact H|]. exfalso.
    assert (Hib : (iz <= bz)%Z) by nia. apply IZR_le in Hib. lra.
Qed.

Lemma neighbour_points_loop_int (points : list point) :
  forall (fuel : nat) (nd d : Z) (grid : list point),
    (1 <= d)%Z -> (0 <= nd)%Z -> (4 * nd + 2 < Z.of_nat fuel)%Z ->
    exists grid' : list point,
      neighbour_points_loop fuel points (IZR nd) (IZR d) grid = Ok grid' /\
      forall q : point,
        In q grid' <->
        In q grid \/
        exists p : point,
          In p points /\ in_lattice_range p /\
          exists a l : Z,
            (0 <= a)%Z /\ (a * d <= 2 * nd)%Z /\ (0 <= l)%Z /\ (l * d <= 2 * nd)%Z /\
            q = (IZR (py_round (fst p) - nd + a * d),
                 IZR (py_round (snd p) - nd + l * d)).
Proof.
  induction points as [|p tl IH]; intros fuel nd d grid Hd Hnd Hfuel.
  - exists grid. split; [reflexivity|]. intros q. split; [intros H; left; exact H|].
    intros [H|(p & [] & _)]; exact H.
  - cbn [neighbour_points_loop].
    set (x := py_round (fst p)). set (y := py_round (snd p)).
    destruct ((-100 <=? x) && (x <=? 100) && ((-100 <=? y) && (y <=? 100)))%Z eqn:E.
    + assert (Hr : in_lattice_range p).
      { apply andb_true_iff in E. destruct E as (E1 & E2).
        apply andb_true_iff in E1, E2. destruct E1 as (A & B), E2 as (C & D).
        apply Z.leb_le in A, B, C, D. split; split; assumption. }
      rewrite <- !minus_IZR, <- !plus_IZR.
      destruct (neighbour_loop_i_int (Z.to_nat (2 * nd + 1)) (Z.to_nat (2 * nd + 1))
                  fuel (x - nd)%Z (x + nd)%Z (y - nd)%Z (y + nd)%Z d grid Hd)
        as (grid1 & Hrun1 & Hmem1); [rewrite Z2Nat.id by lia; nia
                                    |rewrite Z2Nat.id by lia; nia | lia|].
      rewrite Hrun1. cbn [bind].
      destruct (IH fuel nd d grid1 Hd Hnd Hfuel) as (grid' & Hrun & Hmem).
      exists grid'. split; [exact Hrun|]. intros q. rewrite Hmem, Hmem1. split.
      * intros [[H|(a & l & Ha & Hai & Hl & Hle & Hq)]|(p' & Hp' & Hrest)].
        -- left; exact H.
        -- right. exists p. split; [left; reflexivity|]. split; [exact Hr|].
           exists a, l. fold x y. repeat (split; [lia|]). exact Hq.
        -- right. exists p'. split; [right; exact Hp' | exact Hrest].
      * intros [H|(p' & [<-|Hp'] & Hr' & a & l & Ha & Hai & Hl & Hle & Hq)].
        -- left; left; exact H.
        -- left; right. exists a, l. fold x y in Hq. repeat (split; [lia|]). exact Hq.
        -- right. exists p'. split; [exact Hp'|]. split; [exact Hr'|].
           exists a, l. repeat (split; [assumption|]). exact Hq.
    + destruct (IH fuel nd d grid Hd Hnd Hfuel) as (grid' & Hrun & Hmem).
      exists grid'. split; [exact Hrun|]. intros q. rewrite Hmem. split.
      * intros [H|(p' & Hp' & Hrest)]; [left; exact H|].
        right. exists p'. split; [right; exact Hp' | exact Hrest].
      * intros [H|(p' & [<-|Hp'] & Hr' & Hrest)]; [left; exact H| |].
        -- exfalso. destruct Hr' as ((A & B) & (C & D)). fold x in A, B. fold y in C, D.
           apply Z.leb_le in A, B, C, D. rewrite A, B, C, D in E. discriminate.
        -- right. exists p'. split; [exact Hp'|]. split; [exact Hr' | exact Hrest].
Qed.

Lemma powerRZ_10_IZR (d : Z) : (0 <= d)%Z -> powerRZ 10 d = IZR (10 ^ d).
Proof.
  intros Hd. destruct d as [|q|q]; [reflexivity| |lia].
  cbn [powerRZ]. rewrite pow_IZR, positive_nat_Z. reflexivity.
Qed.

Lemma get_hash_point_integer (d a b : Z) :
  (0 <= d)%Z -> get_hash_point (PyInt d) (IZR a, IZR b) = Ok (IZR a, IZR b).
Proof.
  intros Hd. rewrite get_hash_point_int. cbn [fst snd].
  rewrite (powerRZ_10_IZR d Hd), <- !mult_IZR, !py_round_IZR, !mult_IZR.
  assert (Hp : IZR (10 ^ d) <> 0).
  { apply not_0_IZR. apply Z.pow_nonzero; lia. }
  do 2 f_equal; field; exact Hp.
Qed.

(** With an integer [neighbour_dis >= 0] and an integer density [>= 1], the
    loops of [get_neighbour_points_new] end and the function returns, each
    once, the lattice points [(x - neighbour_dis + a * density,
    y - neighbour_dis + l * density)] with [a * density] and [l * density]
    from [0] to [2 * neighbour_dis], around the rounded coordinates [(x, y)]
    of every point in the range [-100..100], and no other point. *)
Theorem get_neighbour_points_new_int (fuel : nat) (points : list point) (nd d : Z) :
  (1 <= d)%Z -> (0 <= nd)%Z -> (4 * nd + 2 < Z.of_nat fuel)%Z ->
  exists out : list point,
    get_neighbour_points_new fuel points (IZR nd) (PyInt d) = Ok out /\
    NoDup out /\
    forall q : point,
      In q out <->
      exists p : point,
        In p points /\ in_lattice_range p /\
        exists a l : Z,
          (0 <= a)%Z /\ (a * d <= 2 * nd)%Z /\ (0 <= l)%Z /\ (l * d <= 2 * nd)%Z /\
          q = (IZR (py_round (fst p) - nd + a * d),
               IZR (py_round (snd p) - nd + l * d)).
Proof.
  intros Hd Hnd Hfuel. unfold get_neighbour_points_new. cbn [py_value].
  destruct (neighbour_points_loop_int points fuel nd d [] Hd Hnd Hfuel)
    as (grid & Hrun & Hmem).
  rewrite Hrun. cbn [bind].
  destruct (get_points_remove_repeated_idempotent d grid) as (out & Hout & Hnodup & _).
  exists out. split; [exact Hout|]. split; [exact Hnodup|].
  unfold get_points_remove_repeated in Hout.
  destruct (remove_repeated_loop_members d grid []) as (out' & Hout' & Hmem').
  rewrite Hout in Hout'. injection Hout' as <-.
  intros q. rewrite Hmem'. split.
  - intros [[]|(k & Hk & Hq)]. apply Hmem in Hk.
    destruct Hk as [[]|(p & Hp & Hr & a & l & Ha & Hai & Hl & Hle & Hk)].
    rewrite Hk, get_hash_point_integer in Hq by lia. injection Hq as <-.
    exists p. split; [exact Hp|]. split; [exact Hr|].
    exists a, l. repeat (split; [assumption|]). reflexivity.
  - intros (p & Hp & Hr & a & l & Ha & Hai & Hl & Hle & Hq). right.
    exists q. split.
    + apply Hmem. right. exists p. split; [exact Hp|]. split; [exact Hr|].
      exists a, l. repeat (split; [assumption|]). exact Hq.
    + rewrite Hq. apply get_hash_point_integer. lia.
Qed.

Lemma get_neighbour_points_new_int_witness :
  exists out : list point,
    get_neighbour_points_new 11 [(0.2, 0.3)] (IZR 2) (PyInt 1) = Ok out /\
    NoDup out /\
    forall q : point,
      In q out <->
      exists p : point,
        In p [(0.2, 0.3)] /\ in_lattice_range p /\
        exists a l : Z,
          (0 <= a)%Z /\ (a * 1 <= 2 * 2)%Z /\ (0 <= l)%Z /\ (l * 1 <= 2 * 2)%Z /\
          q = (IZR (py_round (fst p) - 2 + a * 1),
               IZR (py_round (snd p) - 2 + l * 1)).
Proof.
  apply (get_neighbour_points_new_int 11 [(0.2, 0.3)] 2 1); lia.
Defined.

(** ** Centroid refinement: the divisor of an update *)

Lemma skipn_nth_error {A : Type} (l : list A) (i : nat) (a : A) :
  nth_error l i = Some a -> skipn i l = a :: skipn (S i) l.
Proof.
  revert i; induction l as [|b tl IH]; intros i H; [destruct i; discriminate|].
  destruct i as [|i]; [injection H as ->; reflexivity|].
  cbn [skipn]. apply IH. exact H.
Qed.

Lemma fde_weights_within (k : nat) (radius : R) (centroids : list point) (c : point)
    (scores : list R) (goals : list point) (i : nat) :
  nth_error centroids k = Some c -> (k < 6)%nat ->
  (i + length goals <= length scores)%nat ->
  fde_weights k radius i goals
    (map (fun goal => map (fun c' => get_dis_p2p goal c') (firstn 6 centroids)) goals)
    scores
  = Ok (goals_within radius centroids c goals (skipn i scores)).
Proof.
  intros Hc Hk. revert i; induction goals as [|goal tl IH]; intros i Hlen.
  - reflexivity.
  - cbn [length] in Hlen. cbn [map fde_weights].
    rewrite (fde_row_nth centroids goal c k Hc Hk).
    destruct (nth_error scores i) as [s|] eqn:Es; [|apply nth_error_None in Es; lia].
    rewrite (skipn_nth_error scores i s Es).
    unfold goals_within. cbn [combine filter fst snd]. unfold Rleb at 1.
    destruct (Rle_dec (get_dis_p2p goal c) radius) as [Hin|Hout].
    + rewrite py_index_nat, Es. cbn [bind].
      rewrite (IH (S i)) by lia. cbn [bind map fst snd].
      unfold goals_within, fde_weight. reflexivity.
    + rewrite (IH (S i)) by lia. reflexivity.
Qed.

Lemma fde_centroid_mean (selected : list (point * R)) :
  (weight_sum selected = 0 -> fde_centroid selected = NonFinite) /\
  (weight_sum selected <> 0 -> fde_centroid selected = Ok (weighted_mean selected)).
Proof. exact (fde_centroid_spec selected). Qed.

Lemma fde_update_means (radius : R) (goals : list point) (scores : list R)
    (centroids : list point) (ks : list nat) :
  (length goals <= length scores)%nat ->
  NoDup ks ->
  forall current : list point,
    (forall k : nat, In k ks -> (k < 6)%nat /\ (k < length current)%nat) ->
    (forall (k : nat) (c : point),
        In k ks -> nth_error centroids k = Some c ->
        weight_sum (goals_within radius centroids c goals scores) <> 0) ->
    (forall k : nat, In k ks -> exists c : point, nth_error centroids k = Some c) ->
    exists current' : list point,
      fde_update ks radius goals
        (map (fun goal => map (fun c' => get_dis_p2p goal c') (firstn 6 centroids)) goals)
        scores current = Ok current' /\
      length current' = length current /\
      (forall (k : nat) (c : point),
          In k ks -> nth_error centroids k = Some c ->
          nth_error current' k
          = Some (weighted_mean (goals_within radius centroids c goals scores))) /\
      (forall j : nat, ~ In j ks -> nth_error current' j = nth_error current j).
Proof.
  intros Hlen Hnd. induction Hnd as [|k0 ks Hnotin Hnd IH];
    intros current Hks Hnz Hex.
  - exists current. split; [reflexivity|]. split; [reflexivity|].
    split; [intros k c []|reflexivity].
  - destruct (Hex k0 (or_introl eq_refl)) as (c0 & Hc0).
    destruct (Hks k0 (or_introl eq_refl)) as (Hk6 & Hkc).
    cbn [fde_update].
    rewrite (fde_weights_within k0 radius centroids c0 scores goals 0 Hc0 Hk6)
      by (cbn [Nat.add]; exact Hlen).
    cbn [skipn bind].
    destruct (fde_centroid_mean (goals_within radius centroids c0 goals scores))
      as (_ & Hmean).
    rewrite Hmean by (apply (Hnz k0 c0); [left; reflexivity | exact Hc0]).
    cbn [bind].
    destruct (np_setitem_ok current k0
                (weighted_mean (goals_within radius centroids c0 goals scores)) Hkc)
      as (cur1 & Hset & Hlen1).
    rewrite Hset. cbn [bind].
    destruct (np_setitem_nth _ _ _ _ Hset) as (_ & Hnth1).
    destruct (IH cur1) as (cur' & Hrun & Hlen' & Hin' & Hout').
    + intros k Hk. destruct (Hks k (or_intror Hk)) as (H6 & Hc). split; [exact H6 | lia].
    + intros k c Hk. apply Hnz. right. exact Hk.
    + intros k Hk. apply Hex. right. exact Hk.
    + exists cur'. split; [exact Hrun|]. split; [lia|]. split.
      * intros k c [<-|Hk] Hc.
        -- rewrite (Hout' k0 Hnotin), Hnth1, Nat.eqb_refl.
           rewrite Hc0 in Hc. injection Hc as <-. reflexivity.
        -- apply Hin'; assumption.
      * intros j Hj. rewrite Hout' by (intros H; apply Hj; right; exact H).
        rewrite Hnth1.
        destruct (Nat.eqb_spec j k0) as [->|_]; [|reflexivity].
        exfalso. apply Hj. left. reflexivity.
Qed.

Lemma fde_update_zero_sum (radius : R) (goals : list point) (scores : list R)
    (centroids : list point) (k : nat) (c : point) (ks : list nat) :
  (length goals <= length scores)%nat ->
  In k ks -> nth_error centroids k = Some c ->
  weight_sum (goals_within radius centroids c goals scores) = 0 ->
  forall current : list point,
    (forall k' : nat,
        In k' ks ->
        (k' < 6)%nat /\ (k' < length current)%nat /\
        exists c' : point, nth_error centroids k' = Some c') ->
    fde_update ks radius goals
      (map (fun goal => map (fun c' => get_dis_p2p goal c') (firstn 6 centroids)) goals)
      scores current = NonFinite.
Proof.
  intros Hlen Hin Hc Hzero. induction ks as [|k0 ks IH]; intros current Hks;
    [destruct Hin|].
  destruct (Hks k0 (or_introl eq_refl)) as (Hk6 & Hkc & c0 & Hc0).
  cbn [fde_update].
  rewrite (fde_weights_within k0 radius centroids c0 scores goals 0 Hc0 Hk6)
    by (cbn [Nat.add]; exact Hlen).
  cbn [skipn bind].
  destruct (Nat.eq_dec k0 k) as [->|Hne].
  - rewrite Hc in Hc0. injection Hc0 as <-.
    destruct (fde_centroid_mean (goals_within radius centroids c goals scores))
      as (Hz & _).
    rewrite (Hz Hzero). reflexivity.
  - destruct (fde_centroid_no_raise (goals_within radius centroids c0 goals scores))
      as [Hnf|(v & Hv)]; [rewrite Hnf; reflexivity|].
    rewrite Hv. cbn [bind].
    destruct (np_setitem_ok current k0 v Hkc) as (cur1 & Hset & Hlen1).
    rewrite Hset. cbn [bind]. apply IH.
    + destruct Hin as [E|Hin]; [congruence | exact Hin].
    + intros k' Hk'. destruct (Hks k' (or_intror Hk')) as (H6 & Hl & Hex).
      split; [exact H6|]. split; [lia | exact Hex].
Qed.

(** C10. In every pass of [get_optimal_targets_home_FDE], the update of a
    centroid divides by the sum of the weights of the goals within [radius]
    of that centroid, and the division has no guard.  When the six sums are
    not zero the pass returns, for each of the six centroids, the mean of
    the goals within [radius] of it with these weights, over their sum.
    When one of the six sums is zero the pass, and with it the call, ends
    with a centroid that is not a number.  That happens in the first pass
    whenever one of the six centroids has no goal within [radius], or only
    goals of score 0. *)
Theorem fde_unguarded_division (scores : list R) (goals centroids : list point)
    (L k : nat) (radius : R) :
  (6 <= length centroids)%nat ->
  (length goals <= length scores)%nat ->
  ((forall (j : nat) (c : point),
       (j < 6)%nat -> nth_error centroids j = Some c ->
       weight_sum (goals_within radius centroids c goals scores) <> 0) ->
   exists centroids' : list point,
     fde_pass scores goals centroids radius = Ok centroids' /\
     length centroids' = length centroids /\
     (forall (j : nat) (c : point),
         (j < 6)%nat -> nth_error centroids j = Some c ->
         nth_error centroids' j
         = Some (weighted_mean (goals_within radius centroids c goals scores))) /\
     (forall j : nat, (6 <= j)%nat -> nth_error centroids' j = nth_error centroids j)) /\
  (forall c : point,
      (k < 6)%nat -> nth_error centroids k = Some c ->
      weight_sum (goals_within radius centroids c goals scores) = 0 ->
      fde_pass scores goals centroids radius = NonFinite /\
      get_optimal_targets_home_FDE scores goals centroids (S L) radius = NonFinite) /\
  ((k < 6)%nat ->
   (forall (j : nat) (goal c : point) (s : R),
       nth_error goals j = Some goal -> nth_error centroids k = Some c ->
       nth_error scores j = Some s ->
       get_dis_p2p goal c <= radius -> s = 0) ->
   get_optimal_targets_home_FDE scores goals centroids (S L) radius = NonFinite).
Proof.
  intros Hc Hlen.
  assert (Hex : forall j : nat, (j < 6)%nat -> exists c : point, nth_error centroids j = Some c).
  { intros j Hj. destruct (nth_error centroids j) as [c|] eqn:E; [eauto|].
    apply nth_error_None in E. lia. }
  split; [|split].
  - intros Hnz. unfold fde_pass. rewrite fde_dist_ok by exact Hc. cbn [bind].
    destruct (fde_update_means radius goals scores centroids (seq 0 6) Hlen
                (seq_NoDup 6 0) centroids) as (cs & Hrun & Hl & Hin & Hout).
    + intros j Hj. apply in_seq in Hj. lia.
    + intros j c Hj. apply in_seq in Hj. apply Hnz. lia.
    + intros j Hj. apply in_seq in Hj. apply Hex. lia.
    + exists cs. split; [exact Hrun|]. split; [exact Hl|]. split.
      * intros j c Hj. apply Hin. apply in_seq. lia.
      * intros j Hj. apply Hout. intros H. apply in_seq in H. lia.
  - intros c Hk Hck Hzero.
    assert (Hpass : fde_pass scores goals centroids radius = NonFinite).
    { unfold fde_pass. rewrite fde_dist_ok by exact Hc. cbn [bind].
      apply (fde_update_zero_sum radius goals scores centroids k c (seq 0 6) Hlen);
        [apply in_seq; lia | exact Hck | exact Hzero|].
      intros j Hj. apply in_seq in Hj. split; [lia|]. split; [lia|]. apply Hex. lia. }
    split; [exact Hpass|]. cbn [get_optimal_targets_home_FDE]. rewrite Hpass. reflexivity.
  - intros Hk Hzero.
    destruct (nth_error centroids k) as [c|] eqn:Ec;
      [|apply nth_error_None in Ec; lia].
    cbn [get_optimal_targets_home_FDE]. unfold fde_pass.
    rewrite fde_dist_ok by exact Hc. cbn [bind].
    rewrite (fde_update_nonfinite (seq 0 6) radius goals
               (fun goal => map (fun c => get_dis_p2p goal c) (firstn 6 centroids))
               scores centroids k).
    + reflexivity.
    + apply in_seq. lia.
    + intros k' Hk'. apply in_seq in Hk'. lia.
    + exact Hlen.
    + intros j goal s Hg Hs Hd.
      rewrite (fde_row_nth centroids goal c k Ec Hk) in Hd.
      exact (Hzero j goal c s Hg eq_refl Hs Hd).
Qed.

Lemma fde_unguarded_division_witness :
  (exists centroids' : list point,
      fde_pass [1] [(0, 0)] [(0, 0); (0, 0); (0, 0); (0, 0); (0, 0); (0, 0)] 3
      = Ok centroids' /\
      length centroids' = length [(0, 0); (0, 0); (0, 0); (0, 0); (0, 0); (0, 0)]%R /\
      (forall (j : nat) (c : point),
          (j < 6)%nat ->
          nth_error [(0, 0); (0, 0); (0, 0); (0, 0); (0, 0); (0, 0)] j = Some c ->
          nth_error centroids' j
          = Some (weighted_mean
                    (goals_within 3 [(0, 0); (0, 0); (0, 0); (0, 0); (0, 0); (0, 0)] c
                       [(0, 0)] [1]))) /\
      (forall j : nat,
          (6 <= j)%nat ->
          nth_error centroids' j
          = nth_error [(0, 0); (0, 0); (0, 0); (0, 0); (0, 0); (0, 0)] j)) /\
  get_optimal_targets_home_FDE [1] [(100, 0)]
    [(0, 0); (0, 0); (0, 0); (0, 0); (0, 0); (0, 0)] 4 3 = NonFinite.
Proof.
  split.
  - apply (fde_unguarded_division [1] [(0, 0)]
             [(0, 0); (0, 0); (0, 0); (0, 0); (0, 0); (0, 0)] 0 0 3).
    + simpl; lia.
    + simpl; lia.
    + intros j c Hj Hc.
      assert (Ec : c = (0, 0)).
      { do 6 (destruct j as [|j]; [injection Hc as <-; reflexivity|]). lia. }
      rewrite Ec. unfold weight_sum, goals_within, fde_weight.
      cbn [combine filter fst snd]. rewrite get_dis_p2p_refl.
      assert (Hb : Rleb 0 3 = true) by (apply Rleb_true; lra).
      rewrite Hb. cbn [map fst snd firstn np_min fold_left np_sum fold_right].
      rewrite get_dis_p2p_refl.
      assert (Hm : Rmin 0 0 = 0) by (apply Rmin_left; lra).
      rewrite !Hm.
      intros H. assert (H1 : 1 * (0 + 1e-7) / (0 ^ 2 + 1e-7) = 1) by (field; lra). lra.
  - apply (fde_unguarded_division [1] [(100, 0)]
             [(0, 0); (0, 0); (0, 0); (0, 0); (0, 0); (0, 0)] 3 0 3).
    + simpl; lia.
    + simpl; lia.
    + lia.
    + intros [|j] goal c s Hg Hc Hs Hd.
      * injection Hg as <-. injection Hc as <-.
        apply get_dis_p2p_le_sq in Hd. simpl in Hd. lra.
      * destruct j; discriminate.
Defined.
